(** * AI Coach: the message-send / stream / render / speak pipeline

    A shallow embedding of the React component [AiCoach] (the variant with
    key re-selection and voice mode, and the simpler variant under
    [components/games/AiCoach.tsx]), together with the properties of its
    handlers.

    Conventions of the embedding.
    - A JavaScript string is the list of its UTF-16 code units ([N]); the
      regular expressions of the source carry no [u] flag, so they work on
      code units as well.
    - A React state variable is a field of [State]; [setX v] is a function
      that replaces the field.  State updates are applied in program order.
    - The values a handler closes over (the state of the render in which
      it was created) are read once, when the handler starts.
    - An [await] splits a handler into the part before it and one
      continuation per way the awaited promise settles.
    - Calls that leave the component (speech synthesis, the chat session,
      the console) are recorded in a log of [Effect]s.
    - A streamed chunk is given by its [text], a string or [undefined]:
      the handlers append it without a test.
    - The updaters of the variant with voice mode build new message
      objects, so they are functions on the values of the array.  Two
      updaters of the simpler variant assign to an object of the previous
      array; for these the objects are kept in a store, and the number of
      times React calls an updater is a parameter. *)

From Stdlib Require Import ZArith NArith Ascii String List Lia Bool QArith.
From stdpp Require Import base list.

Local Open Scope Z_scope.

(** ** JavaScript strings *)

Abbreviation jschar := N (only parsing).
Abbreviation jsstring := (list N) (only parsing).

(** A source literal (all literals of the component are ASCII). *)
Definition lit (s : string) : jsstring :=
  map N_of_ascii (list_ascii_of_string s).

(** ECMAScript [WhiteSpace] and [LineTerminator] code points: the set that
    [String.prototype.trim] strips and that [\s] matches. *)
Definition isWhiteSpace (c : jschar) : bool :=
  ((c =? 0x9) || (c =? 0xA) || (c =? 0xB) || (c =? 0xC) || (c =? 0xD)
   || (c =? 0x20) || (c =? 0xA0) || (c =? 0x1680)
   || ((0x2000 <=? c) && (c <=? 0x200A))
   || (c =? 0x2028) || (c =? 0x2029) || (c =? 0x202F) || (c =? 0x205F)
   || (c =? 0x3000) || (c =? 0xFEFF))%N.

Fixpoint trimStart (s : jsstring) : jsstring :=
  match s with
  | c :: t => if isWhiteSpace c then trimStart t else s
  | [] => []
  end.

Definition trimEnd (s : jsstring) : jsstring :=
  reverse (trimStart (reverse s)).

(** [String.prototype.trim] *)
Definition trim (s : jsstring) : jsstring := trimEnd (trimStart s).

(** [s.startsWith(p)] *)
Fixpoint startsWith (p s : jsstring) : bool :=
  match p, s with
  | [], _ => true
  | a :: p', b :: s' => (a =? b)%N && startsWith p' s'
  | _ :: _, [] => false
  end.

Fixpoint indexOf_from (i : Z) (s needle : jsstring) : Z :=
  if startsWith needle s then i
  else match s with
       | [] => -1
       | _ :: t => indexOf_from (i + 1) t needle
       end.

(** [s.indexOf(needle)]: the first position at which [needle] occurs, or
    [-1]. *)
Definition indexOf (s needle : jsstring) : Z := indexOf_from 0 s needle.

(** [s.includes(needle)] *)
Definition includes (s needle : jsstring) : bool := 0 <=? indexOf s needle.

(** [s.substring(a, b)]: both ends are clamped to [0 .. s.length] and
    swapped when out of order. *)
Definition substring (s : jsstring) (a b : Z) : jsstring :=
  let len := Z.of_nat (length s) in
  let a' := Z.min (Z.max a 0) len in
  let b' := Z.min (Z.max b 0) len in
  take (Z.to_nat (Z.max a' b' - Z.min a' b')) (drop (Z.to_nat (Z.min a' b')) s).

(** Numbers as far as [Math.min] over positions and [Infinity] needs them. *)
Inductive JSNum :=
| Finite (z : Z)
| Infinity.

Definition num_min (a b : JSNum) : JSNum :=
  match a, b with
  | Finite x, Finite y => Finite (Z.min x y)
  | Finite x, Infinity => Finite x
  | Infinity, y => y
  end.

(** [Math.min(a, b, c)] *)
Definition Math_min (a b c : JSNum) : JSNum := num_min (num_min a b) c.

(** ** Regular expressions

    The fragment of ECMAScript regular expressions the component uses:
    literal text, a greedy or lazy star over a character class, capturing
    groups and concatenation.  Matching is the backtracking search of the
    language definition, written with a continuation: [rmatch r s caps k]
    matches [r] at the start of [s] and hands the rest of the input and the
    captures to [k]; when [k] fails the next alternative is tried. *)

Inductive regex :=
| rLit (l : jsstring)
| rStar (greedy : bool) (cls : jschar → bool)
| rGroup (r : regex)
| rCat (r1 r2 : regex).

(** [.] under the [s] flag matches every code unit. *)
Definition dotAll (c : jschar) : bool := true.

Fixpoint stripPrefix (p s : jsstring) : option jsstring :=
  match p, s with
  | [], _ => Some s
  | a :: p', b :: s' => if (a =? b)%N then stripPrefix p' s' else None
  | _ :: _, [] => None
  end.

Section Matcher.
Context {R : Type}.

(** [cls*]: take as many as possible, give back one at a time. *)
Fixpoint star_greedy (cls : jschar → bool) (s : jsstring)
    (k : jsstring → option R) : option R :=
  match s with
  | c :: t =>
      if cls c then
        match star_greedy cls t k with
        | Some r => Some r
        | None => k s
        end
      else k s
  | [] => k s
  end.

(** [cls*?]: take as few as possible, extend one at a time. *)
Fixpoint star_lazy (cls : jschar → bool) (s : jsstring)
    (k : jsstring → option R) : option R :=
  match k s with
  | Some r => Some r
  | None =>
      match s with
      | c :: t => if cls c then star_lazy cls t k else None
      | [] => None
      end
  end.

(** The text consumed between the input [s] and its suffix [s']. *)
Definition consumed (s s' : jsstring) : jsstring :=
  take (length s - length s')%nat s.

Fixpoint rmatch (r : regex) (s : jsstring) (caps : list jsstring)
    (k : jsstring → list jsstring → option R) : option R :=
  match r with
  | rLit l =>
      match stripPrefix l s with
      | Some s' => k s' caps
      | None => None
      end
  | rStar true cls => star_greedy cls s (λ s', k s' caps)
  | rStar false cls => star_lazy cls s (λ s', k s' caps)
  | rGroup r1 => rmatch r1 s caps (λ s' caps', k s' (caps' ++ [consumed s s']))
  | rCat r1 r2 => rmatch r1 s caps (λ s' caps', rmatch r2 s' caps' k)
  end.
End Matcher.

(** The result of [RegExp.prototype.exec]: [index], element [0] (the whole
    match) and the captures (element [1] onwards). *)
Record MatchResult := {
  index : nat;
  matched : jsstring;
  groups : list jsstring;
}.

Definition accept (s' : jsstring) (caps : list jsstring)
  : option (jsstring * list jsstring) := Some (s', caps).

(** Try every start position from left to right. *)
Fixpoint exec_from (r : regex) (i : nat) (s : jsstring) : option MatchResult :=
  match rmatch r s [] accept with
  | Some (s', caps) =>
      Some {| index := i; matched := consumed s s'; groups := caps |}
  | None =>
      match s with
      | [] => None
      | _ :: t => exec_from r (S i) t
      end
  end.

(** [s.match(r)] for a regular expression without the [g] flag. *)
Definition str_match (s : jsstring) (r : regex) : option MatchResult :=
  exec_from r 0 s.

(** [s.replace(r, by)] for a regular expression without the [g] flag and a
    replacement without [$] patterns: the first match is replaced. *)
Definition str_replace (s : jsstring) (r : regex) (by_ : jsstring) : jsstring :=
  match str_match s r with
  | Some m => take (index m) s ++ by_ ++ drop (index m + length (matched m)) s
  | None => s
  end.

(** [m[1]] *)
Definition group1 (m : MatchResult) : jsstring := default [] (groups m !! 0%nat).

Definition VOICE_OVER_label : jsstring := Eval cbv in lit "VOICE_OVER:".
Definition LaTeX_label : jsstring := Eval cbv in lit "LaTeX Formula:".
Definition MathML_label : jsstring := Eval cbv in lit "MathML Formula:".
Definition Plain_label : jsstring := Eval cbv in lit "Plain Description:".

(** The sources [/VOICE_OVER:\s*( .* )/s] (the group is [.] starred; it is
    spaced out here and below only to keep the comment well formed). *)
Definition VOICE_OVER_re : regex :=
  rCat (rLit VOICE_OVER_label)
    (rCat (rStar true isWhiteSpace) (rGroup (rStar true dotAll))).

(** [/LaTeX Formula:\s*(\$\$.*?\$\$)/s] *)
Definition LaTeX_re : regex :=
  rCat (rLit LaTeX_label)
    (rCat (rStar true isWhiteSpace)
       (rGroup (rCat (rLit (lit "$$")) (rCat (rStar false dotAll) (rLit (lit "$$")))))).

(** [/MathML Formula:\s*(<math.*?<\/math>)/s] *)
Definition MathML_re : regex :=
  rCat (rLit MathML_label)
    (rCat (rStar true isWhiteSpace)
       (rGroup (rCat (rLit (lit "<math")) (rCat (rStar false dotAll) (rLit (lit "</math>")))))).

(** [/Plain Description:\s*( .* )/s] *)
Definition Plain_re : regex :=
  rCat (rLit Plain_label)
    (rCat (rStar true isWhiteSpace) (rGroup (rStar true dotAll))).

(** ** Data model *)

(** [role: 'user' | 'model'] *)
Inductive Role := user | model.

Record Message := {
  role : Role;
  content : jsstring;
}.

Inductive KeyStatus := checking | needed | ready | error.

(** The chat session of the provider: an opaque handle. *)
Inductive Chat := ChatHandle (id : nat).

#[global] Instance Role_eq_dec : EqDecision Role.
Proof. solve_decision. Defined.
#[global] Instance KeyStatus_eq_dec : EqDecision KeyStatus.
Proof. solve_decision. Defined.
#[global] Instance Chat_eq_dec : EqDecision Chat.
Proof. solve_decision. Defined.
#[global] Instance Message_eq_dec : EqDecision Message.
Proof. solve_decision. Defined.

(** The state variables of the component ([useState]) and the accumulator
    [currentModelMessage] ([useRef]). *)
Record State := {
  keyStatus : KeyStatus;
  isInitializing : bool;
  keyError : option jsstring;
  chat : option Chat;
  messages : list Message;
  inputValue : jsstring;
  isStreaming : bool;
  isMadScientistVoiceOn : bool;
  currentModelMessage : jsstring;
}.

(** The state of the first render. *)
Definition initialState : State := {|
  keyStatus := checking;
  isInitializing := false;
  keyError := None;
  chat := None;
  messages := [];
  inputValue := [];
  isStreaming := false;
  isMadScientistVoiceOn := false;
  currentModelMessage := [];
|}.

(** What the hosting page offers: [window.aistudio] (and whether its
    [hasSelectedApiKey] is a function) and [window.speechSynthesis]. *)
Record AiStudio := {
  hasSelectedApiKey_is_function : bool;
}.

Record Window := {
  aistudio : option AiStudio;
  speechSynthesis : bool;
}.

(** A thrown value; [message] is absent when the value has no string
    [message] property. *)
Record JSError := {
  message : option jsstring;
}.

(** How a call or an awaited promise ends. *)
Inductive Settled (A : Type) :=
| Fulfilled (a : A)
| Rejected (e : JSError).
Arguments Fulfilled {A} a.
Arguments Rejected {A} e.

Record Utterance := {
  text : jsstring;
  pitch : Q;
  rate : Q;
  volume : Q;
}.

(** Calls that leave the component. *)
Inductive Effect :=
| SpeechCancel                                   (* speechSynthesis.cancel() *)
| SpeechSpeak (u : Utterance)                    (* speechSynthesis.speak(u) *)
| SendMessageStream (c : Chat) (msg : jsstring)  (* chat.sendMessageStream *)
| ConsoleError (what : jsstring).                (* console.error *)

(** ** Handlers as state transformers that log their effects *)

Definition Act (A : Type) : Type := State → A * State * list Effect.

#[global] Instance Act_ret : MRet Act := λ A a st, (a, st, []).
#[global] Instance Act_bind : MBind Act := λ A B f m st,
  let '(a, st1, e1) := m st in
  let '(b, st2, e2) := f a st1 in
  (b, st2, e1 ++ e2).

Definition get : Act State := λ st, (st, st, []).
Definition emit (e : Effect) : Act unit := λ st, (tt, st, [e]).
Definition modify (f : State → State) : Act unit := λ st, (tt, f st, []).

(** The state and the effects of running a handler. *)
Definition exec_state {A} (m : Act A) (st : State) : State := (m st).1.2.
Definition exec_log {A} (m : Act A) (st : State) : list Effect := (m st).2.

Definition setKeyStatus (v : KeyStatus) : Act unit := modify (λ st,
  {| keyStatus := v; isInitializing := isInitializing st; keyError := keyError st;
     chat := chat st; messages := messages st; inputValue := inputValue st;
     isStreaming := isStreaming st; isMadScientistVoiceOn := isMadScientistVoiceOn st;
     currentModelMessage := currentModelMessage st |}).

Definition setIsInitializing (v : bool) : Act unit := modify (λ st,
  {| keyStatus := keyStatus st; isInitializing := v; keyError := keyError st;
     chat := chat st; messages := messages st; inputValue := inputValue st;
     isStreaming := isStreaming st; isMadScientistVoiceOn := isMadScientistVoiceOn st;
     currentModelMessage := currentModelMessage st |}).

Definition setKeyError (v : option jsstring) : Act unit := modify (λ st,
  {| keyStatus := keyStatus st; isInitializing := isInitializing st; keyError := v;
     chat := chat st; messages := messages st; inputValue := inputValue st;
     isStreaming := isStreaming st; isMadScientistVoiceOn := isMadScientistVoiceOn st;
     currentModelMessage := currentModelMessage st |}).

Definition setChat (v : option Chat) : Act unit := modify (λ st,
  {| keyStatus := keyStatus st; isInitializing := isInitializing st; keyError := keyError st;
     chat := v; messages := messages st; inputValue := inputValue st;
     isStreaming := isStreaming st; isMadScientistVoiceOn := isMadScientistVoiceOn st;
     currentModelMessage := currentModelMessage st |}).

(** [setMessages(prev => f prev)]; [setMessages(v)] is the constant [f]. *)
Definition setMessages (f : list Message → list Message) : Act unit := modify (λ st,
  {| keyStatus := keyStatus st; isInitializing := isInitializing st; keyError := keyError st;
     chat := chat st; messages := f (messages st); inputValue := inputValue st;
     isStreaming := isStreaming st; isMadScientistVoiceOn := isMadScientistVoiceOn st;
     currentModelMessage := currentModelMessage st |}).

Definition setInputValue (v : jsstring) : Act unit := modify (λ st,
  {| keyStatus := keyStatus st; isInitializing := isInitializing st; keyError := keyError st;
     chat := chat st; messages := messages st; inputValue := v;
     isStreaming := isStreaming st; isMadScientistVoiceOn := isMadScientistVoiceOn st;
     currentModelMessage := currentModelMessage st |}).

Definition setIsStreaming (v : bool) : Act unit := modify (λ st,
  {| keyStatus := keyStatus st; isInitializing := isInitializing st; keyError := keyError st;
     chat := chat st; messages := messages st; inputValue := inputValue st;
     isStreaming := v; isMadScientistVoiceOn := isMadScientistVoiceOn st;
     currentModelMessage := currentModelMessage st |}).

(** [setIsMadScientistVoiceOn(prev => f prev)] *)
Definition setIsMadScientistVoiceOn (f : bool → bool) : Act unit := modify (λ st,
  {| keyStatus := keyStatus st; isInitializing := isInitializing st; keyError := keyError st;
     chat := chat st; messages := messages st; inputValue := inputValue st;
     isStreaming := isStreaming st; isMadScientistVoiceOn := f (isMadScientistVoiceOn st);
     currentModelMessage := currentModelMessage st |}).

(** [currentModelMessage.current = v] *)
Definition setCurrentModelMessage (v : jsstring) : Act unit := modify (λ st,
  {| keyStatus := keyStatus st; isInitializing := isInitializing st; keyError := keyError st;
     chat := chat st; messages := messages st; inputValue := inputValue st;
     isStreaming := isStreaming st; isMadScientistVoiceOn := isMadScientistVoiceOn st;
     currentModelMessage := v |}).

(** A string is truthy when it is not empty. *)
Definition truthy (s : jsstring) : bool :=
  match s with [] => false | _ => true end.

(** [a[a.length - 1] = x] on a copy of [a].  On the empty array the index
    is [-1]: the assignment makes a property, not an element, and the
    array stays empty. *)
Definition set_last (x : Message) (a : list Message) : list Message :=
  match a with
  | [] => []
  | _ => <[(length a - 1)%nat := x]> a
  end.

(** ** The component's handlers (variant with key selection and voice mode) *)

Definition msg_initialized : jsstring := Eval cbv in
  lit "AI Coach initialized successfully. Ready to assist with Probability, Statistics, and Mathematical Analysis.".
Definition msg_not_started : jsstring := Eval cbv in
  lit "Sorry, the AI Coach couldn't be started. This might be because an API key isn't configured for this environment.".
Definition err_key_invalid : jsstring := Eval cbv in
  lit "The selected API key is not valid or lacks permissions. Please choose a different key.".
Definition err_unexpected : jsstring := Eval cbv in
  lit "An unexpected error occurred during initialization. Please try selecting your key again.".
Definition err_key_service : jsstring := Eval cbv in
  lit "Could not connect to the API key service. Please reload.".
Definition err_dialog : jsstring := Eval cbv in
  lit "The API key selection dialog could not be opened.".
Definition errorMessage : jsstring := Eval cbv in
  lit "Oops! Something went wrong. Please try again.".
Definition voice_ON : jsstring := Eval cbv in lit "Mad Scientist Voice: ON".
Definition voice_OFF : jsstring := Eval cbv in lit "Mad Scientist Voice: OFF".
(** The line feed of a template literal. *)
Definition LF : jschar := 10%N.

(** What [s += v] appends to a string [s] when [v] is a string or
    [undefined] (here [None]): the string itself, or the nine letters of
    [undefined]. *)
Definition undefined_text : jsstring := Eval cbv in lit "undefined".
Definition ToString (v : option jsstring) : jsstring :=
  match v with
  | Some s => s
  | None => undefined_text
  end.

(** [toggleVoiceMode]; [isMadScientistVoiceOn] in the condition is the
    value of the render, read before the update. *)
Definition toggleVoiceMode (w : Window) : Act unit :=
  st ← get;
  setIsMadScientistVoiceOn negb;;
  if isMadScientistVoiceOn st && speechSynthesis w
  then emit SpeechCancel
  else mret tt.

(** [new SpeechSynthesisUtterance(text)] with the settings [speak] gives it. *)
Definition utterance (t : jsstring) : Utterance :=
  {| text := t; pitch := 1.4; rate := 1.1; volume := 1 |}.

(** [speak] *)
Definition speak (w : Window) (t : jsstring) : Act unit :=
  if speechSynthesis w && truthy t then
    emit SpeechCancel;;
    emit (SpeechSpeak (utterance t))
  else mret tt.

(** [initializeChat].  It contains no [await]: it runs to its end in one
    go.  [created] is how [new GoogleGenAI(...)] and [ai.chats.create(...)]
    end.  [error.message.includes] throws when the thrown value has no
    [message]; the rest of the [catch] block is then skipped and [finally]
    still runs. *)
Definition initializeChat (w : Window) (created : Settled Chat) : Act unit :=
  setIsInitializing true;;
  setKeyError None;;
  match created with
  | Fulfilled newChat =>
      setChat (Some newChat);;
      setMessages (λ _, [{| role := model; content := msg_initialized |}])
  | Rejected e =>
      emit (ConsoleError (lit "Failed to initialize AI Chat:"));;
      setChat None;;
      match aistudio w with
      | Some _ =>
          setKeyStatus needed;;
          match message e with
          | Some m =>
              if includes m (lit "API key not valid") || includes m (lit "permission")
                 || includes m (lit "not found")
              then setKeyError (Some err_key_invalid)
              else setKeyError (Some err_unexpected)
          | None => mret tt
          end
      | None =>
          setMessages (λ _, [{| role := model; content := msg_not_started |}])
      end
  end;;
  setIsInitializing false.

(** [checkKeyManagementService], from the moment the delay and the query
    have settled; the function touches no state before that.  [query] is
    how [window.aistudio.hasSelectedApiKey()] ends, its value taken for
    its truthiness. *)
Definition checkKeyManagementService (w : Window) (query : Settled bool) : Act unit :=
  match aistudio w with
  | Some a =>
      if hasSelectedApiKey_is_function a then
        match query with
        | Fulfilled true => setKeyStatus ready
        | Fulfilled false => setKeyStatus needed
        | Rejected _ =>
            emit (ConsoleError (lit "Error checking aistudio API key:"));;
            setKeyStatus error;;
            setKeyError (Some err_key_service)
        end
      else setKeyStatus ready
  | None => setKeyStatus ready
  end.

(** The effect that starts the session:
    [if (keyStatus === 'ready' && !chat && !isInitializing) initializeChat()]. *)
Definition initializeEffect (w : Window) (created : Settled Chat) : Act unit :=
  st ← get;
  if bool_decide (keyStatus st = ready) && bool_decide (chat st = None)
     && negb (isInitializing st)
  then initializeChat w created
  else mret tt.

(** [handleSelectKey], from the moment [openSelectKey()] has settled; the
    function touches no state before that. *)
Definition handleSelectKey (opened : Settled unit) : Act unit :=
  match opened with
  | Fulfilled _ => setKeyStatus ready
  | Rejected _ =>
      emit (ConsoleError (lit "Could not open API key dialog:"));;
      setKeyError (Some err_dialog);;
      setKeyStatus needed
  end.

(** [handleSendMessage] up to and including the call of
    [chat.sendMessageStream].  The result is [None] when the guard returns
    early, and otherwise the [isMadScientistVoiceOn] the rest of the
    handler closes over.  The three tests of the guard have no effects, so
    the session is tested first here, to have it at hand for the call. *)
Definition sendStart : Act (option bool) :=
  st ← get;
  match chat st with
  | Some c =>
      if negb (truthy (trim (inputValue st))) || isStreaming st then mret None
      else
        let userMessage := {| role := user; content := inputValue st |} in
        setMessages (λ prev, prev ++ [userMessage; {| role := model; content := [] |}]);;
        let voiceCommand := if isMadScientistVoiceOn st then voice_ON else voice_OFF in
        let messageToSend := voiceCommand ++ [LF; LF] ++ inputValue st in
        setInputValue [];;
        setIsStreaming true;;
        setCurrentModelMessage [];;
        emit (SendMessageStream c messageToSend);;
        mret (Some (isMadScientistVoiceOn st))
  | None => mret None
  end.

(** The body of [for await (const chunk of stream)] for one chunk.
    [chunkText] is [chunk.text], which the provider's library declares as
    [string | undefined]: a chunk that carries no text part has none.  The
    loop appends it to the accumulator as it is. *)
Definition onChunk (chunkText : option jsstring) : Act unit :=
  st ← get;
  setCurrentModelMessage (currentModelMessage st ++ ToString chunkText);;
  acc ← get;
  setMessages (λ prev,
    match last prev with
    | Some lastMessage =>
        match role lastMessage with
        | model =>
            set_last {| role := role lastMessage; content := currentModelMessage acc |} prev
        | user => prev
        end
    | None => prev
    end).

Fixpoint forEachChunk (chunks : list (option jsstring)) : Act unit :=
  match chunks with
  | [] => mret tt
  | chunkText :: rest => onChunk chunkText;; forEachChunk rest
  end.

(** The [catch] block. *)
Definition onCatch : Act unit :=
  emit (ConsoleError (lit "Error sending message:"));;
  setCurrentModelMessage errorMessage;;
  setMessages (set_last {| role := model; content := errorMessage |}).

(** What [handleSendMessage] hands to [speak], if anything: the match of
    the accumulated reply, its first group when truthy, trimmed. *)
Definition textToSpeak (current : jsstring) : option jsstring :=
  match str_match current VOICE_OVER_re with
  | Some voiceOverMatch =>
      if truthy (group1 voiceOverMatch) then Some (trim (group1 voiceOverMatch)) else None
  | None => None
  end.

(** The [finally] block; [voiceOn] is the [isMadScientistVoiceOn] the
    handler closed over. *)
Definition onFinally (w : Window) (voiceOn : bool) : Act unit :=
  (if voiceOn then
     st ← get;
     match textToSpeak (currentModelMessage st) with
     | Some t => speak w t
     | None => mret tt
     end
   else mret tt);;
  setIsStreaming false.

(** How the provider answers one [sendMessageStream]: the call throws, or
    the stream yields its chunks and then ends or throws.  A chunk is
    given by its [text]. *)
Inductive StreamEnd := StreamDone | StreamThrows (e : JSError).
Inductive Reply :=
| OpenThrows (e : JSError)
| Streams (chunks : list (option jsstring)) (fin : StreamEnd).

(** The [try] and [catch] blocks for a given answer. *)
Definition receive (r : Reply) : Act unit :=
  match r with
  | OpenThrows _ => onCatch
  | Streams chunks StreamDone => forEachChunk chunks
  | Streams chunks (StreamThrows _) => forEachChunk chunks;; onCatch
  end.

(** [handleSendMessage], run to its end against a given answer. *)
Definition handleSendMessage (w : Window) (r : Reply) : Act unit :=
  started ← sendStart;
  match started with
  | None => mret tt
  | Some voiceOn => receive r;; onFinally w voiceOn
  end.

(** ** Rendering a model message: [ModelMessageContent] *)

(** [content.replace(/VOICE_OVER:\s*( .* )/s, '').trim()] *)
Definition displayContent (content : jsstring) : jsstring :=
  trim (str_replace content VOICE_OVER_re []).

(** [m ? displayContent.indexOf(m[0]) : Infinity] *)
Definition positionOf (d : jsstring) (m : option MatchResult) : JSNum :=
  match m with
  | Some m => Finite (indexOf d (matched m))
  | None => Infinity
  end.

(** What is rendered: the paragraph of explanation and the three optional
    blocks ([m && ... m[1] ...]). *)
Record Rendered := {
  explanationText : jsstring;
  latex : option jsstring;
  mathml : option jsstring;
  description : option jsstring;
}.

(** The part of [ModelMessageContent] that works on the display text. *)
Definition renderSections (d : jsstring) : Rendered :=
  let latexMatch := str_match d LaTeX_re in
  let mathmlMatch := str_match d MathML_re in
  let descMatch := str_match d Plain_re in
  let firstFormulaIndex :=
    Math_min (positionOf d latexMatch) (positionOf d mathmlMatch) (positionOf d descMatch) in
  {| explanationText :=
       match firstFormulaIndex with
       | Infinity => d
       | Finite i => trim (substring d 0 i)
       end;
     latex := group1 <$> latexMatch;
     mathml := group1 <$> mathmlMatch;
     description := group1 <$> descMatch |}.

Definition ModelMessageContent (content : jsstring) : Rendered :=
  renderSections (displayContent content).

(** ** What is rendered ([renderContent] and what it calls) *)

(** The inside of a message bubble: the text of a user turn, or the
    sections of a model turn. *)
Inductive BubbleBody :=
| RawText (t : jsstring)
| Sections (r : Rendered).

(** One bubble of the transcript; [cursor] is the pulsing block shown
    while the reply streams. *)
Record Bubble := {
  who : Role;
  body : BubbleBody;
  cursor : bool;
}.

(** The callback of [messages.map((msg, index) => ...)]. *)
Definition renderMessage (st : State) (i : nat) (msg : Message) : Bubble :=
  {| who := role msg;
     body := match role msg with
             | model => Sections (ModelMessageContent (content msg))
             | user => RawText (content msg)
             end;
     cursor := isStreaming st && bool_decide (role msg = model)
               && bool_decide (Z.of_nat i = Z.of_nat (length (messages st)) - 1) |}.

Inductive ChatPane :=
| Connecting
| Bubbles (bs : list Bubble).

Record Form := {
  placeholder : jsstring;
  inputDisabled : bool;
  sendDisabled : bool;
}.

Inductive View :=
| CheckingView
| ActionRequiredView (shownError : option jsstring)
| ChatView (pane : ChatPane) (form : Form)
| ErrorView (shown : jsstring).

(** [renderActionRequired]: [keyError && <p>...</p>]. *)
Definition renderActionRequired (st : State) : View :=
  ActionRequiredView
    match keyError st with
    | Some e => if truthy e then Some e else None
    | None => None
    end.

(** [renderChatInterface] *)
Definition renderChatInterface (st : State) : View :=
  let has_chat := bool_decide (is_Some (chat st)) in
  ChatView
    (if isInitializing st then Connecting
     else Bubbles (imap (renderMessage st) (messages st)))
    {| placeholder := if has_chat && negb (isInitializing st)
                      then lit "Ask a probability question..."
                      else lit "AI is not available";
       inputDisabled := negb has_chat || isStreaming st || isInitializing st;
       sendDisabled := negb has_chat || isStreaming st
                       || negb (truthy (trim (inputValue st))) || isInitializing st |}.

(** [renderContent]: [keyError || 'An unknown error occurred.'] in the
    last case. *)
Definition renderContent (st : State) : View :=
  match keyStatus st with
  | checking => CheckingView
  | needed => renderActionRequired st
  | ready => renderChatInterface st
  | error =>
      ErrorView
        match keyError st with
        | Some e => if truthy e then e else lit "An unknown error occurred."
        | None => lit "An unknown error occurred."
        end
  end.

(** ** The component as a transition system

    The handlers above are atomic between two [await]s.  A [System] is the
    component state together with what is in flight: the key check of the
    first render, the calls of [handleSelectKey] that wait for the dialog,
    and the [handleSendMessage] that waits for its stream (with the voice
    flag it closed over).  Every handler may be invoked at any time; what
    the rendered view disables only removes behaviours. *)

Record System := {
  comp : State;
  log : list Effect;
  keyCheckPending : bool;
  selectKeyPending : nat;
  sending : option bool;
}.

Definition initialSystem : System := {|
  comp := initialState;
  log := [];
  keyCheckPending := true;
  selectKeyPending := 0;
  sending := None;
|}.

(** What can happen next.  [EffectRuns] is the effect that starts the
    session, run after a render; [StreamThrew] is [sendMessageStream] or
    the stream throwing; [ChunkArrives] carries the [text] of the chunk. *)
Inductive Event :=
| KeyCheckSettles (query : Settled bool)
| EffectRuns (created : Settled Chat)
| SelectKeyClicked
| SelectKeySettles (opened : Settled unit)
| VoiceToggled
| InputChanged (v : jsstring)
| FormSubmitted
| ChunkArrives (chunkText : option jsstring)
| StreamThrew
| StreamEnded.

(** Run a handler on the component state of a system. *)
Definition perform {A} (m : Act A) (sys : System) : A * System :=
  let '(a, st, es) := m (comp sys) in
  (a, {| comp := st; log := log sys ++ es;
         keyCheckPending := keyCheckPending sys;
         selectKeyPending := selectKeyPending sys;
         sending := sending sys |}).

Definition with_keyCheckPending (b : bool) (sys : System) : System :=
  {| comp := comp sys; log := log sys; keyCheckPending := b;
     selectKeyPending := selectKeyPending sys; sending := sending sys |}.
Definition with_selectKeyPending (n : nat) (sys : System) : System :=
  {| comp := comp sys; log := log sys; keyCheckPending := keyCheckPending sys;
     selectKeyPending := n; sending := sending sys |}.
Definition with_sending (s : option bool) (sys : System) : System :=
  {| comp := comp sys; log := log sys; keyCheckPending := keyCheckPending sys;
     selectKeyPending := selectKeyPending sys; sending := s |}.

(** One event; [None] when nothing is in flight for it to settle. *)
Definition step (w : Window) (sys : System) (ev : Event) : option System :=
  match ev with
  | KeyCheckSettles query =>
      if keyCheckPending sys
      then Some (with_keyCheckPending false (perform (checkKeyManagementService w query) sys).2)
      else None
  | EffectRuns created => Some (perform (initializeEffect w created) sys).2
  | SelectKeyClicked => Some (with_selectKeyPending (S (selectKeyPending sys)) sys)
  | SelectKeySettles opened =>
      match selectKeyPending sys with
      | S n => Some (with_selectKeyPending n (perform (handleSelectKey opened) sys).2)
      | O => None
      end
  | VoiceToggled => Some (perform (toggleVoiceMode w) sys).2
  | InputChanged v => Some (perform (setInputValue v) sys).2
  | FormSubmitted =>
      let '(started, sys') := perform sendStart sys in
      match started with
      | Some voiceOn => Some (with_sending (Some voiceOn) sys')
      | None => Some sys'
      end
  | ChunkArrives chunkText =>
      match sending sys with
      | Some _ => Some (perform (onChunk chunkText) sys).2
      | None => None
      end
  | StreamThrew =>
      match sending sys with
      | Some voiceOn => Some (with_sending None (perform (onCatch;; onFinally w voiceOn) sys).2)
      | None => None
      end
  | StreamEnded =>
      match sending sys with
      | Some voiceOn => Some (with_sending None (perform (onFinally w voiceOn) sys).2)
      | None => None
      end
  end.

Fixpoint run (w : Window) (sys : System) (evs : list Event) : option System :=
  match evs with
  | [] => Some sys
  | ev :: rest =>
      match step w sys ev with
      | Some sys' => run w sys' rest
      | None => None
      end
  end.

(** The speech engine, as far as the component relies on it: [cancel]
    stops the utterance in progress, [speak] starts one. *)
Definition speechAfter (speaking : option Utterance) (e : Effect) : option Utterance :=
  match e with
  | SpeechCancel => None
  | SpeechSpeak u => Some u
  | _ => speaking
  end.

(** ** The simpler variant ([components/games/AiCoach.tsx]) *)

Module Simple.

Record State := {
  chat : option Chat;
  messages : list Message;
  inputValue : jsstring;
  isLoading : bool;
}.

(** [handleSendMessage] up to and including the call of
    [chat.sendMessageStream]: the new state, and the message sent if the
    guard lets the submission through. *)
Definition sendStart (st : State) : State * option (Chat * jsstring) :=
  match chat st with
  | Some c =>
      if negb (truthy (trim (inputValue st))) || isLoading st then (st, None)
      else
        let userMessageContent := inputValue st in
        let userMessage := {| role := user; content := userMessageContent |} in
        ({| chat := chat st;
            messages := messages st ++ [userMessage; {| role := model; content := [] |}];
            inputValue := [];
            isLoading := true |},
         Some (c, userMessageContent))
  | None => (st, None)
  end.

(** The state of the first render. *)
Definition initialState : State :=
  {| chat := None; messages := []; inputValue := []; isLoading := true |}.

Definition msg_unavailable : jsstring := Eval cbv in
  lit "The AI Coach is currently unavailable. " ++ [LF; LF]
  ++ lit "It seems the API Key is not configured in the deployment environment. Please ensure the `API_KEY` environment variable is set correctly in your Vercel project settings.".
Definition msg_hi : jsstring := Eval cbv in
  lit "Hi! I'm Pro-Bot. Ask me anything about probability!".
Definition msg_trouble : jsstring := Eval cbv in
  lit "Sorry, I'm having trouble connecting right now. Please try again later.".

(** The effect of the first render.  [apiKey] is [process.env.API_KEY]
    (absent when undefined); [created] is how [new GoogleGenAI(...)] and
    [ai.chats.create(...)] end. *)
Definition initEffect (apiKey : option jsstring) (created : Settled Chat) (st : State) : State :=
  if negb (from_option truthy false apiKey) then
    {| chat := chat st;
       messages := [{| role := model; content := msg_unavailable |}];
       inputValue := inputValue st;
       isLoading := false |}
  else
    match created with
    | Fulfilled newChat =>
        {| chat := Some newChat;
           messages := [{| role := model; content := msg_hi |}];
           inputValue := inputValue st;
           isLoading := false |}
    | Rejected _ =>
        {| chat := chat st;
           messages := [{| role := model; content := msg_trouble |}];
           inputValue := inputValue st;
           isLoading := false |}
    end.

(** The message objects.  An array of the state holds references to its
    objects, and the updaters of the stream loop and of the [catch] block
    assign to an object that the previous array holds too.  [Heap] is the
    store of the objects; a reference is a position in it. *)
Abbreviation Heap := (list Message) (only parsing).

(** An updater: from the previous array and the store to the new array
    and the store it leaves, or [None] when it throws. *)
Definition Updater := list nat → Heap → option (list nat * Heap).

(** [prev => { const newMessages = [...prev];
               const lastMessage = newMessages[newMessages.length - 1];
               lastMessage.content = f(lastMessage.content);
               return newMessages; }]
    The copy holds the references of [prev], and the assignment changes
    the object in the store.  On the empty array [lastMessage] is
    [undefined] and the assignment throws.  (A reference of an array
    always has its object: the inner [None] is not reached from
    [setMessages].) *)
Definition update_last_content (f : jsstring → jsstring) : Updater := λ prev heap,
  let newMessages := prev in
  match last newMessages with
  | Some lastMessage =>
      match heap !! lastMessage with
      | Some o =>
          Some (newMessages,
                <[lastMessage := {| role := role o; content := f (content o) |}]> heap)
      | None => None
      end
  | None => None
  end.

(** React calls an updater with the previous array when it computes the
    next state, and it may call it again with the same array: it does so
    where it checks updaters for purity (in development, under
    [StrictMode]).  [again] is the number of these repeated calls; the
    array of the last call becomes the state.  The updater of [sendStart]
    assigns to no object and puts fresh objects in its array, so calling
    it again changes nothing; it is written on the values above.  How
    often an updater is called again may differ from one [setMessages] to
    the next: the handler below takes the number for each of its
    [setMessages] after the first, counted from 0. *)
Fixpoint invoke (again : nat) (u : Updater) (prev : list nat) (heap : Heap)
  : option (list nat * Heap) :=
  match again with
  | O => u prev heap
  | S k =>
      match u prev heap with
      | Some (_, heap') => invoke k u prev heap'
      | None => None
      end
  end.

(** [setMessages(u)].  The objects of the state's array are the store,
    one per position; the new state shows the objects of the new array as
    the store then has them. *)
Definition setMessages (again : nat) (u : Updater) (st : State) : option State :=
  match invoke again u (seq 0 (length (messages st))) (messages st) with
  | Some (newMessages, heap) =>
      Some {| chat := chat st; messages := omap (λ r, heap !! r) newMessages;
              inputValue := inputValue st; isLoading := isLoading st |}
  | None => None
  end.

(** The body of [for await (const chunk of stream)] for one chunk:
    [lastMessage.content += chunkText], with [chunkText] the [chunk.text]
    of the chunk, a string or [undefined]. *)
Definition onChunk (again : nat) (chunkText : option jsstring) (st : State) : option State :=
  setMessages again (update_last_content (λ c, c ++ ToString chunkText)) st.

Fixpoint forEachChunk (again : nat → nat) (k : nat) (chunks : list (option jsstring))
    (st : State) : option State :=
  match chunks with
  | [] => Some st
  | chunkText :: rest =>
      match onChunk (again k) chunkText st with
      | Some st' => forEachChunk again (S k) rest st'
      | None => None
      end
  end.

(** The [catch] block. *)
Definition onCatch (again : nat) (st : State) : option State :=
  setMessages again (update_last_content (λ _, errorMessage)) st.

(** The [finally] block. *)
Definition onFinally (st : State) : State :=
  {| chat := chat st; messages := messages st;
     inputValue := inputValue st; isLoading := false |}.

(** The [try] and [catch] blocks for a given answer. *)
Definition receive (again : nat → nat) (r : Reply) (st : State) : option State :=
  match r with
  | OpenThrows _ => onCatch (again 0%nat) st
  | Streams chunks StreamDone => forEachChunk again 0 chunks st
  | Streams chunks (StreamThrows _) =>
      match forEachChunk again 0 chunks st with
      | Some st' => onCatch (again (length chunks)) st'
      | None => None
      end
  end.

(** [handleSendMessage], run to its end against a given answer: the final
    state and what was sent, or [None] when an updater throws. *)
Definition handleSendMessage (again : nat → nat) (r : Reply) (st : State)
  : option (State * option (Chat * jsstring)) :=
  match sendStart st with
  | (st', None) => Some (st', None)
  | (st', Some sent) =>
      match receive again r st' with
      | Some st'' => Some (onFinally st'', Some sent)
      | None => None
      end
  end.

(** [disabled] of the input and of the Send button. *)
Definition inputDisabled (st : State) : bool :=
  negb (bool_decide (is_Some (chat st))) || isLoading st.
Definition sendDisabled (st : State) : bool :=
  negb (bool_decide (is_Some (chat st))) || isLoading st
  || negb (truthy (trim (inputValue st))).

End Simple.

(** ** Notions the statements below are phrased in *)

(** [needle] starts at no position of [s]. *)
Definition absent (needle s : jsstring) : Prop :=
  ∀ j, startsWith needle (drop j s) = false.

(** The strings a regular expression matches in full. *)
Fixpoint matches (r : regex) (w : jsstring) : Prop :=
  match r with
  | rLit l => w = l
  | rStar _ cls => forallb cls w = true
  | rGroup r1 => matches r1 w
  | rCat r1 r2 => ∃ w1 w2, w = w1 ++ w2 ∧ matches r1 w1 ∧ matches r2 w2
  end.

(** The shape of [VOICE_OVER_re] and [Plain_re]: a label, white space, and
    the rest of the text as the group. *)
Definition labelled_rest (label : jsstring) : regex :=
  rCat (rLit label) (rCat (rStar true isWhiteSpace) (rGroup (rStar true dotAll))).

(** When the guard of [handleSendMessage] lets a submission through. *)
Definition accepted (st : State) : Prop :=
  truthy (trim (inputValue st)) = true ∧ is_Some (chat st) ∧ isStreaming st = false.

(** The state [handleSendMessage] leaves when its stream is opened. *)
Definition started (st : State) : State :=
  {| keyStatus := keyStatus st; isInitializing := isInitializing st;
     keyError := keyError st; chat := chat st;
     messages := messages st ++ [{| role := user; content := inputValue st |};
                                 {| role := model; content := [] |}];
     inputValue := []; isStreaming := true;
     isMadScientistVoiceOn := isMadScientistVoiceOn st;
     currentModelMessage := [] |}.

(** The text [handleSendMessage] sends to the session. *)
Definition messageToSend (st : State) : jsstring :=
  (if isMadScientistVoiceOn st then voice_ON else voice_OFF) ++ [LF; LF] ++ inputValue st.

(** A state in which the transcript ends with the model turn that shows
    the accumulator. *)
Definition streaming_into (base : list Message) (st : State) : Prop :=
  messages st = base ++ [{| role := model; content := currentModelMessage st |}].

(** What a sequence of chunks adds to the accumulator. *)
Definition accumulated (chunks : list (option jsstring)) : jsstring :=
  concat (ToString <$> chunks).

(** The texts that a sequence of chunks carries, one after the other. *)
Definition streamedText (chunks : list (option jsstring)) : jsstring :=
  concat (omap id chunks).

(** The state after the chunks [chunks] have been delivered. *)
Definition delivered (base : list Message) (chunks : list (option jsstring)) (st : State)
  : State :=
  {| keyStatus := keyStatus st; isInitializing := isInitializing st;
     keyError := keyError st; chat := chat st;
     messages := base ++ [{| role := model;
                             content := currentModelMessage st ++ accumulated chunks |}];
     inputValue := inputValue st; isStreaming := isStreaming st;
     isMadScientistVoiceOn := isMadScientistVoiceOn st;
     currentModelMessage := currentModelMessage st ++ accumulated chunks |}.

(** A sequence of chunks in which the chunk at position [k + i] comes
    once and then [again (k + i)] times more. *)
Fixpoint reinvoked (again : nat → nat) (k : nat) (chunks : list (option jsstring))
  : list (option jsstring) :=
  match chunks with
  | [] => []
  | chunkText :: rest => replicate (S (again k)) chunkText ++ reinvoked again (S k) rest
  end.

(** An answer of the provider with its chunks repeated in this way. *)
Definition replyReinvoked (again : nat → nat) (r : Reply) : Reply :=
  match r with
  | OpenThrows e => OpenThrows e
  | Streams chunks fin => Streams (reinvoked again 0 chunks) fin
  end.

(** Whether an answer of the provider ends in an exception. *)
Definition fails (r : Reply) : bool :=
  match r with
  | OpenThrows _ => true
  | Streams _ (StreamThrows _) => true
  | Streams _ StreamDone => false
  end.

(** What the model turn shows once the handler has run against [r]. *)
Definition replyShown (r : Reply) : jsstring :=
  match r with
  | Streams chunks StreamDone => accumulated chunks
  | _ => errorMessage
  end.

(** What the [finally] block makes the speech engine do. *)
Definition narration (w : Window) (voiceOn : bool) (current : jsstring) : list Effect :=
  if voiceOn then
    match textToSpeak current with
    | Some t =>
        if speechSynthesis w && truthy t then [SpeechCancel; SpeechSpeak (utterance t)] else []
    | None => []
    end
  else [].

(** Whether the host offers the key service the startup check queries:
    [window.aistudio && typeof window.aistudio.hasSelectedApiKey === 'function']. *)
Definition hasKeyService (w : Window) : bool :=
  match aistudio w with
  | Some a => hasSelectedApiKey_is_function a
  | None => false
  end.

(** The shape of [LaTeX_re] and [MathML_re]: a label, white space, and as
    the group the shortest block from [open] to [close]. *)
Definition labelled_block (label open close : jsstring) : regex :=
  rCat (rLit label)
    (rCat (rStar true isWhiteSpace)
       (rGroup (rCat (rLit open) (rCat (rStar false dotAll) (rLit close))))).

(** A text that holds a well-formed block for [label]: the label, white
    space, and a text from [open] to [close]. *)
Definition holds_block (label open close d : jsstring) : Prop :=
  ∃ pre ws inner post,
    d = pre ++ label ++ ws ++ open ++ inner ++ close ++ post
    ∧ forallb isWhiteSpace ws = true.

(** Where the section that [r] describes starts in the display text. *)
Definition sectionStart (d : jsstring) (r : regex) : option nat :=
  index <$> str_match d r.

(** The smaller of two optional positions. *)
Definition earlier (a b : option nat) : option nat :=
  match a, b with
  | Some x, Some y => Some (Nat.min x y)
  | Some x, None => Some x
  | None, _ => b
  end.


(** The states the component reaches from its first render. *)
Definition reachable (w : Window) (sys : System) : Prop :=
  ∃ evs, run w initialSystem evs = Some sys.

(** The texts of the user turns of a transcript, in order. *)
Definition userContents (ms : list Message) : list jsstring :=
  content <$> filter (λ m, role m = user) ms.

(** What holds of the transcript and of what is in flight in every
    reachable state. *)
Definition in_flight_inv (sys : System) : Prop :=
  isStreaming (comp sys) = bool_decide (is_Some (sending sys))
  ∧ isInitializing (comp sys) = false
  ∧ (chat (comp sys) = None →
       sending sys = None ∧ Forall (λ m, role m = model) (messages (comp sys)))
  ∧ (is_Some (chat (comp sys)) →
       (∃ rest, messages (comp sys) = {| role := model; content := msg_initialized |} :: rest)
       ∧ ∃ base m, messages (comp sys) = base ++ [m] ∧ role m = model)
  ∧ (is_Some (sending sys) →
       ∃ base u, messages (comp sys)
                 = base ++ [{| role := user; content := u |};
                            {| role := model; content := currentModelMessage (comp sys) |}]).

(** Two states that differ at most in the key status, the key error, the
    input and the voice flag. *)
Definition same_transcript (st st' : State) : Prop :=
  chat st' = chat st ∧ messages st' = messages st
  ∧ isStreaming st' = isStreaming st ∧ isInitializing st' = isInitializing st
  ∧ currentModelMessage st' = currentModelMessage st.

(** Whether an effect is a call of the speech engine. *)
Definition isSpeech (e : Effect) : bool :=
  match e with
  | SpeechCancel | SpeechSpeak _ => true
  | _ => false
  end.

(** The key status [error] comes with the message of the key check. *)
Definition error_inv (st : State) : Prop :=
  keyStatus st = error → keyError st = Some err_key_service.

(** The number of dollar signs of a text. *)
Definition dollars (s : jsstring) : nat := length (filter (λ c, c = 36%N) s).

(** * Properties *)

(** ** Strings *)

Lemma startsWith_app (p t : jsstring) : startsWith p (p ++ t) = true.
Proof. induction p as [|a p IH]; simpl; [done|]. by rewrite N.eqb_refl. Qed.

Lemma startsWith_inv (p s : jsstring) :
  startsWith p s = true → ∃ t, s = p ++ t.
Proof.
  revert s. induction p as [|a p IH]; intros s H; simpl in *.
  - by exists s.
  - destruct s as [|b s]; [done|].
    apply andb_true_iff in H as [Hab Hp]. apply N.eqb_eq in Hab as ->.
    destruct (IH _ Hp) as [t ->]. by exists t.
Qed.

Lemma stripPrefix_app (p t : jsstring) : stripPrefix p (p ++ t) = Some t.
Proof. induction p as [|a p IH]; simpl; [done|]. by rewrite N.eqb_refl. Qed.

Lemma stripPrefix_inv (p s s' : jsstring) :
  stripPrefix p s = Some s' → s = p ++ s'.
Proof.
  revert s. induction p as [|a p IH]; intros s H; simpl in *.
  - congruence.
  - destruct s as [|b s]; [done|].
    destruct (N.eqb_spec a b) as [->|]; [|done]. f_equal. by apply IH.
Qed.

Lemma stripPrefix_None (p s : jsstring) :
  startsWith p s = false → stripPrefix p s = None.
Proof.
  intros H. destruct (stripPrefix p s) as [s'|] eqn:E; [|done].
  apply stripPrefix_inv in E as ->. by rewrite startsWith_app in H.
Qed.

(** [indexOf] finds the first position at which the needle starts. *)
Lemma indexOf_from_first (i : Z) (s needle : jsstring) (k : nat) :
  startsWith needle (drop k s) = true →
  (∀ j, (j < k)%nat → startsWith needle (drop j s) = false) →
  indexOf_from i s needle = i + Z.of_nat k.
Proof.
  revert i s. induction k as [|k IH]; intros i s Hk Hlt.
  - rewrite drop_0 in Hk. destruct s; simpl in *; rewrite Hk; lia.
  - specialize (Hlt 0%nat ltac:(lia)) as H0. rewrite drop_0 in H0.
    destruct s as [|c s].
    + simpl in *. congruence.
    + simpl indexOf_from. simpl in H0. rewrite H0.
      rewrite (IH (i + 1) s); [lia|done|].
      intros j Hj. apply (Hlt (S j)). lia.
Qed.

Lemma indexOf_from_found (i : Z) (s needle : jsstring) :
  0 ≤ i → indexOf_from i s needle ≠ -1 →
  ∃ k : nat, indexOf_from i s needle = i + Z.of_nat k ∧ (k ≤ length s)%nat
    ∧ startsWith needle (drop k s) = true
    ∧ ∀ j, (j < k)%nat → startsWith needle (drop j s) = false.
Proof.
  revert i. induction s as [|c s IH]; intros i Hi H.
  - simpl in H. destruct (startsWith needle []) eqn:E; [|done].
    exists 0%nat. simpl. rewrite E. repeat split; [lia|lia|]. intros; lia.
  - simpl indexOf_from in *. destruct (startsWith needle (c :: s)) eqn:E.
    + exists 0%nat. repeat split; [lia|simpl; lia|done|]. intros; lia.
    + destruct (IH (i + 1) ltac:(lia) H) as (k & Hk & Hlen & Hs & Hlt).
      exists (S k). repeat split; [lia|simpl; lia|done|].
      intros [|j] Hj; [done|]. apply Hlt. lia.
Qed.

Lemma indexOf_from_lower (i : Z) (s needle : jsstring) :
  indexOf_from i s needle = -1 ∨ i ≤ indexOf_from i s needle.
Proof.
  revert i. induction s as [|c s IH]; intros i; simpl.
  - destruct (startsWith needle []); [right; lia|by left].
  - destruct (startsWith needle (c :: s)); [right; lia|].
    destruct (IH (i + 1)); [by left|right; lia].
Qed.

Lemma indexOf_from_absent_inv (i : Z) (s needle : jsstring) :
  0 ≤ i → indexOf_from i s needle = -1 →
  ∀ j, startsWith needle (drop j s) = false.
Proof.
  revert i. induction s as [|c s IH]; intros i Hi H j.
  - rewrite drop_nil. simpl in H. destruct (startsWith needle []); [lia|done].
  - simpl in H. destruct (startsWith needle (c :: s)) eqn:E; [lia|].
    destruct j as [|j]; [by rewrite drop_0|].
    apply (IH (i + 1)); [lia|done].
Qed.

(** A needle that [indexOf] does not find starts nowhere. *)
Lemma indexOf_absent_inv (s needle : jsstring) :
  indexOf s needle = -1 → ∀ j, startsWith needle (drop j s) = false.
Proof. apply indexOf_from_absent_inv. lia. Qed.

Lemma includes_false_inv (s needle : jsstring) :
  includes s needle = false → ∀ j, startsWith needle (drop j s) = false.
Proof.
  unfold includes. intros H. apply indexOf_absent_inv.
  apply Z.leb_gt in H. unfold indexOf in *.
  destruct (indexOf_from_lower 0 s needle); lia.
Qed.

Lemma indexOf_first_inv (s needle : jsstring) (k : nat) :
  indexOf s needle = Z.of_nat k →
  startsWith needle (drop k s) = true
  ∧ ∀ j, (j < k)%nat → startsWith needle (drop j s) = false.
Proof.
  unfold indexOf. intros H.
  destruct (indexOf_from_found 0 s needle) as (k' & Hk' & _ & Hs & Hlt); [lia|lia|].
  assert (k' = k) as -> by lia. done.
Qed.

Lemma absent_infix (needle a t b : jsstring) :
  absent needle (a ++ t ++ b) → absent needle t.
Proof.
  intros H j. destruct (startsWith needle (drop j t)) eqn:E; [exfalso|done].
  apply startsWith_inv in E as [r Hr].
  destruct (decide (j ≤ length t)%nat) as [Hj|Hj].
  - specialize (H (length a + j)%nat).
    rewrite drop_app_add in H. rewrite drop_app_le in H by done.
    rewrite Hr, <- app_assoc, startsWith_app in H. done.
  - rewrite drop_ge in Hr by lia.
    destruct needle; [|done]. specialize (H 0%nat). by destruct (drop 0 _).
Qed.

Lemma trimStart_ws (ws s : jsstring) :
  forallb isWhiteSpace ws = true → trimStart (ws ++ s) = trimStart s.
Proof.
  induction ws as [|c ws IH]; simpl; [done|].
  intros [Hc Hws]%andb_true_iff. rewrite Hc. by apply IH.
Qed.

Lemma trimStart_suffix (s : jsstring) :
  ∃ ws, s = ws ++ trimStart s ∧ forallb isWhiteSpace ws = true.
Proof.
  induction s as [|c s (ws & Hs & Hws)]; simpl.
  - by exists [].
  - destruct (isWhiteSpace c) eqn:E.
    + exists (c :: ws). simpl. rewrite E, Hws. split; [by f_equal|done].
    + by exists [].
Qed.

Lemma trimStart_head (s : jsstring) :
  trimStart s = [] ∨ ∃ c t, trimStart s = c :: t ∧ isWhiteSpace c = false.
Proof.
  induction s as [|c s IH]; simpl; [by left|].
  destruct (isWhiteSpace c) eqn:E; [done|]. right. by exists c, s.
Qed.

Lemma trimStart_fixed (c : jschar) (t : jsstring) :
  isWhiteSpace c = false → trimStart (c :: t) = c :: t.
Proof. intros H. simpl. by rewrite H. Qed.

Lemma trimStart_idem (s : jsstring) : trimStart (trimStart s) = trimStart s.
Proof.
  destruct (trimStart_head s) as [->|(c & t & -> & H)]; [done|].
  by apply trimStart_fixed.
Qed.

Lemma trimEnd_prefix (s : jsstring) :
  ∃ ws, s = trimEnd s ++ ws ∧ forallb isWhiteSpace ws = true.
Proof.
  unfold trimEnd. destruct (trimStart_suffix (reverse s)) as (ws & Hs & Hws).
  exists (reverse ws). split.
  - rewrite <- reverse_app, <- Hs. by rewrite reverse_involutive.
  - rewrite forallb_forall in *. intros x Hx. apply Hws.
    apply list_elem_of_In, elem_of_reverse. by apply list_elem_of_In.
Qed.

Lemma trimEnd_idem (s : jsstring) : trimEnd (trimEnd s) = trimEnd s.
Proof. unfold trimEnd. by rewrite reverse_involutive, trimStart_idem. Qed.

(** A string that starts with a character other than white space keeps it
    when it is trimmed at its end. *)
Lemma trimEnd_keeps_head (c : jschar) (t : jsstring) :
  isWhiteSpace c = false → ∃ t', trimEnd (c :: t) = c :: t'.
Proof.
  intros Hc. destruct (trimEnd_prefix (c :: t)) as (ws & Hs & Hws).
  destruct (trimEnd (c :: t)) as [|d t'] eqn:E.
  - simpl in Hs. subst ws. simpl in Hws. by rewrite Hc in Hws.
  - simpl in Hs. injection Hs as -> _. by exists t'.
Qed.

Lemma trim_infix (s : jsstring) : ∃ a b, s = a ++ trim s ++ b.
Proof.
  unfold trim. destruct (trimStart_suffix s) as (a & Ha & _).
  destruct (trimEnd_prefix (trimStart s)) as (b & Hb & _).
  exists a, b. by rewrite <- Hb.
Qed.

Lemma trim_idem (s : jsstring) : trim (trim s) = trim s.
Proof.
  unfold trim at 2 3.
  destruct (trimStart_head s) as [->|(c & t & -> & Hc)]; [done|].
  destruct (trimEnd_keeps_head c t Hc) as [t' Ht'].
  unfold trim. rewrite Ht', (trimStart_fixed c t' Hc), <- Ht'. apply trimEnd_idem.
Qed.

Lemma trim_ws (ws s : jsstring) :
  forallb isWhiteSpace ws = true → trim (ws ++ s) = trim s.
Proof. intros H. unfold trim. by rewrite trimStart_ws. Qed.

Lemma trim_all_ws (ws : jsstring) :
  forallb isWhiteSpace ws = true → trim ws = [].
Proof.
  intros H. rewrite <- (app_nil_r ws). by rewrite trim_ws.
Qed.

(** What starts with a character other than white space does not trim to
    the empty string. *)
Lemma trim_truthy (c : jschar) (t : jsstring) :
  isWhiteSpace c = false → truthy (trim (c :: t)) = true.
Proof.
  intros Hc. unfold trim. rewrite (trimStart_fixed c t Hc).
  by destruct (trimEnd_keeps_head c t Hc) as [t' ->].
Qed.

Lemma forallb_reverse (f : jschar → bool) (l : jsstring) :
  forallb f l = true → forallb f (reverse l) = true.
Proof.
  rewrite !forallb_forall. intros H x Hx. apply H.
  apply list_elem_of_In. apply list_elem_of_In in Hx. by apply elem_of_reverse.
Qed.

Lemma trimEnd_ws (s ws : jsstring) :
  forallb isWhiteSpace ws = true → trimEnd (s ++ ws) = trimEnd s.
Proof.
  intros H. unfold trimEnd. rewrite reverse_app.
  by rewrite trimStart_ws by (by apply forallb_reverse).
Qed.

Lemma trim_ws_end (s ws : jsstring) :
  forallb isWhiteSpace ws = true → trim (s ++ ws) = trim s.
Proof.
  intros H. unfold trim.
  destruct (trimStart_suffix s) as (a & Hs & Ha).
  destruct (trimStart_head s) as [E|(x & t & E & Hx)].
  - rewrite E in *. rewrite app_nil_r in Hs. subst a.
    rewrite <- (app_nil_r (s ++ ws)), trimStart_ws; [done|].
    rewrite forallb_app. by rewrite Ha, H.
  - rewrite E in *. rewrite Hs at 1. rewrite <- app_assoc, trimStart_ws by done.
    cbn [app]. rewrite (trimStart_fixed x _ Hx).
    change (x :: t ++ ws) with ((x :: t) ++ ws). by apply trimEnd_ws.
Qed.

Lemma absent_trim (needle s : jsstring) : absent needle s → absent needle (trim s).
Proof.
  destruct (trim_infix s) as (a & b & Hs). rewrite Hs at 1. apply absent_infix.
Qed.

(** ** Regular expressions: what the backtracking search finds *)

Lemma consumed_app (w s' : jsstring) : consumed (w ++ s') s' = w.
Proof.
  unfold consumed. rewrite length_app.
  replace (length w + length s' - length s')%nat with (length w) by lia.
  by rewrite take_app_length.
Qed.

Section StarLemmas.
Context {R : Type}.
Implicit Types (k : jsstring → option R) (cls : jschar → bool).

Lemma star_greedy_here cls s k : is_Some (k s) → is_Some (star_greedy cls s k).
Proof.
  intros H. destruct s as [|c t]; simpl; [done|].
  destruct (cls c); [|done]. by destruct (star_greedy cls t k).
Qed.

Lemma star_greedy_complete cls w s' k :
  forallb cls w = true → is_Some (k s') → is_Some (star_greedy cls (w ++ s') k).
Proof.
  intros Hw Hk. induction w as [|c w IH]; simpl.
  - by apply star_greedy_here.
  - simpl in Hw. apply andb_true_iff in Hw as [-> Hw].
    destruct (IH Hw) as [r ->]. done.
Qed.

Lemma star_greedy_sound cls s k r :
  star_greedy cls s k = Some r →
  ∃ w s', s = w ++ s' ∧ forallb cls w = true ∧ k s' = Some r.
Proof.
  induction s as [|c t IH]; simpl; intros H.
  - by exists [], [].
  - destruct (cls c) eqn:Hc; [|by exists [], (c :: t)].
    destruct (star_greedy cls t k) as [r'|] eqn:E; [|by exists [], (c :: t)].
    destruct (IH H) as (w & s' & -> & Hw & Hk).
    exists (c :: w), s'. simpl. by rewrite Hc, Hw.
Qed.

(** The greedy star stops at the longest run when the continuation accepts
    what follows it. *)
Lemma star_greedy_longest cls w s' k r :
  forallb cls w = true → k s' = Some r →
  (∀ c t, s' = c :: t → cls c = false) →
  star_greedy cls (w ++ s') k = Some r.
Proof.
  intros Hw Hk Hs'. induction w as [|c w IH]; simpl.
  - destruct s' as [|c t]; simpl; [done|]. by rewrite (Hs' c t).
  - simpl in Hw. apply andb_true_iff in Hw as [-> Hw]. by rewrite IH.
Qed.

Lemma star_lazy_here cls s k : is_Some (k s) → is_Some (star_lazy cls s k).
Proof. intros [r Hr]. destruct s; simpl; by rewrite Hr. Qed.

Lemma star_lazy_complete cls w s' k :
  forallb cls w = true → is_Some (k s') → is_Some (star_lazy cls (w ++ s') k).
Proof.
  intros Hw Hk. induction w as [|c w IH].
  - by apply star_lazy_here.
  - simpl in Hw. apply andb_true_iff in Hw as [Hc Hw].
    simpl. destruct (k (c :: w ++ s')); [done|]. rewrite Hc. by apply IH.
Qed.

Lemma star_lazy_sound cls s k r :
  star_lazy cls s k = Some r →
  ∃ w s', s = w ++ s' ∧ forallb cls w = true ∧ k s' = Some r.
Proof.
  induction s as [|c t IH]; simpl; intros H.
  - destruct (k []) eqn:E; [|done]. exists [], []. by simplify_eq.
  - destruct (k (c :: t)) eqn:E; [exists [], (c :: t); by simplify_eq|].
    destruct (cls c) eqn:Hc; [|done].
    destruct (IH H) as (w & s' & -> & Hw & Hk).
    exists (c :: w), s'. simpl. by rewrite Hc, Hw.
Qed.

(** The lazy star stops at the first position at which the continuation
    accepts. *)
Lemma star_lazy_first cls w s' k r :
  forallb cls w = true → k s' = Some r →
  (∀ j, (j < length w)%nat → k (drop j (w ++ s')) = None) →
  star_lazy cls (w ++ s') k = Some r.
Proof.
  intros Hw Hk Hlt. induction w as [|c w IH].
  - destruct s'; simpl in *; by rewrite Hk.
  - simpl in Hw. apply andb_true_iff in Hw as [Hc Hw].
    pose proof (Hlt 0%nat ltac:(simpl; lia)) as H0. simpl in H0.
    simpl. rewrite H0, Hc. apply IH; [done|].
    intros j Hj. apply (Hlt (S j)). simpl. lia.
Qed.
End StarLemmas.

Section MatchLemmas.
Context {R : Type}.
Implicit Types (k : jsstring → list jsstring → option R).

(** Whatever the search returns comes from a split of the input into a
    string the expression matches in full and a rest the continuation
    accepts. *)
Lemma rmatch_sound r s caps k res :
  rmatch r s caps k = Some res →
  ∃ w s' caps', s = w ++ s' ∧ matches r w ∧ k s' caps' = Some res.
Proof.
  revert s caps k. induction r as [l|g cls|r1 IH|r1 IH1 r2 IH2]; intros s caps k H; simpl in *.
  - destruct (stripPrefix l s) as [s'|] eqn:E; [|done].
    apply stripPrefix_inv in E as ->. by exists l, s', caps.
  - destruct g.
    + apply star_greedy_sound in H as (w & s' & -> & Hw & Hk). by exists w, s', caps.
    + apply star_lazy_sound in H as (w & s' & -> & Hw & Hk). by exists w, s', caps.
  - apply IH in H as (w & s' & caps' & -> & Hw & Hk). eauto 10.
  - apply IH1 in H as (w1 & s1 & caps1 & -> & Hw1 & H).
    apply IH2 in H as (w2 & s2 & caps2 & -> & Hw2 & H).
    exists (w1 ++ w2), s2, caps2. rewrite <- app_assoc. eauto 10.
Qed.

(** The search is exhaustive: it succeeds as soon as some split exists
    whose rest the continuation accepts whatever the captures. *)
Lemma rmatch_complete r w s' caps k :
  matches r w → (∀ caps', is_Some (k s' caps')) →
  is_Some (rmatch r (w ++ s') caps k).
Proof.
  revert w s' caps k.
  induction r as [l|g cls|r1 IH|r1 IH1 r2 IH2]; intros w s' caps k Hw Hk; simpl in *.
  - subst w. by rewrite stripPrefix_app.
  - destruct g; [by apply star_greedy_complete|by apply star_lazy_complete].
  - apply IH; [done|]. intros caps'. apply Hk.
  - destruct Hw as (w1 & w2 & -> & Hw1 & Hw2). rewrite <- app_assoc.
    apply IH1; [done|]. intros caps'. by apply IH2.
Qed.
End MatchLemmas.

(** [exec] reports the leftmost position at which the search succeeds. *)
Lemma exec_from_Some r i s m :
  exec_from r i s = Some m →
  ∃ pre post, s = pre ++ matched m ++ post ∧ index m = (i + length pre)%nat
    ∧ matches r (matched m)
    ∧ rmatch r (matched m ++ post) [] accept = Some (post, groups m)
    ∧ ∀ j, (j < length pre)%nat → rmatch r (drop j s) [] accept = None.
Proof.
  revert i. induction s as [|c s IH]; intros i H; simpl in H.
  - destruct (rmatch r [] [] accept) as [[s' caps]|] eqn:E; [|done].
    injection H as <-. simpl.
    pose proof E as E'. apply rmatch_sound in E' as (w & s'' & caps' & Hs & Hw & Hk).
    injection Hk as <- <-. symmetry in Hs. apply app_eq_nil in Hs as [-> ->].
    exists [], []. simpl. repeat split; [lia|done|done|]. intros; lia.
  - destruct (rmatch r (c :: s) [] accept) as [[s' caps]|] eqn:E.
    + injection H as <-. simpl.
      pose proof E as E'. apply rmatch_sound in E' as (w & s'' & caps' & Hs & Hw & Hk).
      injection Hk as <- <-. rewrite Hs, consumed_app.
      exists [], s''. simpl. rewrite <- Hs. repeat split; [lia|done|done|]. intros; lia.
    + apply IH in H as (pre & post & Hs & Hi & Hw & Hm & Hlt).
      exists (c :: pre), post. simpl. repeat split; [by f_equal|lia|done|done|].
      intros [|j] Hj; [done|]. apply Hlt. lia.
Qed.

(** If the search succeeds at [k] and at no earlier position, [exec]
    reports [k]. *)
Lemma exec_from_first r i pre s s' caps :
  rmatch r s [] accept = Some (s', caps) →
  (∀ j, (j < length pre)%nat → rmatch r (drop j (pre ++ s)) [] accept = None) →
  exec_from r i (pre ++ s)
  = Some {| index := (i + length pre)%nat; matched := consumed s s'; groups := caps |}.
Proof.
  intros Hs. revert i. induction pre as [|c pre IH]; intros i Hlt.
  - simpl. replace (i + 0)%nat with i by lia. destruct s; simpl; by rewrite Hs.
  - pose proof (Hlt 0%nat ltac:(simpl; lia)) as H0. simpl in H0.
    simpl. rewrite H0. rewrite IH.
    + do 2 f_equal. lia.
    + intros j Hj. apply (Hlt (S j)). simpl. lia.
Qed.

Lemma exec_from_absent r i s :
  (∀ j, rmatch r (drop j s) [] accept = None) → exec_from r i s = None.
Proof.
  revert i. induction s as [|c s IH]; intros i H.
  - specialize (H 0%nat). simpl in *. by rewrite H.
  - pose proof (H 0%nat) as H0. simpl in H0. simpl. rewrite H0.
    apply IH. intros j. apply (H (S j)).
Qed.

(** [s.indexOf(m[0])] is [m.index]: the text of the leftmost match does not
    occur further left. *)
Lemma indexOf_matched s r m :
  str_match s r = Some m → indexOf s (matched m) = Z.of_nat (index m).
Proof.
  intros H. apply exec_from_Some in H as (pre & post & Hs & Hi & Hw & _ & Hlt).
  simpl in Hi. rewrite Hi. unfold indexOf.
  rewrite (indexOf_from_first 0 s (matched m) (length pre)); [done| |].
  - rewrite Hs at 1. rewrite drop_app_length. apply startsWith_app.
  - intros j Hj. destruct (startsWith (matched m) (drop j s)) eqn:E; [exfalso|done].
    apply startsWith_inv in E as [t Ht].
    specialize (Hlt j Hj). rewrite Ht in Hlt.
    destruct (rmatch_complete (R:=jsstring * list jsstring) r (matched m) t [] accept Hw) as [x Hx].
    + intros caps'. by eexists.
    + congruence.
Qed.

(** ** The patterns of the component *)

Lemma startsWith_app_l (p a b : jsstring) :
  (length p ≤ length a)%nat → startsWith p (a ++ b) = startsWith p a.
Proof.
  revert a. induction p as [|x p IH]; intros a H; [done|].
  destruct a as [|y a]; simpl in *; [lia|]. rewrite IH; [done|lia].
Qed.

(** A needle that starts in [a], in front of a character it does not
    contain, lies in [a]. *)
Lemma startsWith_before (p a b : jsstring) (c : jschar) :
  forallb (λ x, negb (x =? c)%N) p = true →
  startsWith p (a ++ c :: b) = true → startsWith p a = true.
Proof.
  revert a. induction p as [|x p IH]; intros a Hc H; [done|].
  simpl in Hc. apply andb_true_iff in Hc as [Hx Hp].
  destruct a as [|y a]; simpl in *.
  - apply andb_true_iff in H as [H _]. by rewrite H in Hx.
  - apply andb_true_iff in H as [-> H]. simpl. by apply IH.
Qed.

Lemma star_greedy_dotAll {R} (s : jsstring) (k : jsstring → option R) :
  is_Some (k []) → star_greedy dotAll s k = k [].
Proof.
  intros [r Hr]. induction s as [|c t IH]; simpl; [done|]. by rewrite IH, Hr.
Qed.

Lemma star_greedy_ws {R} (s : jsstring) (k : jsstring → option R) :
  (∀ x, is_Some (k x)) → star_greedy isWhiteSpace s k = k (trimStart s).
Proof.
  intros Hk. induction s as [|c t IH]; simpl; [done|].
  destruct (isWhiteSpace c); [|done].
  rewrite IH. by destruct (Hk (trimStart t)) as [r ->].
Qed.

Lemma rmatch_labelled_rest label s :
  rmatch (labelled_rest label) s [] accept
  = match stripPrefix label s with
    | Some rest => Some ([], [trimStart rest])
    | None => None
    end.
Proof.
  simpl. destruct (stripPrefix label s) as [rest|]; [|done].
  rewrite star_greedy_ws.
  - rewrite star_greedy_dotAll by done. unfold accept, consumed. simpl.
    by rewrite Nat.sub_0_r, firstn_all.
  - intros x. by rewrite star_greedy_dotAll.
Qed.

Lemma str_match_labelled_rest_absent label s :
  absent label s → str_match s (labelled_rest label) = None.
Proof.
  intros H. apply exec_from_absent. intros j.
  rewrite rmatch_labelled_rest. by rewrite stripPrefix_None.
Qed.

Lemma str_match_labelled_rest_first label pre rest :
  (∀ j, (j < length pre)%nat → startsWith label (drop j (pre ++ label ++ rest)) = false) →
  str_match (pre ++ label ++ rest) (labelled_rest label)
  = Some {| index := length pre; matched := label ++ rest; groups := [trimStart rest] |}.
Proof.
  intros H. unfold str_match.
  rewrite (exec_from_first _ 0 pre (label ++ rest) [] [trimStart rest]).
  - unfold consumed. simpl. by rewrite Nat.sub_0_r, firstn_all.
  - by rewrite rmatch_labelled_rest, stripPrefix_app.
  - intros j Hj. rewrite rmatch_labelled_rest. by rewrite stripPrefix_None; [|apply H].
Qed.

(** Either the label is nowhere in the text, or the text splits at the
    first place the label starts. *)
Lemma first_label_cases (label s : jsstring) :
  label ≠ [] →
  absent label s
  ∨ ∃ pre rest, s = pre ++ label ++ rest ∧ absent label pre
      ∧ ∀ j, (j < length pre)%nat → startsWith label (drop j s) = false.
Proof.
  intros Hne. destruct (decide (indexOf s label = -1)) as [H|H].
  - left. intros j. by apply indexOf_absent_inv.
  - right. unfold indexOf in H.
    destruct (indexOf_from_found 0 s label ltac:(lia) H) as (k & _ & Hk & Hs & Hlt).
    apply startsWith_inv in Hs as [rest Hrest].
    exists (take k s), rest. rewrite length_take_le by done.
    split; [by rewrite <- Hrest, take_drop|]. split; [|done].
    intros j. destruct (startsWith label (drop j (take k s))) eqn:E; [exfalso|done].
    assert (Hj : (j < k)%nat).
    { destruct (decide (j < k)%nat); [done|]. rewrite drop_ge in E by (rewrite length_take; lia).
      by destruct label. }
    specialize (Hlt j Hj). rewrite <- (take_drop k s) in Hlt.
    rewrite drop_app_le in Hlt by (rewrite length_take; lia).
    apply startsWith_inv in E as [t Ht]. rewrite Ht, <- app_assoc, startsWith_app in Hlt. done.
Qed.

(** ** The handlers *)

(** Unfold the plumbing of [Act]. *)
Ltac act_unfold :=
  unfold exec_state, exec_log, mbind, mret, Act_bind, Act_ret,
    get, emit, modify, setKeyStatus, setIsInitializing, setKeyError, setChat,
    setMessages, setInputValue, setIsStreaming, setIsMadScientistVoiceOn,
    setCurrentModelMessage in *.

Lemma whitespace_only_trims_to_empty (s : jsstring) :
  forallb isWhiteSpace s = true → truthy (trim s) = false.
Proof. intros H. by rewrite trim_all_ws. Qed.

Lemma sendStart_accepted (st : State) (c : Chat) :
  accepted st → chat st = Some c →
  sendStart st
  = (Some (isMadScientistVoiceOn st), started st, [SendMessageStream c (messageToSend st)]).
Proof.
  intros (Hin & _ & Hs) Hc. unfold sendStart. act_unfold. cbn.
  rewrite Hc, Hin, Hs. cbn. reflexivity.
Qed.

Lemma sendStart_rejected (st : State) :
  truthy (trim (inputValue st)) = false ∨ chat st = None ∨ isStreaming st = true →
  sendStart st = (None, st, []).
Proof.
  intros H. unfold sendStart. act_unfold. cbn.
  destruct (chat st) as [c|]; [|done].
  destruct H as [->|[H| ->]]; [done|done|]. by rewrite orb_true_r.
Qed.

Lemma set_last_snoc (x y : Message) (base : list Message) :
  set_last x (base ++ [y]) = base ++ [x].
Proof.
  unfold set_last. destruct (base ++ [y]) eqn:E; [by destruct base|].
  rewrite <- E, length_app. simpl.
  replace (length base + 1 - 1)%nat with (length base + 0)%nat by lia.
  by rewrite insert_app_r.
Qed.

Lemma onChunk_streaming (base : list Message) (chunkText : option jsstring) (st : State) :
  streaming_into base st →
  onChunk chunkText st = (tt, delivered base [chunkText] st, []).
Proof.
  unfold streaming_into. destruct st as [ks ii ke ch ms iv ist vo cur]. cbn. intros ->.
  unfold onChunk, delivered, accumulated. act_unfold. cbn.
  rewrite last_snoc. cbn. rewrite set_last_snoc, app_nil_r. reflexivity.
Qed.

Lemma forEachChunk_streaming (base : list Message) (chunks : list (option jsstring))
    (st : State) :
  streaming_into base st →
  forEachChunk chunks st = (tt, delivered base chunks st, []).
Proof.
  revert st. induction chunks as [|chunkText rest IH]; intros st H.
  - cbn. unfold delivered, accumulated. cbn. rewrite app_nil_r, <- H. by destruct st.
  - cbn [forEachChunk]. unfold mbind, Act_bind.
    rewrite (onChunk_streaming base chunkText st H).
    rewrite (IH (delivered base [chunkText] st)) by reflexivity.
    unfold delivered, accumulated. cbn. by rewrite !app_nil_r, <- !app_assoc.
Qed.

Lemma started_streaming (st : State) :
  streaming_into (messages st ++ [{| role := user; content := inputValue st |}]) (started st).
Proof. unfold streaming_into, started. cbn. by rewrite <- app_assoc. Qed.

Lemma receive_started (st : State) (r : Reply) :
  ∃ st' es, receive r (started st) = (tt, st', es)
    ∧ messages st' = messages st ++ [{| role := user; content := inputValue st |};
                                     {| role := model; content := replyShown r |}]
    ∧ currentModelMessage st' = replyShown r
    ∧ chat st' = chat st ∧ keyStatus st' = keyStatus st
    ∧ es = (if fails r then [ConsoleError (lit "Error sending message:")] else []).
Proof.
  pose proof (started_streaming st) as Hs.
  destruct r as [e|chunks [|e]]; cbn [receive fails replyShown].
  - eexists _, _. split; [reflexivity|]. unfold onCatch. act_unfold. cbn.
    change (messages st ++ [?a; ?b]) with (messages st ++ [a] ++ [b]).
    by rewrite app_assoc, set_last_snoc, <- app_assoc.
  - eexists _, _. rewrite (forEachChunk_streaming _ chunks _ Hs).
    split; [reflexivity|]. cbn. by rewrite <- app_assoc.
  - eexists _, _. unfold mbind, Act_bind. rewrite (forEachChunk_streaming _ chunks _ Hs).
    split; [reflexivity|]. unfold onCatch. act_unfold. cbn.
    by rewrite set_last_snoc, <- app_assoc.
Qed.

Lemma accumulated_length (chunks : list (option jsstring)) :
  length (accumulated chunks)
  = (length (streamedText chunks) + 9 * length (filter (λ c, c = None) chunks))%nat.
Proof.
  unfold accumulated, streamedText.
  induction chunks as [|[t|] rest IH]; [done| |].
  - rewrite filter_cons_False by done. cbn. rewrite !length_app. cbn in IH. lia.
  - rewrite filter_cons_True by done. cbn [fmap list_fmap omap list_omap id concat ToString].
    rewrite length_app. cbn [length undefined_text]. cbn in IH. lia.
Qed.

(** The accumulator is the text streamed exactly when every chunk carries
    a text. *)
Lemma accumulated_streamedText (chunks : list (option jsstring)) :
  accumulated chunks = streamedText chunks ↔ Forall is_Some chunks.
Proof.
  split.
  - intros Heq. apply (f_equal length) in Heq. rewrite accumulated_length in Heq.
    apply Forall_forall. intros [t|] Hin; [by eexists|].
    assert (Hnil : filter (λ c : option jsstring, c = None) chunks = [])
      by (apply length_zero_iff_nil; lia).
    assert (Hf : None ∈ filter (λ c : option jsstring, c = None) chunks)
      by (by apply list_elem_of_filter).
    rewrite Hnil in Hf. by apply elem_of_nil in Hf.
  - unfold accumulated, streamedText. induction 1 as [|c rest [t ->] _ IH]; [done|].
    cbn. by rewrite IH.
Qed.

(** C1.  For every sequence of chunks delivered for one turn, after the
    first [i] deliveries the trailing turn of the transcript is the model
    turn whose content is what the loop has accumulated: the transcript is
    the old one, the user turn, and that turn.  The loop appends
    [chunk.text] as it is, so what it has accumulated is the
    concatenation of the streamed fragments exactly when each of the [i]
    chunks carries a text; a chunk without one puts the letters of
    [undefined] into the turn, and the claim fails there. *)
Theorem streamed_prefix_consistency (st : State) (chunks : list (option jsstring)) (i : nat) :
  accepted st →
  let after_i := exec_state (sendStart;; forEachChunk (take i chunks)) st in
  last (messages after_i) = Some {| role := model; content := accumulated (take i chunks) |}
  ∧ messages after_i
    = messages st ++ [{| role := user; content := inputValue st |};
                      {| role := model; content := accumulated (take i chunks) |}]
  ∧ currentModelMessage after_i = accumulated (take i chunks)
  ∧ (last (messages after_i)
     = Some {| role := model; content := streamedText (take i chunks) |}
     ↔ Forall is_Some (take i chunks)).
Proof.
  intros Hacc. pose proof Hacc as (_ & [c Hc] & _).
  unfold exec_state, mbind, Act_bind. cbn zeta.
  rewrite (sendStart_accepted st c Hacc Hc).
  rewrite (forEachChunk_streaming _ _ _ (started_streaming st)). cbn.
  split; [by rewrite last_snoc|]. split; [by rewrite <- app_assoc|]. split; [done|].
  rewrite last_snoc, <- accumulated_streamedText. split; [by intros [= ->]|by intros ->].
Qed.

Lemma streamed_prefix_consistency_witness :
  let st := {| keyStatus := ready; isInitializing := false; keyError := None;
               chat := Some (ChatHandle 0); messages := [];
               inputValue := lit "What is P(A|B)?"; isStreaming := false;
               isMadScientistVoiceOn := false; currentModelMessage := [] |} in
  accepted st
  ∧ last (messages (exec_state (sendStart;; forEachChunk (take 2 [Some (lit "Hi"); None])) st))
    = Some {| role := model; content := lit "Hiundefined" |}.
Proof.
  intros st.
  assert (Hacc : accepted st) by (split; [reflexivity|split; [by eexists|reflexivity]]).
  split; [exact Hacc|].
  exact (proj1 (streamed_prefix_consistency st [Some (lit "Hi"); None] 2 Hacc)).
Defined.

(** C2.  A submission whose input is empty or only white space, or that
    is made while there is no session, or while [isStreaming] is true,
    changes nothing: the handler returns the state it was given and logs
    no effect, and in the transition system nothing is added to what is
    in flight.  The same holds for the simpler variant, with [isLoading]
    in the place of [isStreaming]. *)
Theorem rejected_submission_is_noop (w : Window) (r : Reply) (sys : System)
    (sst : Simple.State) :
  forallb isWhiteSpace (inputValue (comp sys)) = true ∨ chat (comp sys) = None
    ∨ isStreaming (comp sys) = true →
  forallb isWhiteSpace (Simple.inputValue sst) = true ∨ Simple.chat sst = None
    ∨ Simple.isLoading sst = true →
  handleSendMessage w r (comp sys) = (tt, comp sys, [])
  ∧ step w sys FormSubmitted = Some sys
  ∧ Simple.sendStart sst = (sst, None).
Proof.
  intros H Hs.
  assert (Hrej : sendStart (comp sys) = (None, comp sys, [])).
  { apply sendStart_rejected. destruct H as [H|[H|H]]; [left|by right; left|by right; right].
    by apply whitespace_only_trims_to_empty. }
  split; [|split].
  - unfold handleSendMessage, mbind, Act_bind. by rewrite Hrej.
  - unfold step, perform. rewrite Hrej. destruct sys. cbn. by rewrite app_nil_r.
  - unfold Simple.sendStart. destruct (Simple.chat sst) as [c|]; [|done].
    destruct Hs as [Hs|[Hs|Hs]]; [|done|by rewrite Hs, orb_true_r].
    by rewrite (whitespace_only_trims_to_empty _ Hs).
Qed.

Lemma rejected_submission_is_noop_witness :
  let sys := {| comp := {| keyStatus := ready; isInitializing := false; keyError := None;
                           chat := Some (ChatHandle 0); messages := [];
                           inputValue := lit "   "; isStreaming := false;
                           isMadScientistVoiceOn := false; currentModelMessage := [] |};
                log := []; keyCheckPending := false; selectKeyPending := 0;
                sending := None |} in
  let sst := {| Simple.chat := Some (ChatHandle 0); Simple.messages := [];
                Simple.inputValue := lit "hello"; Simple.isLoading := true |} in
  step {| aistudio := None; speechSynthesis := true |} sys FormSubmitted = Some sys
  ∧ Simple.sendStart sst = (sst, None).
Proof.
  intros sys sst.
  exact (proj2 (rejected_submission_is_noop {| aistudio := None; speechSynthesis := true |}
                  (Streams [] StreamDone) sys sst
                  (or_introl eq_refl) (or_intror (or_intror eq_refl)))).
Defined.

Lemma speak_spec (w : Window) (t : jsstring) (st : State) :
  speak w t st
  = (tt, st, if speechSynthesis w && truthy t then [SpeechCancel; SpeechSpeak (utterance t)] else []).
Proof. unfold speak. by destruct (speechSynthesis w && truthy t). Qed.

Lemma onFinally_spec (w : Window) (voiceOn : bool) (st : State) :
  ∃ st', onFinally w voiceOn st = (tt, st', narration w voiceOn (currentModelMessage st))
    ∧ messages st' = messages st ∧ isStreaming st' = false
    ∧ chat st' = chat st ∧ keyStatus st' = keyStatus st.
Proof.
  unfold onFinally, narration. destruct voiceOn.
  - act_unfold. cbn. destruct (textToSpeak (currentModelMessage st)) as [t|].
    + rewrite speak_spec. eexists. split; [by rewrite app_nil_r|done].
    + eexists. split; [reflexivity|done].
  - act_unfold. cbn. eexists. split; [reflexivity|done].
Qed.

(** [handleSendMessage] on a submission that passes the guard. *)
Lemma handleSendMessage_accepted (w : Window) (r : Reply) (st : State) (c : Chat) :
  accepted st → chat st = Some c →
  ∃ st', handleSendMessage w r st
         = (tt, st',
            [SendMessageStream c (messageToSend st)]
            ++ (if fails r then [ConsoleError (lit "Error sending message:")] else [])
            ++ narration w (isMadScientistVoiceOn st) (replyShown r))
    ∧ messages st' = messages st ++ [{| role := user; content := inputValue st |};
                                     {| role := model; content := replyShown r |}]
    ∧ isStreaming st' = false
    ∧ chat st' = chat st ∧ keyStatus st' = keyStatus st.
Proof.
  intros Hacc Hc. unfold handleSendMessage, mbind, Act_bind.
  rewrite (sendStart_accepted st c Hacc Hc).
  destruct (receive_started st r) as (st1 & es1 & -> & Hm1 & Hcur1 & Hc1 & Hk1 & ->).
  destruct (onFinally_spec w (isMadScientistVoiceOn st) st1) as (st2 & -> & Hm2 & Hs2 & Hc2 & Hk2).
  exists st2. rewrite Hcur1, Hm2, Hm1, Hc2, Hc1, Hk2, Hk1. done.
Qed.

Lemma textToSpeak_errorMessage : textToSpeak errorMessage = None.
Proof. vm_compute. reflexivity. Qed.

(** C4.  If opening the stream or reading it throws, at any point and
    also before the first fragment, the trailing model turn becomes the
    fixed apology and nothing of what was streamed is kept, [isStreaming]
    is false again, and the handler has called the session once and the
    speech engine not at all. *)
Theorem stream_failure_shows_apology (w : Window) (r : Reply) (st : State) (c : Chat) :
  accepted st → chat st = Some c → fails r = true →
  let st' := exec_state (handleSendMessage w r) st in
  last (messages st') = Some {| role := model; content := errorMessage |}
  ∧ errorMessage = lit "Oops! Something went wrong. Please try again."
  ∧ messages st' = messages st ++ [{| role := user; content := inputValue st |};
                                   {| role := model; content := errorMessage |}]
  ∧ isStreaming st' = false
  ∧ exec_log (handleSendMessage w r) st
    = [SendMessageStream c (messageToSend st); ConsoleError (lit "Error sending message:")].
Proof.
  intros Hacc Hc Hf. cbn zeta. unfold exec_state, exec_log.
  destruct (handleSendMessage_accepted w r st c Hacc Hc) as (st' & -> & Hm & Hs & _).
  assert (Hshown : replyShown r = errorMessage) by (by destruct r as [|? []]).
  cbn [fst snd]. rewrite Hm, Hf, Hshown. unfold narration. rewrite textToSpeak_errorMessage.
  repeat split; [|done|].
  - change (messages st ++ [?a; ?b]) with (messages st ++ [a] ++ [b]).
    by rewrite app_assoc, last_snoc.
  - by destruct (isMadScientistVoiceOn st).
Qed.

Lemma stream_failure_shows_apology_witness :
  let st := {| keyStatus := ready; isInitializing := false; keyError := None;
               chat := Some (ChatHandle 0); messages := [];
               inputValue := lit "hi"; isStreaming := false;
               isMadScientistVoiceOn := true; currentModelMessage := [] |} in
  let r := Streams [Some (lit "partial "); None; Some (lit "answer")] (StreamThrows {| message := None |}) in
  accepted st ∧ fails r = true
  ∧ last (messages (exec_state (handleSendMessage {| aistudio := None; speechSynthesis := true |} r) st))
    = Some {| role := model; content := errorMessage |}.
Proof.
  intros st r.
  assert (Hacc : accepted st) by (split; [reflexivity|split; [by eexists|reflexivity]]).
  split; [exact Hacc|]. split; [reflexivity|].
  exact (proj1 (stream_failure_shows_apology {| aistudio := None; speechSynthesis := true |}
                  r st (ChatHandle 0) Hacc eq_refl eq_refl)).
Defined.

(** C6.  For every submission that passes the guard, the user turn
    appended to the transcript is the raw input, the text sent to the
    session is the voice directive, an empty line and that input, and
    when the handler has run to its end the transcript is the old one
    followed by the raw user turn and the model turn (the streamed reply
    or the apology): no turn is made of the directive. *)
Theorem directive_sent_not_recorded (w : Window) (r : Reply) (st : State) (c : Chat) :
  accepted st → chat st = Some c →
  let directive := if isMadScientistVoiceOn st then lit "Mad Scientist Voice: ON"
                   else lit "Mad Scientist Voice: OFF" in
  exec_log sendStart st = [SendMessageStream c (directive ++ [LF; LF] ++ inputValue st)]
  ∧ messages (exec_state sendStart st)
    = messages st ++ [{| role := user; content := inputValue st |};
                      {| role := model; content := [] |}]
  ∧ messages (exec_state (handleSendMessage w r) st)
    = messages st ++ [{| role := user; content := inputValue st |};
                      {| role := model; content := replyShown r |}]
  ∧ inputValue st ≠ directive ++ [LF; LF] ++ inputValue st.
Proof.
  intros Hacc Hc. cbn zeta. unfold exec_state, exec_log.
  rewrite (sendStart_accepted st c Hacc Hc).
  destruct (handleSendMessage_accepted w r st c Hacc Hc) as (st' & -> & Hm & _).
  cbn [fst snd]. split; [|split; [done|split; [done|]]].
  - unfold messageToSend. by destruct (isMadScientistVoiceOn st).
  - intros Heq. apply (f_equal length) in Heq. rewrite !length_app in Heq.
    destruct (isMadScientistVoiceOn st); cbn in Heq; lia.
Qed.

Lemma directive_sent_not_recorded_witness :
  let st := {| keyStatus := ready; isInitializing := false; keyError := None;
               chat := Some (ChatHandle 0); messages := [];
               inputValue := lit "What is P(A|B)?"; isStreaming := false;
               isMadScientistVoiceOn := false; currentModelMessage := [] |} in
  accepted st
  ∧ exec_log sendStart st
    = [SendMessageStream (ChatHandle 0)
         (lit "Mad Scientist Voice: OFF" ++ [LF; LF] ++ lit "What is P(A|B)?")].
Proof.
  intros st.
  assert (Hacc : accepted st) by (split; [reflexivity|split; [by eexists|reflexivity]]).
  split; [exact Hacc|].
  exact (proj1 (directive_sent_not_recorded {| aistudio := None; speechSynthesis := true |}
                  (Streams [] StreamDone) st (ChatHandle 0) Hacc eq_refl)).
Defined.

(** C7.  The startup key check sets the key status to [ready] when the
    host offers no key service; when it does, to [ready] or [needed] as
    the query answers; and when the query throws, to [error] with the
    message that the key service could not be reached, never to [ready]. *)
Theorem key_check_fails_closed (w : Window) (query : Settled bool) (st : State) :
  let st' := exec_state (checkKeyManagementService w query) st in
  (hasKeyService w = false → keyStatus st' = ready)
  ∧ (hasKeyService w = true → ∀ b, query = Fulfilled b →
       keyStatus st' = if b then ready else needed)
  ∧ (hasKeyService w = true → ∀ e, query = Rejected e →
       keyStatus st' = error ∧ keyStatus st' ≠ ready
       ∧ keyError st' = Some (lit "Could not connect to the API key service. Please reload.")).
Proof.
  cbn zeta. unfold hasKeyService, checkKeyManagementService.
  destruct (aistudio w) as [a|]; [destruct (hasSelectedApiKey_is_function a)|].
  - split; [done|]. split.
    + intros _ b ->. by destruct b.
    + intros _ e ->. by act_unfold.
  - split; [done|]. split; intros; done.
  - split; [done|]. split; intros; done.
Qed.

(** C9.  From every state in which voice mode is on, toggling voice mode
    turns it off and, where the host has a speech engine, calls its
    [cancel] and nothing else; whatever was being spoken is no longer
    spoken afterwards.  (Speech can only be in progress where there is an
    engine.) *)
Theorem toggle_off_cancels_speech (w : Window) (st : State) (speaking : option Utterance) :
  isMadScientistVoiceOn st = true →
  (is_Some speaking → speechSynthesis w = true) →
  isMadScientistVoiceOn (exec_state (toggleVoiceMode w) st) = false
  ∧ (speechSynthesis w = true → exec_log (toggleVoiceMode w) st = [SpeechCancel])
  ∧ foldl speechAfter speaking (exec_log (toggleVoiceMode w) st) = None.
Proof.
  intros Hon Hsp. unfold toggleVoiceMode. act_unfold. cbn. rewrite Hon. cbn.
  destruct (speechSynthesis w); cbn.
  - done.
  - split; [done|]. split; [done|]. destruct speaking as [u|]; [|done].
    by specialize (Hsp ltac:(by eexists)).
Qed.

Lemma toggle_off_cancels_speech_witness :
  let w := {| aistudio := None; speechSynthesis := true |} in
  let st := {| keyStatus := ready; isInitializing := false; keyError := None;
               chat := Some (ChatHandle 0); messages := [];
               inputValue := []; isStreaming := false;
               isMadScientistVoiceOn := true; currentModelMessage := [] |} in
  isMadScientistVoiceOn st = true
  ∧ exec_log (toggleVoiceMode w) st = [SpeechCancel]
  ∧ foldl speechAfter (Some (utterance (lit "Eureka"))) (exec_log (toggleVoiceMode w) st) = None.
Proof.
  intros w st. split; [reflexivity|].
  pose proof (toggle_off_cancels_speech w st (Some (utterance (lit "Eureka")))
                eq_refl (λ _, eq_refl)) as (_ & H1 & H2).
  exact (conj (H1 eq_refl) H2).
Defined.

Lemma group1_single (i : nat) (m g : jsstring) :
  group1 {| index := i; matched := m; groups := [g] |} = g.
Proof. reflexivity. Qed.

(** The first group of the first [VOICE_OVER:] decides what is spoken. *)
Lemma textToSpeak_first (pre rest : jsstring) :
  (∀ j, (j < length pre)%nat →
        startsWith VOICE_OVER_label (drop j (pre ++ VOICE_OVER_label ++ rest)) = false) →
  textToSpeak (pre ++ VOICE_OVER_label ++ rest)
  = if truthy (trim rest) then Some (trim rest) else None.
Proof.
  intros H. unfold textToSpeak. change VOICE_OVER_re with (labelled_rest VOICE_OVER_label).
  rewrite (str_match_labelled_rest_first _ _ _ H), !group1_single.
  assert (Htrim : trim (trimStart rest) = trim rest) by (unfold trim; by rewrite trimStart_idem).
  rewrite Htrim.
  destruct (trimStart_head rest) as [E|(c & t & E & Hc)].
  - rewrite E. cbn. unfold trim. by rewrite E.
  - rewrite E. cbn [truthy]. rewrite <- Htrim, E. by rewrite (trim_truthy c t Hc).
Qed.

Lemma textToSpeak_absent (s : jsstring) :
  absent VOICE_OVER_label s → textToSpeak s = None.
Proof.
  intros H. unfold textToSpeak. change VOICE_OVER_re with (labelled_rest VOICE_OVER_label).
  by rewrite str_match_labelled_rest_absent.
Qed.

Lemma textToSpeak_truthy (current t : jsstring) :
  textToSpeak current = Some t → truthy t = true.
Proof.
  destruct (first_label_cases VOICE_OVER_label current) as [H|(pre & rest & -> & _ & H)]; [done| |].
  - by rewrite (textToSpeak_absent _ H).
  - rewrite (textToSpeak_first _ _ H).
    destruct (truthy (trim rest)) eqn:E; [|done]. by intros [= <-].
Qed.

(** An element of an explicit list of effects that holds no call of the
    speech engine is no such call. *)
Ltac no_speech H :=
  repeat (apply elem_of_cons in H as [->|H]; [by split|]);
  by apply elem_of_nil in H.

(** C10.  [speak] with the empty text does nothing: it calls neither
    [cancel] nor [speak] of the engine.  A reply whose first [VOICE_OVER:]
    is followed by nothing but white space hands no text to [speak], and
    the handler then leaves the speech engine alone.  Whenever
    [handleSendMessage] does hand a text to [speak], the text is not
    empty: every utterance it makes the engine speak has a text. *)
Theorem narrator_never_given_empty_text (w : Window) (r : Reply) (st : State)
    (pre ws : jsstring) :
  indexOf (pre ++ VOICE_OVER_label ++ ws) VOICE_OVER_label = Z.of_nat (length pre) →
  forallb isWhiteSpace ws = true →
  replyShown r = pre ++ VOICE_OVER_label ++ ws →
  speak w [] st = (tt, st, [])
  ∧ textToSpeak (pre ++ VOICE_OVER_label ++ ws) = None
  ∧ (∀ e, e ∈ exec_log (handleSendMessage w r) st → e ≠ SpeechCancel ∧ ∀ u, e ≠ SpeechSpeak u)
  ∧ (∀ current t, textToSpeak current = Some t → t ≠ [])
  ∧ (∀ r' u, SpeechSpeak u ∈ exec_log (handleSendMessage w r') st → text u ≠ []).
Proof.
  intros Hfirst Hws Hr.
  assert (Hnone : textToSpeak (pre ++ VOICE_OVER_label ++ ws) = None).
  { rewrite textToSpeak_first by (by apply indexOf_first_inv). by rewrite trim_all_ws. }
  assert (Hlog : ∀ r', exec_log (handleSendMessage w r') st = []
      ∨ ∃ es, exec_log (handleSendMessage w r') st
              = es ++ narration w (isMadScientistVoiceOn st) (replyShown r')
          ∧ ∀ e, e ∈ es → e ≠ SpeechCancel ∧ ∀ u, e ≠ SpeechSpeak u).
  { intros r'. destruct (decide (accepted st)) as [Hacc|Hrej].
    - pose proof Hacc as (_ & [c Hc] & _).
      destruct (handleSendMessage_accepted w r' st c Hacc Hc) as (st' & Hrun & _).
      right. eexists. unfold exec_log. rewrite Hrun. cbn [snd]. rewrite app_assoc.
      split; [reflexivity|]. intros e He.
      destruct (fails r'); cbn in He; no_speech He.
    - left. unfold exec_log, handleSendMessage, mbind, Act_bind.
      rewrite sendStart_rejected; [done|]. unfold accepted in Hrej.
      destruct (truthy (trim (inputValue st))); [|by left].
      destruct (chat st); [|by right; left]. destruct (isStreaming st); [by right; right|].
      exfalso. apply Hrej. by eauto. }
  split; [by rewrite speak_spec, andb_false_r|]. split; [done|]. split; [|split].
  - intros e He. destruct (Hlog r) as [Hes|(es & Hes & Hok)]; rewrite Hes in He;
      [by apply elem_of_nil in He|].
    rewrite Hr in He. unfold narration in He. rewrite Hnone in He.
    apply Hok. destruct (isMadScientistVoiceOn st); by rewrite app_nil_r in He.
  - intros current t H ->. by apply textToSpeak_truthy in H.
  - intros r' u Hu. destruct (Hlog r') as [Hes|(es & Hes & Hok)]; rewrite Hes in Hu;
      [by apply elem_of_nil in Hu|].
    apply elem_of_app in Hu as [Hu|Hu]; [by destruct (Hok _ Hu) as [_ Hn]; destruct (Hn u)|].
    unfold narration in Hu.
    destruct (isMadScientistVoiceOn st); [|by apply elem_of_nil in Hu].
    destruct (textToSpeak (replyShown r')) as [t|] eqn:E; [|by apply elem_of_nil in Hu].
    destruct (speechSynthesis w && truthy t); [|by apply elem_of_nil in Hu].
    apply elem_of_cons in Hu as [Hu|Hu]; [done|].
    apply elem_of_cons in Hu as [Hu|Hu]; [|by apply elem_of_nil in Hu].
    injection Hu as ->. cbn. intros ->. by apply textToSpeak_truthy in E.
Qed.

Lemma narrator_never_given_empty_text_witness :
  let w := {| aistudio := None; speechSynthesis := true |} in
  let st := {| keyStatus := ready; isInitializing := false; keyError := None;
               chat := Some (ChatHandle 0); messages := [];
               inputValue := lit "hi"; isStreaming := false;
               isMadScientistVoiceOn := true; currentModelMessage := [] |} in
  let r := Streams [Some (lit "Answer. VOICE_"); Some (lit "OVER:  ")] StreamDone in
  indexOf (lit "Answer. " ++ VOICE_OVER_label ++ lit "  ") VOICE_OVER_label = 8
  ∧ forallb isWhiteSpace (lit "  ") = true
  ∧ replyShown r = lit "Answer. " ++ VOICE_OVER_label ++ lit "  "
  ∧ textToSpeak (lit "Answer. " ++ VOICE_OVER_label ++ lit "  ") = None.
Proof.
  intros w st r. split; [reflexivity|]. split; [reflexivity|]. split; [reflexivity|].
  exact (proj1 (proj2 (narrator_never_given_empty_text w r st (lit "Answer. ") (lit "  ")
                         eq_refl eq_refl eq_refl))).
Defined.

(** ** Narration and display text *)

Lemma str_replace_absent (s : jsstring) :
  absent VOICE_OVER_label s → str_replace s VOICE_OVER_re [] = s.
Proof.
  intros H. unfold str_replace. change VOICE_OVER_re with (labelled_rest VOICE_OVER_label).
  by rewrite str_match_labelled_rest_absent.
Qed.

Lemma str_replace_first (pre rest : jsstring) :
  (∀ j, (j < length pre)%nat →
        startsWith VOICE_OVER_label (drop j (pre ++ VOICE_OVER_label ++ rest)) = false) →
  str_replace (pre ++ VOICE_OVER_label ++ rest) VOICE_OVER_re [] = pre.
Proof.
  intros H. unfold str_replace. change VOICE_OVER_re with (labelled_rest VOICE_OVER_label).
  rewrite str_match_labelled_rest_first by done. cbn [index matched].
  by rewrite take_app_length, drop_app_add, drop_all, !app_nil_r.
Qed.

(** What is left when the narration is cut off holds no [VOICE_OVER:]. *)
Lemma str_replace_no_label (content : jsstring) :
  absent VOICE_OVER_label (str_replace content VOICE_OVER_re []).
Proof.
  destruct (first_label_cases VOICE_OVER_label content) as [H|(pre & rest & -> & Hpre & Hlt)];
    [done| |].
  - by rewrite str_replace_absent.
  - by rewrite str_replace_first.
Qed.

Lemma displayContent_idem (content : jsstring) :
  displayContent (displayContent content) = displayContent content.
Proof.
  unfold displayContent at 1.
  rewrite str_replace_absent by (apply absent_trim, str_replace_no_label).
  apply trim_idem.
Qed.

(** In [X], a line feed, [VOICE_OVER:] and more, the label starts nowhere
    in front of the line feed unless it starts in [X]. *)
Lemma label_after_line (X rest : jsstring) :
  absent VOICE_OVER_label X →
  ∀ j, (j < length (X ++ [LF]))%nat →
       startsWith VOICE_OVER_label (drop j ((X ++ [LF]) ++ VOICE_OVER_label ++ rest)) = false.
Proof.
  intros HX j Hj. rewrite length_app in Hj. cbn in Hj.
  destruct (startsWith _ _) eqn:E; [exfalso|done].
  rewrite <- app_assoc in E. rewrite drop_app_le in E by lia.
  apply startsWith_before in E; [|reflexivity]. by rewrite HX in E.
Qed.

(** C3 (amended).  For an input [X], a line feed, [VOICE_OVER: ] and [Y],
    where [X] holds no [VOICE_OVER:], the narration is [Y] trimmed (and
    absent when that is empty) and the display text is [X] trimmed; so
    they are [Y] and [X] themselves when these are trimmed already and [Y]
    is not empty.  For an input [s] without [VOICE_OVER:] the narration is
    absent and the display text is [s] trimmed.  Deriving the display
    text a second time changes nothing, whatever the input [c]. *)
Theorem narration_roundtrip (X Y s c : jsstring) :
  includes X VOICE_OVER_label = false →
  includes s VOICE_OVER_label = false →
  let input := X ++ [LF] ++ lit "VOICE_OVER: " ++ Y in
  textToSpeak input = (if truthy (trim Y) then Some (trim Y) else None)
  ∧ displayContent input = trim X
  ∧ (trim X = X → trim Y = Y → Y ≠ [] →
     textToSpeak input = Some Y ∧ displayContent input = X)
  ∧ textToSpeak s = None
  ∧ displayContent s = trim s
  ∧ displayContent (displayContent c) = displayContent c.
Proof.
  intros HX0 Hs0.
  pose proof (includes_false_inv _ _ HX0 : absent VOICE_OVER_label X) as HX.
  pose proof (includes_false_inv _ _ Hs0 : absent VOICE_OVER_label s) as Hs. cbn zeta.
  change (lit "VOICE_OVER: ") with (VOICE_OVER_label ++ [32%N]).
  replace (X ++ [LF] ++ (VOICE_OVER_label ++ [32%N]) ++ Y)
    with ((X ++ [LF]) ++ VOICE_OVER_label ++ 32%N :: Y) by (by rewrite <- !app_assoc).
  pose proof (label_after_line X (32%N :: Y) HX) as Hfirst.
  assert (Hnarr : textToSpeak ((X ++ [LF]) ++ VOICE_OVER_label ++ 32%N :: Y)
                  = if truthy (trim Y) then Some (trim Y) else None).
  { rewrite (textToSpeak_first _ _ Hfirst).
    change (32%N :: Y) with ([32%N] ++ Y). by rewrite (trim_ws [32%N] Y eq_refl). }
  assert (Hdisp : displayContent ((X ++ [LF]) ++ VOICE_OVER_label ++ 32%N :: Y) = trim X).
  { unfold displayContent. rewrite (str_replace_first _ _ Hfirst).
    by apply trim_ws_end. }
  split; [done|]. split; [done|]. split; [|split; [|split]].
  - intros HtX HtY HY. rewrite Hnarr, Hdisp, HtX, HtY. by destruct Y.
  - by apply textToSpeak_absent.
  - unfold displayContent. by rewrite str_replace_absent.
  - apply displayContent_idem.
Qed.

Lemma narration_roundtrip_witness :
  includes (lit "Bayes it is.") VOICE_OVER_label = false
  ∧ includes (lit "no marker here") VOICE_OVER_label = false
  ∧ textToSpeak (lit "Bayes it is." ++ [LF] ++ lit "VOICE_OVER: " ++ lit "Eureka!")
    = Some (lit "Eureka!")
  ∧ displayContent (lit "Bayes it is." ++ [LF] ++ lit "VOICE_OVER: " ++ lit "Eureka!")
    = lit "Bayes it is.".
Proof.
  split; [reflexivity|]. split; [reflexivity|].
  destruct (narration_roundtrip (lit "Bayes it is.") (lit "Eureka!") (lit "no marker here") []
              eq_refl eq_refl) as (_ & _ & H & _).
  apply H; [reflexivity|reflexivity|discriminate].
Defined.

(** C3 as stated fails: an input without the marker that starts with a
    space is not its own display text, and a [Y] that ends with a space is
    not the narration. *)
Lemma narration_roundtrip_counterexample :
  includes (lit " a") VOICE_OVER_label = false
  ∧ displayContent (lit " a") = lit "a"
  ∧ displayContent (lit " a") ≠ lit " a"
  ∧ textToSpeak (lit "X" ++ [LF] ++ lit "VOICE_OVER: " ++ lit "Y ") = Some (lit "Y")
  ∧ textToSpeak (lit "X" ++ [LF] ++ lit "VOICE_OVER: " ++ lit "Y ") ≠ Some (lit "Y ").
Proof. vm_compute. repeat split; discriminate. Qed.

(** ** The labelled sections of the display text *)

Lemma consumed_split (s w s' : jsstring) : s = w ++ s' → consumed s s' = w.
Proof. intros ->. apply consumed_app. Qed.

Lemma forallb_dotAll (s : jsstring) : forallb dotAll s = true.
Proof. by induction s. Qed.

(** A pattern that begins with a label matches nowhere in a text without
    the label. *)
Lemma str_match_label_absent (label : jsstring) (r : regex) (s : jsstring) :
  absent label s → str_match s (rCat (rLit label) r) = None.
Proof.
  intros H. apply exec_from_absent. intros j. cbn [rmatch].
  by rewrite (stripPrefix_None _ _ (H j)).
Qed.

(** A match of a pattern that begins with a label begins with the label. *)
Lemma str_match_label_start (label : jsstring) (r : regex) (s : jsstring) (m : MatchResult) :
  str_match s (rCat (rLit label) r) = Some m →
  startsWith label (drop (index m) s) = true ∧ (index m ≤ length s)%nat.
Proof.
  intros H. apply exec_from_Some in H as (pre & post & Hs & Hi & Hw & _).
  cbn in Hi. destruct Hw as (w1 & w2 & Hm & -> & _).
  rewrite Hi, Hs, Hm. split.
  - by rewrite drop_app_length, <- app_assoc, startsWith_app.
  - rewrite length_app. lia.
Qed.

Lemma rmatch_labelled_block_sound (label open close s s' : jsstring) (caps : list jsstring) :
  rmatch (labelled_block label open close) s [] accept = Some (s', caps) →
  ∃ ws body, s = label ++ ws ++ open ++ body ++ close ++ s'
    ∧ forallb isWhiteSpace ws = true ∧ caps = [open ++ body ++ close].
Proof.
  cbn [labelled_block rmatch]. intros H.
  destruct (stripPrefix label s) as [s1|] eqn:E1; [|done].
  apply stripPrefix_inv in E1 as ->.
  apply star_greedy_sound in H as (ws & s2 & -> & Hws & H).
  destruct (stripPrefix open s2) as [s3|] eqn:E3; [|done].
  apply stripPrefix_inv in E3 as ->.
  apply star_lazy_sound in H as (body & s4 & -> & _ & H).
  destruct (stripPrefix close s4) as [s5|] eqn:E5; [|done].
  apply stripPrefix_inv in E5 as ->.
  injection H as <- <-. exists ws, body. split; [done|]. split; [done|].
  cbn [app]. f_equal. apply consumed_split. by rewrite <- !app_assoc.
Qed.

Lemma rmatch_labelled_block_first (label open close ws body post : jsstring) :
  forallb isWhiteSpace ws = true →
  (∀ x t, open ++ body ++ close ++ post = x :: t → isWhiteSpace x = false) →
  (∀ j, (j < length body)%nat → startsWith close (drop j (body ++ close ++ post)) = false) →
  rmatch (labelled_block label open close)
    (label ++ ws ++ open ++ body ++ close ++ post) [] accept
  = Some (post, [open ++ body ++ close]).
Proof.
  intros Hws Hopen Hfirst. cbn [labelled_block rmatch]. rewrite stripPrefix_app.
  apply star_greedy_longest; [done| |done].
  rewrite stripPrefix_app.
  rewrite (star_lazy_first dotAll body (close ++ post) _
             (post, [open ++ body ++ close])); [done|apply forallb_dotAll| |].
  - rewrite stripPrefix_app. unfold accept. cbn [app]. do 3 f_equal.
    apply consumed_split. by rewrite <- !app_assoc.
  - intros j Hj. by rewrite (stripPrefix_None _ _ (Hfirst j Hj)).
Qed.

(** [positionOf] is the position [exec] reports. *)
Lemma positionOf_sectionStart (d : jsstring) (r : regex) :
  positionOf d (str_match d r)
  = match sectionStart d r with
    | Some i => Finite (Z.of_nat i)
    | None => Infinity
    end.
Proof.
  unfold sectionStart. destruct (str_match d r) as [m|] eqn:E; [|done].
  cbn. by rewrite (indexOf_matched d r m E).
Qed.

Lemma substring_take (d : jsstring) (i : nat) : substring d 0 (Z.of_nat i) = take i d.
Proof.
  unfold substring. set (len := Z.of_nat (length d)).
  assert (Hlen : 0 ≤ len) by lia.
  replace (Z.min (Z.max 0 0) len) with 0 by lia.
  replace (Z.min 0 (Z.min (Z.max (Z.of_nat i) 0) len)) with 0 by lia.
  replace (Z.max 0 (Z.min (Z.max (Z.of_nat i) 0) len) - 0)
    with (Z.of_nat (Nat.min i (length d))) by lia.
  rewrite Nat2Z.id. cbn [Z.to_nat drop].
  destruct (decide (i ≤ length d)%nat).
  - by rewrite Nat.min_l by lia.
  - rewrite Nat.min_r by lia. rewrite (take_ge d i) by lia. apply take_ge. lia.
Qed.

(** The explanation is the display text in front of the earliest section,
    trimmed, or the whole display text when there is no section. *)
Lemma explanationText_spec (d : jsstring) :
  explanationText (renderSections d)
  = match earlier (earlier (sectionStart d LaTeX_re) (sectionStart d MathML_re))
            (sectionStart d Plain_re) with
    | Some i => trim (take i d)
    | None => d
    end.
Proof.
  unfold renderSections. cbn [explanationText]. rewrite !positionOf_sectionStart.
  destruct (sectionStart d LaTeX_re) as [a|], (sectionStart d MathML_re) as [b|],
    (sectionStart d Plain_re) as [c|]; cbn [Math_min num_min earlier];
    rewrite <- ?Nat2Z.inj_min, ?substring_take; reflexivity.
Qed.

Lemma Rendered_eta (r : Rendered) :
  r = {| explanationText := explanationText r; latex := latex r;
         mathml := mathml r; description := description r |}.
Proof. by destruct r. Qed.

Lemma block_shape (label open close d b : jsstring) :
  group1 <$> str_match d (labelled_block label open close) = Some b →
  ∃ inner, b = open ++ inner ++ close.
Proof.
  destruct (str_match d _) as [m|] eqn:E; [|done]. intros [= <-].
  apply exec_from_Some in E as (pre & post & _ & _ & _ & Hm & _).
  apply rmatch_labelled_block_sound in Hm as (ws & body & _ & _ & Hg).
  exists body. unfold group1. by rewrite Hg.
Qed.

(** The match of a well-formed labelled block whose label is the first. *)
Lemma str_match_labelled_block_first (label open close pre ws body post : jsstring) :
  let d := pre ++ label ++ ws ++ open ++ body ++ close ++ post in
  indexOf d label = Z.of_nat (length pre) →
  forallb isWhiteSpace ws = true →
  (∀ x t, open ++ body ++ close ++ post = x :: t → isWhiteSpace x = false) →
  indexOf (body ++ close) close = Z.of_nat (length body) →
  str_match d (labelled_block label open close)
  = Some {| index := length pre;
            matched := label ++ ws ++ open ++ body ++ close;
            groups := [open ++ body ++ close] |}.
Proof.
  intros d Hlabel Hws Hopen Hclose. subst d.
  apply indexOf_first_inv in Hlabel as [_ Hlabel].
  apply indexOf_first_inv in Hclose as [_ Hclose].
  unfold str_match.
  rewrite (exec_from_first _ 0 pre _ post [open ++ body ++ close]).
  - cbn [Nat.add]. do 2 f_equal. apply consumed_split. by rewrite <- !app_assoc.
  - apply rmatch_labelled_block_first; [done|done|].
    intros j Hj. specialize (Hclose j Hj).
    rewrite app_assoc, drop_app_le by (rewrite length_app; lia).
    rewrite startsWith_app_l; [done|].
    rewrite length_drop, length_app. lia.
  - intros j Hj. cbn [labelled_block rmatch].
    by rewrite (stripPrefix_None _ _ (Hlabel j Hj)).
Qed.

(** [exec] finds a match wherever the text holds a string the expression
    matches. *)
Lemma exec_from_complete (r : regex) (i : nat) (pre w post : jsstring) :
  matches r w → is_Some (exec_from r i (pre ++ w ++ post)).
Proof.
  intros Hw. revert i. induction pre as [|c pre IH]; intros i.
  - cbn [app].
    destruct (rmatch_complete (R:=jsstring * list jsstring) r w post [] accept Hw)
      as [[s' caps] Hx]; [intros caps'; by eexists|].
    revert Hx. generalize (w ++ post). intros t Hx.
    destruct t; simpl; rewrite Hx; by eexists.
  - simpl. destruct (rmatch r (c :: pre ++ w ++ post) [] accept) as [[s' caps]|];
      [by eexists|]. apply IH.
Qed.

(** A block that is found stands in the text, behind its label and white
    space. *)
Lemma str_match_block_sound (label open close d : jsstring) (m : MatchResult) :
  str_match d (labelled_block label open close) = Some m →
  ∃ pre ws inner post,
    d = pre ++ label ++ ws ++ group1 m ++ post
    ∧ forallb isWhiteSpace ws = true ∧ group1 m = open ++ inner ++ close.
Proof.
  intros E. apply exec_from_Some in E as (pre & post & Hs & _ & _ & Hm & _).
  apply rmatch_labelled_block_sound in Hm as (ws & body & Heq & Hws & Hg).
  assert (Hg1 : group1 m = open ++ body ++ close) by (unfold group1; by rewrite Hg).
  exists pre, ws, body, post. rewrite Hg1.
  split; [|done]. rewrite Hs, Heq. by rewrite <- !app_assoc.
Qed.

(** A block is found exactly when the text holds a well-formed one. *)
Lemma str_match_block_iff (label open close d : jsstring) :
  str_match d (labelled_block label open close) = None ↔ ¬ holds_block label open close d.
Proof.
  split.
  - intros Hnone (pre & ws & inner & post & -> & Hws).
    destruct (exec_from_complete (labelled_block label open close) 0 pre
                (label ++ ws ++ open ++ inner ++ close) post) as [m Hm].
    + exists label, (ws ++ open ++ inner ++ close). split; [done|]. split; [done|].
      exists ws, (open ++ inner ++ close). split; [done|]. split; [done|].
      exists open, (inner ++ close). split; [done|]. split; [done|].
      exists inner, close. split; [done|]. split; [apply forallb_dotAll|done].
    + unfold str_match in Hnone. rewrite <- !app_assoc in Hm. congruence.
  - intros Hno. destruct (str_match d _) as [m|] eqn:E; [exfalso|done].
    apply str_match_block_sound in E as (pre & ws & inner & post & Hd & Hws & Hg).
    apply Hno. exists pre, ws, inner, post. split; [|done].
    rewrite Hd, Hg. by rewrite <- !app_assoc.
Qed.

(** The description is found exactly when the text holds its label. *)
Lemma str_match_labelled_rest_iff (label d : jsstring) :
  str_match d (labelled_rest label) = None ↔ includes d label = false.
Proof.
  split.
  - intros Hnone. destruct (includes d label) eqn:Hin; [exfalso|done].
    unfold includes, indexOf in Hin. apply Z.leb_le in Hin.
    destruct (indexOf_from_found 0 d label) as (k & _ & _ & Hk & _); [lia|lia|].
    apply startsWith_inv in Hk as [rest Hrest].
    destruct (exec_from_complete (labelled_rest label) 0 (take k d) (label ++ rest) [])
      as [m Hm].
    + exists label, rest. split; [done|]. split; [done|].
      exists [], rest. split; [done|]. split; [done|]. apply forallb_dotAll.
    + unfold str_match in Hnone.
      rewrite app_nil_r, <- Hrest, take_drop in Hm. congruence.
  - intros Hin. apply str_match_labelled_rest_absent. intros j. by apply includes_false_inv.
Qed.

(** C5 (amended).  For every display text [d], the explanation is the
    text in front of whichever of the three labelled sections starts
    earliest, trimmed of the white space around it, and all of [d] when
    there is no section; a section starts at its label.  A section whose
    label is missing is absent.  A LaTeX or MathML section is absent
    exactly when [d] holds no well-formed block for it (the label, white
    space, and a text from the opening to the closing delimiter), so a
    label with a missing or an unclosed block yields no section; a block
    that is shown stands in [d] behind its label and runs from its
    opening to its closing delimiter.  The description is absent exactly
    when [d] does not hold its label.  Nothing raises an error.  In
    particular a display text that holds only a labelled LaTeX block
    (before it [pre], no MathML label and no description label) yields the
    explanation [pre] trimmed, the block as the LaTeX, and neither MathML
    nor description. *)
Theorem explanation_before_earliest_section (d pre ws body post : jsstring) :
  let only_latex := pre ++ LaTeX_label ++ ws ++ lit "$$" ++ body ++ lit "$$" ++ post in
  indexOf only_latex LaTeX_label = Z.of_nat (length pre) →
  forallb isWhiteSpace ws = true →
  indexOf (body ++ lit "$$") (lit "$$") = Z.of_nat (length body) →
  includes only_latex MathML_label = false →
  includes only_latex Plain_label = false →
  explanationText (renderSections d)
  = match earlier (earlier (sectionStart d LaTeX_re) (sectionStart d MathML_re))
            (sectionStart d Plain_re) with
    | Some i => trim (take i d)
    | None => d
    end
  ∧ (∀ i, sectionStart d LaTeX_re = Some i → startsWith LaTeX_label (drop i d) = true)
  ∧ (∀ i, sectionStart d MathML_re = Some i → startsWith MathML_label (drop i d) = true)
  ∧ (∀ i, sectionStart d Plain_re = Some i → startsWith Plain_label (drop i d) = true)
  ∧ (includes d LaTeX_label = false → latex (renderSections d) = None)
  ∧ (includes d MathML_label = false → mathml (renderSections d) = None)
  ∧ (includes d Plain_label = false → description (renderSections d) = None)
  ∧ (∀ b, latex (renderSections d) = Some b → ∃ inner, b = lit "$$" ++ inner ++ lit "$$")
  ∧ (∀ b, mathml (renderSections d) = Some b →
          ∃ inner, b = lit "<math" ++ inner ++ lit "</math>")
  ∧ (latex (renderSections d) = None
     ↔ ¬ holds_block LaTeX_label (lit "$$") (lit "$$") d)
  ∧ (mathml (renderSections d) = None
     ↔ ¬ holds_block MathML_label (lit "<math") (lit "</math>") d)
  ∧ (description (renderSections d) = None ↔ includes d Plain_label = false)
  ∧ (∀ b, latex (renderSections d) = Some b →
          ∃ p sp q, d = p ++ LaTeX_label ++ sp ++ b ++ q ∧ forallb isWhiteSpace sp = true)
  ∧ (∀ b, mathml (renderSections d) = Some b →
          ∃ p sp q, d = p ++ MathML_label ++ sp ++ b ++ q ∧ forallb isWhiteSpace sp = true)
  ∧ renderSections only_latex
    = {| explanationText := trim pre;
         latex := Some (lit "$$" ++ body ++ lit "$$");
         mathml := None;
         description := None |}.
Proof.
  intros only_latex Hlabel Hws Hclose Hmath Hplain.
  assert (Hstart : ∀ label r i, sectionStart d (rCat (rLit label) r) = Some i →
                     startsWith label (drop i d) = true).
  { intros label r i. unfold sectionStart.
    destruct (str_match d _) as [m|] eqn:E; [|done]. intros [= <-].
    by apply str_match_label_start in E as [E _]. }
  assert (Hmissing : ∀ t label r, includes t label = false →
                       str_match t (rCat (rLit label) r) = None).
  { intros t label r H. apply str_match_label_absent. intros j. by apply includes_false_inv. }
  assert (Hnone : ∀ (o : option MatchResult), group1 <$> o = None ↔ o = None)
    by (intros [m|]; by split).
  assert (Hin : ∀ label open close b,
            group1 <$> str_match d (labelled_block label open close) = Some b →
            ∃ p sp q, d = p ++ label ++ sp ++ b ++ q ∧ forallb isWhiteSpace sp = true).
  { intros label open close b. destruct (str_match d _) as [m|] eqn:E; [|done].
    intros [= <-]. apply str_match_block_sound in E as (p & sp & inner & q & Hd & Hsp & _).
    by exists p, sp, q. }
  split; [apply explanationText_spec|].
  split; [apply Hstart|]. split; [apply Hstart|]. split; [apply Hstart|].
  split; [intros H; cbn; unfold LaTeX_re; by rewrite Hmissing|].
  split; [intros H; cbn; unfold MathML_re; by rewrite Hmissing|].
  split; [intros H; cbn; unfold Plain_re; by rewrite Hmissing|].
  split; [intros b; apply (block_shape LaTeX_label)|].
  split; [intros b; apply (block_shape MathML_label)|].
  split; [cbn [latex renderSections]; rewrite Hnone;
          apply (str_match_block_iff LaTeX_label (lit "$$") (lit "$$"))|].
  split; [cbn [mathml renderSections]; rewrite Hnone;
          apply (str_match_block_iff MathML_label (lit "<math") (lit "</math>"))|].
  split; [cbn [description renderSections]; rewrite Hnone;
          apply (str_match_labelled_rest_iff Plain_label)|].
  split; [intros b; apply (Hin LaTeX_label (lit "$$") (lit "$$"))|].
  split; [intros b; apply (Hin MathML_label (lit "<math") (lit "</math>"))|].
  assert (Hl : str_match only_latex LaTeX_re
               = Some {| index := length pre;
                         matched := LaTeX_label ++ ws ++ lit "$$" ++ body ++ lit "$$";
                         groups := [lit "$$" ++ body ++ lit "$$"] |}).
  { apply (str_match_labelled_block_first LaTeX_label (lit "$$") (lit "$$"));
      [done|done| |done].
    intros x t [= <- _]. reflexivity. }
  assert (Hm : str_match only_latex MathML_re = None) by (by apply Hmissing).
  assert (Hp : str_match only_latex Plain_re = None) by (by apply Hmissing).
  rewrite (Rendered_eta (renderSections only_latex)), explanationText_spec.
  unfold sectionStart. cbn [latex mathml description renderSections].
  rewrite Hl, Hm, Hp. cbn [fmap option_fmap option_map earlier index]. rewrite group1_single.
  unfold only_latex. by rewrite take_app_length.
Qed.

Lemma explanation_before_earliest_section_witness :
  let pre := lit "Bayes' rule follows. " in
  let body := lit "P(A|B) = P(B|A) P(A) / P(B)" in
  let d := pre ++ LaTeX_label ++ lit " " ++ lit "$$" ++ body ++ lit "$$" ++ [] in
  indexOf d LaTeX_label = Z.of_nat (length pre)
  ∧ indexOf (body ++ lit "$$") (lit "$$") = Z.of_nat (length body)
  ∧ includes d MathML_label = false
  ∧ includes d Plain_label = false
  ∧ renderSections d
    = {| explanationText := lit "Bayes' rule follows.";
         latex := Some (lit "$$" ++ body ++ lit "$$");
         mathml := None;
         description := None |}.
Proof.
  intros pre body d.
  split; [reflexivity|]. split; [reflexivity|]. split; [reflexivity|]. split; [reflexivity|].
  pose proof (explanation_before_earliest_section d pre (lit " ") body []
                eq_refl eq_refl eq_refl eq_refl eq_refl)
    as (_ & _ & _ & _ & _ & _ & _ & _ & _ & _ & _ & _ & _ & _ & H).
  exact H.
Defined.

(** C5 as stated fails: in front of a section that follows a space, the
    explanation is not everything in front of the section. *)
Lemma explanation_before_earliest_section_counterexample :
  let d := lit "a LaTeX Formula: $$x$$" in
  displayContent d = d
  ∧ sectionStart d LaTeX_re = Some 2%nat
  ∧ sectionStart d MathML_re = None
  ∧ sectionStart d Plain_re = None
  ∧ take 2 d = lit "a "
  ∧ explanationText (renderSections d) = lit "a"
  ∧ explanationText (renderSections d) ≠ take 2 d.
Proof. vm_compute. repeat split; discriminate. Qed.

(** ** The session and the key status *)

Lemma comp_perform {A} (m : Act A) (sys : System) :
  comp (perform m sys).2 = exec_state m (comp sys).
Proof. unfold perform, exec_state. by destruct (m (comp sys)) as [[a st] es]. Qed.

(** Handlers that leave the session alone. *)
Ltac chat_untouched :=
  intros; act_unfold; cbn; repeat case_match; cbn; done.

Lemma chat_checkKeyManagementService w query st :
  chat (exec_state (checkKeyManagementService w query) st) = chat st.
Proof. unfold checkKeyManagementService. chat_untouched. Qed.

Lemma chat_handleSelectKey opened st :
  chat (exec_state (handleSelectKey opened) st) = chat st.
Proof. unfold handleSelectKey. chat_untouched. Qed.

Lemma chat_toggleVoiceMode w st :
  chat (exec_state (toggleVoiceMode w) st) = chat st.
Proof.
  unfold toggleVoiceMode. act_unfold. cbn.
  by destruct (isMadScientistVoiceOn st), (speechSynthesis w).
Qed.

Lemma chat_setInputValue v st : chat (exec_state (setInputValue v) st) = chat st.
Proof. chat_untouched. Qed.

Lemma chat_sendStart st : chat (exec_state sendStart st) = chat st.
Proof.
  unfold sendStart. act_unfold. cbn. destruct (chat st) as [c|] eqn:E; [|done].
  by destruct (negb (truthy (trim (inputValue st))) || isStreaming st).
Qed.

Lemma chat_onChunk chunkText st : chat (exec_state (onChunk chunkText) st) = chat st.
Proof. unfold onChunk. chat_untouched. Qed.


Lemma chat_onFinally w voiceOn st : chat (exec_state (onFinally w voiceOn) st) = chat st.
Proof.
  unfold exec_state. by destruct (onFinally_spec w voiceOn st) as (st' & -> & _ & _ & H & _).
Qed.








(** * Further properties of the component *)

(** ** What every reachable state satisfies *)

Lemma same_transcript_refl (st : State) : same_transcript st st.
Proof. by repeat split. Qed.

Lemma same_checkKeyManagementService w query st :
  same_transcript st (exec_state (checkKeyManagementService w query) st).
Proof.
  unfold checkKeyManagementService. destruct (aistudio w) as [a|]; [|by repeat split].
  destruct (hasSelectedApiKey_is_function a); [|by repeat split].
  destruct query as [[]|e]; by repeat split.
Qed.

Lemma same_handleSelectKey opened st :
  same_transcript st (exec_state (handleSelectKey opened) st).
Proof. destruct opened; by repeat split. Qed.

Lemma same_toggleVoiceMode w st :
  same_transcript st (exec_state (toggleVoiceMode w) st).
Proof.
  unfold toggleVoiceMode. act_unfold. cbn.
  destruct (isMadScientistVoiceOn st), (speechSynthesis w); by repeat split.
Qed.

Lemma same_setInputValue v st : same_transcript st (exec_state (setInputValue v) st).
Proof. by repeat split. Qed.

(** The invariant only looks at the transcript and at what is in flight. *)
Lemma in_flight_inv_same (sys sys' : System) :
  same_transcript (comp sys) (comp sys') → sending sys' = sending sys →
  in_flight_inv sys → in_flight_inv sys'.
Proof.
  intros (Hc & Hm & Hs & Hi & Hcur) Hsend. unfold in_flight_inv.
  by rewrite Hc, Hm, Hs, Hi, Hcur, Hsend.
Qed.

Lemma sending_perform {A} (m : Act A) (sys : System) :
  sending (perform m sys).2 = sending sys.
Proof. unfold perform. by destruct (m (comp sys)) as [[a st] es]. Qed.

Lemma initializeEffect_live w created st :
  is_Some (chat st) → initializeEffect w created st = (tt, st, []).
Proof.
  intros [c Hc]. unfold initializeEffect. act_unfold. cbn. rewrite Hc.
  rewrite (bool_decide_eq_false_2 (Some c = None)) by done. by rewrite andb_false_r.
Qed.

Lemma initializeEffect_idle w created st :
  keyStatus st ≠ ready ∨ isInitializing st = true →
  initializeEffect w created st = (tt, st, []).
Proof.
  intros H. unfold initializeEffect. act_unfold. cbn.
  destruct H as [H| ->].
  - by rewrite (bool_decide_eq_false_2 _ H).
  - by rewrite andb_false_r.
Qed.

Lemma initializeEffect_runs w created st :
  keyStatus st = ready → chat st = None → isInitializing st = false →
  initializeEffect w created st = initializeChat w created st.
Proof.
  intros Hk Hc Hi. unfold initializeEffect, mbind, Act_bind, get.
  rewrite Hk, Hc, Hi. rewrite !bool_decide_eq_true_2 by done. cbn.
  by destruct (initializeChat w created st) as [[[] st'] es].
Qed.

(** What [initializeChat] leaves, by the way the creation ends. *)
Lemma initializeChat_spec w created st :
  let st' := exec_state (initializeChat w created) st in
  isInitializing st' = false ∧ isStreaming st' = isStreaming st
  ∧ currentModelMessage st' = currentModelMessage st
  ∧ inputValue st' = inputValue st
  ∧ isMadScientistVoiceOn st' = isMadScientistVoiceOn st
  ∧ match created with
    | Fulfilled c =>
        chat st' = Some c ∧ keyStatus st' = keyStatus st ∧ keyError st' = None
        ∧ messages st' = [{| role := model; content := msg_initialized |}]
    | Rejected e =>
        chat st' = None
        ∧ match aistudio w with
          | Some _ => keyStatus st' = needed ∧ messages st' = messages st
          | None => keyStatus st' = keyStatus st ∧ keyError st' = None
                    ∧ messages st' = [{| role := model; content := msg_not_started |}]
          end
    end.
Proof.
  unfold initializeChat. act_unfold. cbn.
  destruct created as [c|e]; cbn; [done|].
  destruct (aistudio w); cbn; [|done].
  destruct (message e) as [m|]; cbn; [|done].
  by destruct (includes m _ || includes m _ || includes m _).
Qed.

Lemma not_accepted_rejected (st : State) :
  ¬ accepted st → sendStart st = (None, st, []).
Proof.
  intros Hrej. apply sendStart_rejected. unfold accepted in Hrej.
  destruct (truthy (trim (inputValue st))); [|by left].
  destruct (chat st); [|by right; left]. destruct (isStreaming st); [by right; right|].
  exfalso. apply Hrej. by eauto.
Qed.

(** The [catch] block, field by field. *)
Lemma onCatch_spec (st : State) :
  onCatch st
  = (tt,
     {| keyStatus := keyStatus st; isInitializing := isInitializing st;
        keyError := keyError st; chat := chat st;
        messages := set_last {| role := model; content := errorMessage |} (messages st);
        inputValue := inputValue st; isStreaming := isStreaming st;
        isMadScientistVoiceOn := isMadScientistVoiceOn st;
        currentModelMessage := errorMessage |},
     [ConsoleError (lit "Error sending message:")]).
Proof. reflexivity. Qed.

(** The [finally] block, field by field. *)
Lemma onFinally_state (w : Window) (voiceOn : bool) (st : State) :
  onFinally w voiceOn st
  = (tt,
     {| keyStatus := keyStatus st; isInitializing := isInitializing st;
        keyError := keyError st; chat := chat st; messages := messages st;
        inputValue := inputValue st; isStreaming := false;
        isMadScientistVoiceOn := isMadScientistVoiceOn st;
        currentModelMessage := currentModelMessage st |},
     narration w voiceOn (currentModelMessage st)).
Proof.
  unfold onFinally, narration. destruct voiceOn.
  - act_unfold. cbn. destruct (textToSpeak (currentModelMessage st)) as [t|]; [|done].
    rewrite speak_spec. by rewrite app_nil_r.
  - reflexivity.
Qed.

(** Replacing the last turn of a transcript that ends with a user turn and
    a model turn keeps its first turn. *)
Lemma head_kept (first u m m' : Message) (rest base : list Message) :
  role first = model → role u = user →
  first :: rest = base ++ [u; m] → ∃ rest', base ++ [u; m'] = first :: rest'.
Proof.
  intros Hf Hu H. destruct base as [|b base]; cbn in *.
  - injection H as -> _. congruence.
  - injection H as -> _. by eexists.
Qed.

Lemma set_last_two (x a b : Message) (base : list Message) :
  set_last x (base ++ [a; b]) = base ++ [a; x].
Proof.
  change (base ++ [a; b]) with (base ++ [a] ++ [b]).
  by rewrite app_assoc, set_last_snoc, <- app_assoc.
Qed.

Lemma in_flight_inv_initial : in_flight_inv initialSystem.
Proof.
  unfold in_flight_inv. cbn. split; [done|]. split; [done|].
  split; [done|]. split; intros [x Hx]; done.
Qed.

Lemma in_flight_live (sys : System) :
  in_flight_inv sys → is_Some (sending sys) → is_Some (chat (comp sys)).
Proof.
  intros (_ & _ & Hnone & _) [v Hv]. destruct (chat (comp sys)) as [c|]; [by eexists|].
  destruct (Hnone eq_refl) as [H _]. congruence.
Qed.

(** Every event keeps the invariant. *)
Lemma step_inv (w : Window) (sys sys' : System) (ev : Event) :
  in_flight_inv sys → step w sys ev = Some sys' → in_flight_inv sys'.
Proof.
  intros Hinv Hstep.
  assert (Hsome : ∀ x y : System, Some x = Some y → x = y) by (by intros x y [= ->]).
  assert (Hframe : ∀ (m : Act unit),
             same_transcript (comp sys) (exec_state m (comp sys)) →
             in_flight_inv (perform m sys).2).
  { intros m Hm. apply (in_flight_inv_same sys); [|apply sending_perform|done].
    by rewrite comp_perform. }
  destruct ev; cbn [step] in Hstep.
  - destruct (keyCheckPending sys); [|done]. apply Hsome in Hstep. subst sys'.
    apply (Hframe _ (same_checkKeyManagementService w query (comp sys))).
  - apply Hsome in Hstep. subst sys'.
    destruct (chat (comp sys)) as [c|] eqn:Hc.
    { apply Hframe. unfold exec_state.
      rewrite initializeEffect_live by (by rewrite Hc). apply same_transcript_refl. }
    destruct Hinv as (Hs & Hi & Hnone & Hlive & Hfl).
    destruct (Hnone Hc) as [Hsend Hall].
    destruct (decide (keyStatus (comp sys) = ready)) as [Hk|Hk].
    2:{ apply Hframe. unfold exec_state.
        rewrite initializeEffect_idle by (by left). apply same_transcript_refl. }
    pose proof (initializeChat_spec w created (comp sys)) as Hspec. cbn zeta in Hspec.
    assert (Heq : exec_state (initializeChat w created) (comp sys)
                  = comp (perform (initializeEffect w created) sys).2)
      by (rewrite comp_perform; unfold exec_state; by rewrite initializeEffect_runs).
    rewrite Heq in Hspec. clear Heq.
    pose proof (sending_perform (initializeEffect w created) sys) as Hsend'.
    destruct Hspec as (Hi' & Hs' & Hcur' & _ & _ & Hcase).
    unfold in_flight_inv. rewrite Hi', Hs', Hsend', Hsend.
    split; [by rewrite Hs, Hsend|]. split; [done|].
    destruct created as [c|e].
    + destruct Hcase as (Hc' & _ & _ & Hm'). rewrite Hc', Hm'.
      split; [done|]. split; [|by intros [x Hx]].
      intros _. split; [by eexists|]. by exists [], {| role := model; content := msg_initialized |}.
    + destruct Hcase as (Hc' & Hcase). rewrite Hc'.
      split; [|split; intros [x Hx]; done]. intros _. split; [done|].
      destruct (aistudio w); [by destruct Hcase as [_ ->]|].
      destruct Hcase as (_ & _ & ->). by repeat constructor.
  - apply Hsome in Hstep. by subst sys'.
  - destruct (selectKeyPending sys); [done|]. apply Hsome in Hstep. subst sys'.
    apply (Hframe _ (same_handleSelectKey opened (comp sys))).
  - apply Hsome in Hstep. subst sys'.
    apply (Hframe _ (same_toggleVoiceMode w (comp sys))).
  - apply Hsome in Hstep. subst sys'.
    apply (Hframe _ (same_setInputValue v (comp sys))).
  - destruct (decide (accepted (comp sys))) as [Hacc|Hrej].
    + pose proof Hacc as (_ & [c Hc] & Hnot).
      unfold perform in Hstep. rewrite (sendStart_accepted _ c Hacc Hc) in Hstep.
      apply Hsome in Hstep. subst sys'.
      destruct Hinv as (Hs & Hi & Hnone & Hlive & Hfl).
      unfold in_flight_inv. cbn. rewrite Hc.
      split; [done|]. split; [done|]. split; [done|]. split.
      * intros _. destruct (Hlive ltac:(by rewrite Hc)) as [[rest ->] _].
        split; [by eexists|].
        eexists (_ ++ [_]), {| role := model; content := [] |}.
        split; [|done]. by rewrite <- app_assoc.
      * intros _. by exists (messages (comp sys)), (inputValue (comp sys)).
    + unfold perform in Hstep. rewrite (not_accepted_rejected _ Hrej) in Hstep.
      apply Hsome in Hstep. subst sys'.
      apply (in_flight_inv_same sys); [apply same_transcript_refl|done|done].
  - destruct (sending sys) as [voiceOn|] eqn:Hsend; [|done].
    apply Hsome in Hstep. subst sys'.
    pose proof (in_flight_live sys Hinv ltac:(by rewrite Hsend)) as [c Hc].
    destruct Hinv as (Hs & Hi & Hnone & Hlive & Hfl).
    rewrite Hsend in Hs. cbn in Hs.
    destruct (Hfl ltac:(by rewrite Hsend)) as (base & u & Hm).
    destruct (Hlive ltac:(by rewrite Hc)) as [[rest Hhead] _].
    assert (Hinto : streaming_into (base ++ [{| role := user; content := u |}]) (comp sys))
      by (unfold streaming_into; by rewrite <- app_assoc).
    unfold perform. rewrite (onChunk_streaming _ chunkText _ Hinto).
    unfold in_flight_inv. cbn. rewrite Hc, Hsend, app_nil_r.
    split; [done|]. split; [done|]. split; [done|]. split.
    * intros _. split; [|by eexists _, _].
      rewrite Hm in Hhead. rewrite <- app_assoc. cbn. by eapply head_kept.
    * intros _. eexists _, _. by rewrite <- app_assoc.
  - destruct (sending sys) as [voiceOn|] eqn:Hsend; [|done].
    apply Hsome in Hstep. subst sys'.
    pose proof (in_flight_live sys Hinv ltac:(by rewrite Hsend)) as [c Hc].
    destruct Hinv as (Hs & Hi & Hnone & Hlive & Hfl).
    destruct (Hfl ltac:(by rewrite Hsend)) as (base & u & Hm).
    destruct (Hlive ltac:(by rewrite Hc)) as [[rest Hhead] _].
    unfold perform, mbind, Act_bind. rewrite onCatch_spec, onFinally_state.
    unfold in_flight_inv. cbn. rewrite Hc, Hm, set_last_two.
    split; [done|]. split; [done|]. split; [done|]. split.
    * intros _. split.
      -- rewrite Hm in Hhead. by eapply head_kept.
      -- eexists (base ++ [_]), _. split; [by rewrite <- app_assoc|done].
    * by intros [x Hx].
  - destruct (sending sys) as [voiceOn|] eqn:Hsend; [|done].
    apply Hsome in Hstep. subst sys'.
    pose proof (in_flight_live sys Hinv ltac:(by rewrite Hsend)) as [c Hc].
    destruct Hinv as (Hs & Hi & Hnone & Hlive & Hfl).
    unfold perform. rewrite onFinally_state.
    unfold in_flight_inv. cbn. rewrite Hc.
    split; [done|]. split; [done|]. split; [done|]. split.
    * intros _. apply Hlive. by rewrite Hc.
    * by intros [x Hx].
Qed.

Lemma run_inv (w : Window) (evs : list Event) (sys sys' : System) :
  in_flight_inv sys → run w sys evs = Some sys' → in_flight_inv sys'.
Proof.
  revert sys. induction evs as [|ev rest IH]; intros sys Hinv Hrun; cbn in Hrun.
  - by injection Hrun as <-.
  - destruct (step w sys ev) as [sys1|] eqn:Hstep; [|done].
    apply (IH sys1); [by eapply step_inv|done].
Qed.

Lemma reachable_inv (w : Window) (sys : System) : reachable w sys → in_flight_inv sys.
Proof. intros [evs Hrun]. by eapply run_inv; [apply in_flight_inv_initial|]. Qed.

(** X1.  In every reachable state [isStreaming] is true exactly while a
    [handleSendMessage] waits for its stream: the flag is raised when the
    stream is opened, dropped by the [finally] block, and no second
    submission gets past the guard in between. *)
Theorem streaming_iff_in_flight (w : Window) (sys : System) :
  reachable w sys →
  (isStreaming (comp sys) = true ↔ is_Some (sending sys)).
Proof.
  intros (Hs & _)%reachable_inv. rewrite Hs. apply bool_decide_eq_true.
Qed.

Lemma streaming_iff_in_flight_witness :
  let w := {| aistudio := None; speechSynthesis := true |} in
  let evs := [KeyCheckSettles (Fulfilled true); EffectRuns (Fulfilled (ChatHandle 0));
              InputChanged (lit "hi"); FormSubmitted; ChunkArrives (Some (lit "a"))] in
  ∃ sys, run w initialSystem evs = Some sys
    ∧ (isStreaming (comp sys) = true ↔ is_Some (sending sys)).
Proof.
  intros w evs. eexists. split; [vm_compute; reflexivity|].
  apply (streaming_iff_in_flight w). exists evs. vm_compute. reflexivity.
Defined.

(** X2.  In every reachable state in which a reply is in flight there is
    a session, and the transcript ends with the user turn and the model
    turn that shows the accumulator, whatever else happened since the
    submission (typing, voice toggles, key dialogs, the effect). *)
Theorem trailing_turn_while_in_flight (w : Window) (sys : System) :
  reachable w sys → is_Some (sending sys) →
  is_Some (chat (comp sys))
  ∧ ∃ base u, messages (comp sys)
              = base ++ [{| role := user; content := u |};
                         {| role := model; content := currentModelMessage (comp sys) |}].
Proof.
  intros Hinv%reachable_inv Hsend. split; [by apply in_flight_live|].
  destruct Hinv as (_ & _ & _ & _ & Hfl). by apply Hfl.
Qed.

Lemma trailing_turn_while_in_flight_witness :
  let w := {| aistudio := None; speechSynthesis := true |} in
  let evs := [KeyCheckSettles (Fulfilled true); EffectRuns (Fulfilled (ChatHandle 0));
              InputChanged (lit "hi"); FormSubmitted; ChunkArrives (Some (lit "a"));
              VoiceToggled; InputChanged (lit "next"); ChunkArrives (Some (lit "b"))] in
  ∃ sys, run w initialSystem evs = Some sys
    ∧ is_Some (sending sys)
    ∧ is_Some (chat (comp sys))
    ∧ ∃ base u, messages (comp sys)
                = base ++ [{| role := user; content := u |};
                           {| role := model; content := currentModelMessage (comp sys) |}].
Proof.
  intros w evs. eexists. split; [vm_compute; reflexivity|].
  split; [by eexists|].
  apply (trailing_turn_while_in_flight w); [|by eexists].
  exists evs. vm_compute. reflexivity.
Defined.

(** X3.  In every reachable state with a session the transcript starts
    with the confirmation turn that [initializeChat] seeded and ends with
    a model turn. *)
Theorem confirmation_turn_stays_first (w : Window) (sys : System) :
  reachable w sys → is_Some (chat (comp sys)) →
  (∃ rest, messages (comp sys) = {| role := model; content := msg_initialized |} :: rest)
  ∧ ∃ base m, messages (comp sys) = base ++ [m] ∧ role m = model.
Proof. intros (_ & _ & _ & Hlive & _)%reachable_inv Hc. by apply Hlive. Qed.

Lemma confirmation_turn_stays_first_witness :
  let w := {| aistudio := None; speechSynthesis := true |} in
  let evs := [KeyCheckSettles (Fulfilled true); EffectRuns (Fulfilled (ChatHandle 0));
              InputChanged (lit "hi"); FormSubmitted; StreamThrew] in
  ∃ sys, run w initialSystem evs = Some sys
    ∧ is_Some (chat (comp sys))
    ∧ (∃ rest, messages (comp sys) = {| role := model; content := msg_initialized |} :: rest)
    ∧ ∃ base m, messages (comp sys) = base ++ [m] ∧ role m = model.
Proof.
  intros w evs. eexists. split; [vm_compute; reflexivity|].
  split; [by eexists|].
  apply (confirmation_turn_stays_first w); [|by eexists].
  exists evs. vm_compute. reflexivity.
Defined.

(** A step keeps a live session as it is. *)
Lemma step_keeps_session (w : Window) (sys sys' : System) (ev : Event) (c : Chat) :
  step w sys ev = Some sys' → chat (comp sys) = Some c → chat (comp sys') = Some c.
Proof.
  assert (Hsome : ∀ x y : System, Some x = Some y → x = y) by (by intros x y [= ->]).
  destruct ev; cbn [step]; intros Hstep Hc.
  - destruct (keyCheckPending sys); [|done]. apply Hsome in Hstep. subst sys'.
    change (comp (with_keyCheckPending _ ?s)) with (comp s).
    by rewrite comp_perform, chat_checkKeyManagementService.
  - apply Hsome in Hstep. subst sys'. rewrite comp_perform. unfold exec_state.
    by rewrite initializeEffect_live by (by rewrite Hc).
  - apply Hsome in Hstep. by subst sys'.
  - destruct (selectKeyPending sys); [done|]. apply Hsome in Hstep. subst sys'.
    change (comp (with_selectKeyPending _ ?s)) with (comp s).
    by rewrite comp_perform, chat_handleSelectKey.
  - apply Hsome in Hstep. subst sys'. by rewrite comp_perform, chat_toggleVoiceMode.
  - apply Hsome in Hstep. subst sys'. by rewrite comp_perform, chat_setInputValue.
  - pose proof (comp_perform sendStart sys) as Hp.
    destruct (perform sendStart sys) as [started sys1]. cbn [snd] in Hp.
    assert (comp sys' = comp sys1) as Hsame
      by (destruct started; apply Hsome in Hstep; by subst sys').
    by rewrite Hsame, Hp, chat_sendStart.
  - destruct (sending sys); [|done]. apply Hsome in Hstep. subst sys'.
    by rewrite comp_perform, chat_onChunk.
  - destruct (sending sys) as [voiceOn|]; [|done]. apply Hsome in Hstep. subst sys'.
    change (comp (with_sending _ ?s)) with (comp s).
    unfold perform, mbind, Act_bind. by rewrite onCatch_spec, onFinally_state.
  - destruct (sending sys) as [voiceOn|]; [|done]. apply Hsome in Hstep. subst sys'.
    change (comp (with_sending _ ?s)) with (comp s).
    by rewrite comp_perform, chat_onFinally.
Qed.

(** X4.  A session, once it is live, stays the same session over every
    sequence of events: nothing drops it and the effect never makes a
    second one, whatever the key status becomes. *)
Theorem session_persists (w : Window) (evs : list Event) (sys sys' : System) (c : Chat) :
  chat (comp sys) = Some c → run w sys evs = Some sys' → chat (comp sys') = Some c.
Proof.
  revert sys. induction evs as [|ev rest IH]; intros sys Hc Hrun; cbn in Hrun.
  - by injection Hrun as <-.
  - destruct (step w sys ev) as [sys1|] eqn:Hstep; [|done].
    apply (IH sys1); [by eapply step_keeps_session|done].
Qed.

Lemma session_persists_witness :
  let w := {| aistudio := Some {| hasSelectedApiKey_is_function := true |};
              speechSynthesis := true |} in
  let before := [KeyCheckSettles (Fulfilled false); SelectKeyClicked; SelectKeyClicked;
                 SelectKeySettles (Fulfilled tt); EffectRuns (Fulfilled (ChatHandle 1))] in
  let after := [SelectKeySettles (Rejected {| message := None |}); SelectKeyClicked;
                SelectKeySettles (Fulfilled tt); EffectRuns (Fulfilled (ChatHandle 2))] in
  ∃ sys sys', run w initialSystem before = Some sys
    ∧ chat (comp sys) = Some (ChatHandle 1)
    ∧ run w sys after = Some sys'
    ∧ chat (comp sys') = Some (ChatHandle 1).
Proof.
  intros w before after.
  let r := eval vm_compute in (run w initialSystem before) in
  match r with Some ?s => pose (sys := s) end.
  let r := eval vm_compute in (run w sys after) in
  match r with Some ?s => pose (sys' := s) end.
  exists sys, sys'.
  split; [vm_compute; reflexivity|]. split; [reflexivity|].
  split; [vm_compute; reflexivity|].
  apply (session_persists w after sys sys'); [reflexivity|vm_compute; reflexivity].
Defined.

(** How one event changes the transcript of a live session: not at all,
    by appending a user turn and an empty model turn, or by replacing the
    trailing model turn by a model turn. *)
Lemma step_transcript (w : Window) (sys sys' : System) (ev : Event) :
  in_flight_inv sys → step w sys ev = Some sys' → is_Some (chat (comp sys)) →
  messages (comp sys') = messages (comp sys)
  ∨ messages (comp sys')
    = messages (comp sys) ++ [{| role := user; content := inputValue (comp sys) |};
                              {| role := model; content := [] |}]
  ∨ ∃ base m m', messages (comp sys) = base ++ [m] ∧ messages (comp sys') = base ++ [m']
                 ∧ role m = model ∧ role m' = model.
Proof.
  intros Hinv Hstep Hlive.
  assert (Hsome : ∀ x y : System, Some x = Some y → x = y) by (by intros x y [= ->]).
  assert (Hframe : ∀ (m : Act unit),
             same_transcript (comp sys) (exec_state m (comp sys)) →
             messages (comp (perform m sys).2) = messages (comp sys)).
  { intros m (_ & Hm & _). by rewrite comp_perform. }
  destruct ev; cbn [step] in Hstep.
  - destruct (keyCheckPending sys); [|done]. apply Hsome in Hstep. subst sys'. left.
    apply (Hframe _ (same_checkKeyManagementService w query (comp sys))).
  - apply Hsome in Hstep. subst sys'. left. rewrite comp_perform. unfold exec_state.
    by rewrite initializeEffect_live.
  - apply Hsome in Hstep. subst sys'. by left.
  - destruct (selectKeyPending sys); [done|]. apply Hsome in Hstep. subst sys'. left.
    apply (Hframe _ (same_handleSelectKey opened (comp sys))).
  - apply Hsome in Hstep. subst sys'. left.
    apply (Hframe _ (same_toggleVoiceMode w (comp sys))).
  - apply Hsome in Hstep. subst sys'. left.
    apply (Hframe _ (same_setInputValue v (comp sys))).
  - destruct (decide (accepted (comp sys))) as [Hacc|Hrej].
    + pose proof Hacc as (_ & [c Hc] & Hnot).
      unfold perform in Hstep. rewrite (sendStart_accepted _ c Hacc Hc) in Hstep.
      apply Hsome in Hstep. subst sys'. by right; left.
    + unfold perform in Hstep. rewrite (not_accepted_rejected _ Hrej) in Hstep.
      apply Hsome in Hstep. subst sys'. by left.
  - destruct (sending sys) as [voiceOn|] eqn:Hsend; [|done].
    apply Hsome in Hstep. subst sys'.
    destruct Hinv as (_ & _ & _ & _ & Hfl).
    destruct (Hfl ltac:(by rewrite Hsend)) as (base & u & Hm).
    assert (Hinto : streaming_into (base ++ [{| role := user; content := u |}]) (comp sys))
      by (unfold streaming_into; by rewrite <- app_assoc).
    unfold perform. rewrite (onChunk_streaming _ chunkText _ Hinto). cbn.
    right; right. eexists _, _, _. split; [exact Hinto|]. by split.
  - destruct (sending sys) as [voiceOn|] eqn:Hsend; [|done].
    apply Hsome in Hstep. subst sys'.
    destruct Hinv as (_ & _ & _ & _ & Hfl).
    destruct (Hfl ltac:(by rewrite Hsend)) as (base & u & Hm).
    unfold perform, mbind, Act_bind. rewrite onCatch_spec, onFinally_state. cbn.
    rewrite Hm, set_last_two.
    right; right. eexists (base ++ [_]), _, _.
    split; [by rewrite <- app_assoc|]. split; [by rewrite <- app_assoc|done].
  - destruct (sending sys) as [voiceOn|] eqn:Hsend; [|done].
    apply Hsome in Hstep. subst sys'. left.
    unfold perform. by rewrite onFinally_state.
Qed.

Lemma userContents_app (a b : list Message) :
  userContents (a ++ b) = userContents a ++ userContents b.
Proof. unfold userContents. by rewrite filter_app, fmap_app. Qed.

Lemma userContents_model (m : Message) : role m = model → userContents [m] = [].
Proof.
  intros H. unfold userContents. rewrite filter_cons_False; [done|]. by rewrite H.
Qed.

(** X5.  While a session is live the transcript only grows at its end:
    over every sequence of events from a reachable state it never gets
    shorter, every turn but the trailing one keeps its place and its
    content, and the user turns are only ever added to. *)
Theorem earlier_turns_never_change (w : Window) (evs : list Event) (sys sys' : System) :
  reachable w sys → is_Some (chat (comp sys)) → run w sys evs = Some sys' →
  (length (messages (comp sys)) ≤ length (messages (comp sys')))%nat
  ∧ (∀ i m, (S i < length (messages (comp sys)))%nat →
            messages (comp sys) !! i = Some m → messages (comp sys') !! i = Some m)
  ∧ userContents (messages (comp sys)) `prefix_of` userContents (messages (comp sys')).
Proof.
  intros Hinv%reachable_inv. revert sys Hinv.
  induction evs as [|ev rest IH]; intros sys Hinv Hlive Hrun; cbn in Hrun.
  - injection Hrun as <-. done.
  - destruct (step w sys ev) as [sys1|] eqn:Hstep; [|done].
    pose proof (step_inv w sys sys1 ev Hinv Hstep) as Hinv1.
    assert (Hlive1 : is_Some (chat (comp sys1))).
    { destruct Hlive as [c Hc]. exists c. by eapply step_keeps_session. }
    destruct (IH sys1 Hinv1 Hlive1 Hrun) as (Hlen & Hkeep & Hpre).
    assert (Hone : (length (messages (comp sys)) ≤ length (messages (comp sys1)))%nat
      ∧ (∀ i m, (S i < length (messages (comp sys)))%nat →
                messages (comp sys) !! i = Some m → messages (comp sys1) !! i = Some m)
      ∧ userContents (messages (comp sys)) `prefix_of` userContents (messages (comp sys1))).
    { destruct (step_transcript w sys sys1 ev Hinv Hstep Hlive)
        as [->|[->|(base & m & m' & -> & -> & Hm & Hm')]].
      - done.
      - rewrite length_app. split; [lia|]. split.
        + intros i m Hi Hlook. by apply lookup_app_l_Some.
        + rewrite userContents_app. by apply prefix_app_r.
      - rewrite !length_app. cbn. split; [lia|]. split.
        + intros i x Hi Hlook.
          rewrite lookup_app_l in Hlook by lia. by apply lookup_app_l_Some.
        + by rewrite !userContents_app, !userContents_model. }
    destruct Hone as (Hlen1 & Hkeep1 & Hpre1).
    split; [lia|]. split; [|by etrans].
    intros i m Hi Hlook. apply Hkeep; [lia|]. by apply Hkeep1.
Qed.

Lemma earlier_turns_never_change_witness :
  let w := {| aistudio := None; speechSynthesis := true |} in
  let before := [KeyCheckSettles (Fulfilled true); EffectRuns (Fulfilled (ChatHandle 0));
                 InputChanged (lit "one"); FormSubmitted; ChunkArrives (Some (lit "1"));
                 StreamEnded] in
  let after := [InputChanged (lit "two"); FormSubmitted; ChunkArrives (Some (lit "2"));
                StreamThrew] in
  ∃ sys sys', run w initialSystem before = Some sys
    ∧ run w sys after = Some sys'
    ∧ userContents (messages (comp sys)) = [lit "one"]
    ∧ userContents (messages (comp sys')) = [lit "one"; lit "two"]
    ∧ userContents (messages (comp sys)) `prefix_of` userContents (messages (comp sys')).
Proof.
  intros w before after.
  let r := eval vm_compute in (run w initialSystem before) in
  match r with Some ?s => pose (sys := s) end.
  let r := eval vm_compute in (run w sys after) in
  match r with Some ?s => pose (sys' := s) end.
  exists sys, sys'.
  split; [vm_compute; reflexivity|]. split; [vm_compute; reflexivity|].
  split; [reflexivity|]. split; [reflexivity|].
  apply (earlier_turns_never_change w after sys sys').
  - exists before. vm_compute. reflexivity.
  - by eexists.
  - vm_compute. reflexivity.
Defined.

(** X6.  [initializeChat] contains no [await], so it raises and drops
    [isInitializing] within one step: in every reachable state the flag
    is false and [renderChatInterface] shows the transcript, never the
    pane that says it is connecting. *)
Theorem connecting_pane_never_shown (w : Window) (sys : System) :
  reachable w sys →
  isInitializing (comp sys) = false
  ∧ ∃ form, renderChatInterface (comp sys)
            = ChatView (Bubbles (imap (renderMessage (comp sys)) (messages (comp sys)))) form.
Proof.
  intros (_ & Hi & _)%reachable_inv. split; [done|].
  unfold renderChatInterface. rewrite Hi. by eexists.
Qed.

Lemma connecting_pane_never_shown_witness :
  let w := {| aistudio := Some {| hasSelectedApiKey_is_function := true |};
              speechSynthesis := true |} in
  let evs := [KeyCheckSettles (Fulfilled true);
              EffectRuns (Rejected {| message := Some (lit "permission denied") |});
              SelectKeyClicked; SelectKeySettles (Fulfilled tt);
              EffectRuns (Fulfilled (ChatHandle 0))] in
  ∃ sys, run w initialSystem evs = Some sys ∧ isInitializing (comp sys) = false.
Proof.
  intros w evs. eexists. split; [vm_compute; reflexivity|].
  apply (connecting_pane_never_shown w). exists evs. vm_compute. reflexivity.
Defined.

Lemma step_error_inv (w : Window) (sys sys' : System) (ev : Event) :
  error_inv (comp sys) → step w sys ev = Some sys' → error_inv (comp sys').
Proof.
  intros Hinv Hstep.
  assert (Hsome : ∀ x y : System, Some x = Some y → x = y) by (by intros x y [= ->]).
  destruct ev; cbn [step] in Hstep.
  - destruct (keyCheckPending sys); [|done]. apply Hsome in Hstep. subst sys'.
    change (comp (with_keyCheckPending _ ?s)) with (comp s). rewrite comp_perform.
    unfold checkKeyManagementService, error_inv.
    destruct (aistudio w) as [a|]; [|done].
    destruct (hasSelectedApiKey_is_function a); [|done].
    by destruct query as [[]|e].
  - apply Hsome in Hstep. subst sys'. rewrite comp_perform.
    destruct (chat (comp sys)) as [c|] eqn:Hc.
    { unfold exec_state. by rewrite initializeEffect_live by (by rewrite Hc). }
    destruct (decide (keyStatus (comp sys) = ready)) as [Hk|Hk].
    2:{ unfold exec_state. by rewrite initializeEffect_idle by (by left). }
    destruct (isInitializing (comp sys)) eqn:Hi.
    { unfold exec_state. by rewrite initializeEffect_idle by (by right). }
    unfold exec_state. rewrite (initializeEffect_runs w created _ Hk Hc Hi).
    pose proof (initializeChat_spec w created (comp sys)) as Hspec. cbn zeta in Hspec.
    unfold exec_state in Hspec. destruct Hspec as (_ & _ & _ & _ & _ & Hcase).
    unfold error_inv. intros Herr. exfalso.
    destruct created as [c|e].
    + destruct Hcase as (_ & Hk' & _). congruence.
    + destruct Hcase as (_ & Hcase). destruct (aistudio w).
      * destruct Hcase as [Hk' _]. congruence.
      * destruct Hcase as (Hk' & _). congruence.
  - apply Hsome in Hstep. by subst sys'.
  - destruct (selectKeyPending sys); [done|]. apply Hsome in Hstep. subst sys'.
    change (comp (with_selectKeyPending _ ?s)) with (comp s). rewrite comp_perform.
    by destruct opened.
  - apply Hsome in Hstep. subst sys'. rewrite comp_perform.
    unfold toggleVoiceMode. act_unfold. cbn.
    by destruct (isMadScientistVoiceOn (comp sys)), (speechSynthesis w).
  - apply Hsome in Hstep. by subst sys'.
  - destruct (decide (accepted (comp sys))) as [Hacc|Hrej].
    + pose proof Hacc as (_ & [c Hc] & Hnot).
      unfold perform in Hstep. rewrite (sendStart_accepted _ c Hacc Hc) in Hstep.
      apply Hsome in Hstep. by subst sys'.
    + unfold perform in Hstep. rewrite (not_accepted_rejected _ Hrej) in Hstep.
      apply Hsome in Hstep. by subst sys'.
  - destruct (sending sys) as [voiceOn|]; [|done]. apply Hsome in Hstep. by subst sys'.
  - destruct (sending sys) as [voiceOn|]; [|done]. apply Hsome in Hstep. subst sys'.
    change (comp (with_sending _ ?s)) with (comp s).
    unfold perform, mbind, Act_bind. by rewrite onCatch_spec, onFinally_state.
  - destruct (sending sys) as [voiceOn|]; [|done]. apply Hsome in Hstep. subst sys'.
    change (comp (with_sending _ ?s)) with (comp s).
    unfold perform. by rewrite onFinally_state.
Qed.

Lemma run_error_inv (w : Window) (evs : list Event) (sys sys' : System) :
  error_inv (comp sys) → run w sys evs = Some sys' → error_inv (comp sys').
Proof.
  revert sys. induction evs as [|ev rest IH]; intros sys Hinv Hrun; cbn in Hrun.
  - by injection Hrun as <-.
  - destruct (step w sys ev) as [sys1|] eqn:Hstep; [|done].
    apply (IH sys1); [by eapply step_error_inv|done].
Qed.

(** X7.  In every reachable state whose key status is [error], the view
    shows that the key service could not be reached: the status is only
    ever set together with that message, and the text for an unknown
    error is never shown. *)
Theorem error_view_shows_key_service_message (w : Window) (sys : System) :
  reachable w sys → keyStatus (comp sys) = error →
  renderContent (comp sys)
  = ErrorView (lit "Could not connect to the API key service. Please reload.").
Proof.
  intros [evs Hrun] Herr.
  assert (Hinv : error_inv (comp sys)) by (by eapply run_error_inv; [|exact Hrun]).
  unfold renderContent. by rewrite Herr, (Hinv Herr).
Qed.

Lemma error_view_shows_key_service_message_witness :
  let w := {| aistudio := Some {| hasSelectedApiKey_is_function := true |};
              speechSynthesis := true |} in
  let evs := [SelectKeyClicked; VoiceToggled;
              KeyCheckSettles (Rejected {| message := None |})] in
  ∃ sys, run w initialSystem evs = Some sys
    ∧ keyStatus (comp sys) = error
    ∧ renderContent (comp sys)
      = ErrorView (lit "Could not connect to the API key service. Please reload.").
Proof.
  intros w evs. eexists. split; [vm_compute; reflexivity|]. split; [reflexivity|].
  apply (error_view_shows_key_service_message w); [|reflexivity].
  exists evs. vm_compute. reflexivity.
Defined.

(** X8.  In every reachable state in which a reply is in flight, the
    transcript pane shows the streaming cursor on its last bubble, which
    is a model bubble, and on no other. *)
Theorem cursor_on_last_bubble (w : Window) (sys : System) :
  reachable w sys → is_Some (sending sys) →
  ∃ bs b form,
    renderChatInterface (comp sys) = ChatView (Bubbles (bs ++ [b])) form
    ∧ cursor b = true ∧ who b = model
    ∧ Forall (λ x, cursor x = false) bs.
Proof.
  intros Hinv%reachable_inv Hsend.
  destruct Hinv as (Hs & Hi & _ & _ & Hfl).
  destruct (Hfl Hsend) as (base & u & Hm).
  rewrite (bool_decide_eq_true_2 _ Hsend) in Hs.
  unfold renderChatInterface. rewrite Hi.
  change (base ++ [?a; ?b]) with (base ++ [a] ++ [b]) in Hm. rewrite app_assoc in Hm.
  rewrite Hm, imap_app. cbn [imap].
  eexists _, _, _. split; [reflexivity|]. split; [|split; [done|]].
  - cbn. rewrite Hs, Hm, !length_app. cbn.
    rewrite bool_decide_eq_true_2 by done. apply bool_decide_eq_true_2. lia.
  - apply Forall_lookup. intros i x Hx.
    rewrite list_lookup_imap in Hx.
    destruct ((base ++ [{| role := user; content := u |}]) !! i) as [m|] eqn:Hlook; [|done].
    injection Hx as <-. apply lookup_lt_Some in Hlook.
    cbn. rewrite Hm, length_app. cbn.
    rewrite (bool_decide_eq_false_2 (Z.of_nat i = _)); [by rewrite andb_false_r|]. lia.
Qed.

Lemma cursor_on_last_bubble_witness :
  let w := {| aistudio := None; speechSynthesis := true |} in
  let evs := [KeyCheckSettles (Fulfilled true); EffectRuns (Fulfilled (ChatHandle 0));
              InputChanged (lit "hi"); FormSubmitted; ChunkArrives (Some (lit "a"))] in
  ∃ sys, run w initialSystem evs = Some sys
    ∧ is_Some (sending sys)
    ∧ ∃ bs b form,
        renderChatInterface (comp sys) = ChatView (Bubbles (bs ++ [b])) form
        ∧ cursor b = true ∧ who b = model
        ∧ Forall (λ x, cursor x = false) bs.
Proof.
  intros w evs. eexists. split; [vm_compute; reflexivity|]. split; [by eexists|].
  apply (cursor_on_last_bubble w); [|by eexists].
  exists evs. vm_compute. reflexivity.
Defined.

(** X9.  The Send button is enabled exactly when the guard of
    [handleSendMessage] lets the submission through and no initialization
    is under way; a submission made with the button enabled is therefore
    never dropped.  In the simpler variant the button is enabled exactly
    when the guard lets the submission through. *)
Theorem send_button_enabled_iff_accepted (st : State) (sst : Simple.State) :
  (∀ pane form, renderChatInterface st = ChatView pane form →
     (sendDisabled form = false ↔ accepted st ∧ isInitializing st = false)
     ∧ (sendDisabled form = false →
        ∃ c, sendStart st = (Some (isMadScientistVoiceOn st), started st,
                             [SendMessageStream c (messageToSend st)]))
     ∧ (inputDisabled form = false → is_Some (chat st) ∧ isStreaming st = false))
  ∧ (Simple.sendDisabled sst = false ↔ is_Some (Simple.sendStart sst).2).
Proof.
  split.
  - intros pane form [= _ <-]. cbn [sendDisabled inputDisabled].
    assert (Hiff : negb (bool_decide (is_Some (chat st))) || isStreaming st
                   || negb (truthy (trim (inputValue st))) || isInitializing st = false
                   ↔ accepted st ∧ isInitializing st = false).
    { unfold accepted. rewrite !orb_false_iff, !negb_false_iff, bool_decide_eq_true. tauto. }
    split; [done|]. split.
    + intros [Hacc _]%Hiff. pose proof Hacc as (_ & [c Hc] & _).
      exists c. by apply sendStart_accepted.
    + rewrite !orb_false_iff, !negb_false_iff, bool_decide_eq_true. tauto.
  - unfold Simple.sendDisabled, Simple.sendStart.
    destruct (Simple.chat sst) as [c|]; cbn.
    + destruct (truthy (trim (Simple.inputValue sst))), (Simple.isLoading sst); cbn;
        split; (done || by intros [x Hx] || by eexists).
    + split; [done|by intros [x Hx]].
Qed.

(** ** Starting the session *)






Lemma select_then_initialize (w : Window) (c : Chat) (st : State) :
  chat st = None → isInitializing st = false →
  let st2 := exec_state (initializeEffect w (Fulfilled c))
               (exec_state (handleSelectKey (Fulfilled tt)) st) in
  keyStatus st2 = ready ∧ chat st2 = Some c ∧ keyError st2 = None
  ∧ messages st2 = [{| role := model; content := msg_initialized |}].
Proof.
  intros Hc Hi. cbn zeta.
  set (st1 := exec_state (handleSelectKey (Fulfilled ())) st).
  assert (Hruns : initializeEffect w (Fulfilled c) st1 = initializeChat w (Fulfilled c) st1)
    by (by apply initializeEffect_runs).
  unfold exec_state at 1 2 3 4. rewrite Hruns.
  pose proof (initializeChat_spec w (Fulfilled c) st1) as (_ & _ & _ & _ & _ & Hspec).
  unfold exec_state in Hspec. destruct Hspec as (Hc2 & Hk2 & He2 & Hm2).
  split; [by rewrite Hk2|]. split; [done|]. by split.
Qed.

(** X11.  From a state without a session, a key selection that succeeds
    followed by the effect with a creation that succeeds gives the key
    status [ready], the new session, no key error, and a transcript that
    is exactly the confirmation turn; the effect does nothing when it
    runs again, however a creation would end. *)
Theorem key_selection_then_single_initialization (w : Window) (c : Chat)
    (created' : Settled Chat) (st : State) :
  chat st = None → isInitializing st = false →
  let st1 := exec_state (handleSelectKey (Fulfilled tt)) st in
  let st2 := exec_state (initializeEffect w (Fulfilled c)) st1 in
  keyStatus st2 = ready ∧ chat st2 = Some c ∧ keyError st2 = None
  ∧ messages st2 = [{| role := model; content := msg_initialized |}]
  ∧ initializeEffect w created' st2 = (tt, st2, []).
Proof.
  intros Hc Hi. cbn zeta.
  destruct (select_then_initialize w c st Hc Hi) as (Hk2 & Hc2 & He2 & Hm2).
  split; [done|]. split; [done|]. split; [done|]. split; [done|].
  apply initializeEffect_live. by rewrite Hc2.
Qed.

Lemma key_selection_then_single_initialization_witness :
  let w := {| aistudio := Some {| hasSelectedApiKey_is_function := true |};
              speechSynthesis := false |} in
  let st := exec_state (checkKeyManagementService w (Fulfilled false)) initialState in
  let st2 := exec_state (initializeEffect w (Fulfilled (ChatHandle 3)))
               (exec_state (handleSelectKey (Fulfilled tt)) st) in
  keyStatus st = needed
  ∧ chat st2 = Some (ChatHandle 3)
  ∧ messages st2 = [{| role := model; content := msg_initialized |}].
Proof.
  intros w st st2. split; [reflexivity|].
  pose proof (key_selection_then_single_initialization w (ChatHandle 3)
                (Fulfilled (ChatHandle 4)) st eq_refl eq_refl) as (_ & Hc & _ & Hm & _).
  exact (conj Hc Hm).
Defined.

(** X12.  When the host offers key selection and the creation of the
    session throws, the effect does not try again on its own: the key
    status is [needed], the view asks for a key, and the effect does
    nothing however often it runs.  Once a key selection succeeds the
    effect creates the session. *)
Theorem no_retry_until_key_selected (w : Window) (a : AiStudio) (e : JSError)
    (created' : Settled Chat) (c : Chat) (st : State) :
  aistudio w = Some a →
  keyStatus st = ready → chat st = None → isInitializing st = false →
  let st1 := exec_state (initializeEffect w (Rejected e)) st in
  keyStatus st1 = needed ∧ chat st1 = None
  ∧ renderContent st1 = renderActionRequired st1
  ∧ initializeEffect w created' st1 = (tt, st1, [])
  ∧ chat (exec_state (initializeEffect w (Fulfilled c))
            (exec_state (handleSelectKey (Fulfilled tt)) st1)) = Some c.
Proof.
  intros Ha Hk Hc Hi. cbn zeta.
  assert (Heq : exec_state (initializeEffect w (Rejected e)) st
                = exec_state (initializeChat w (Rejected e)) st)
    by (unfold exec_state; by rewrite initializeEffect_runs).
  rewrite !Heq.
  pose proof (initializeChat_spec w (Rejected e) st) as (Hi1 & _ & _ & _ & _ & Hc1 & Hcase).
  rewrite Ha in Hcase. destruct Hcase as [Hk1 _].
  split; [done|]. split; [done|]. split; [unfold renderContent; by rewrite Hk1|].
  split; [apply initializeEffect_idle; left; by rewrite Hk1|].
  by destruct (select_then_initialize w c _ Hc1 Hi1) as (_ & H & _).
Qed.

Lemma no_retry_until_key_selected_witness :
  let w := {| aistudio := Some {| hasSelectedApiKey_is_function := true |};
              speechSynthesis := false |} in
  let st := exec_state (checkKeyManagementService w (Fulfilled true)) initialState in
  let e := {| message := Some (lit "fetch failed") |} in
  let st1 := exec_state (initializeEffect w (Rejected e)) st in
  keyStatus st = ready
  ∧ keyStatus st1 = needed
  ∧ initializeEffect w (Fulfilled (ChatHandle 5)) st1 = (tt, st1, [])
  ∧ renderContent st1 = ActionRequiredView (Some err_unexpected).
Proof.
  intros w st e st1. split; [reflexivity|].
  pose proof (no_retry_until_key_selected w _ e (Fulfilled (ChatHandle 5)) (ChatHandle 6) st
                eq_refl eq_refl eq_refl eq_refl) as (Hk & _ & _ & Hidle & _).
  split; [exact Hk|]. split; [exact Hidle|]. reflexivity.
Defined.

(** ** Speaking *)

(** X13.  With voice mode off when the message is submitted,
    [handleSendMessage] makes no call of the speech engine, whatever the
    provider answers and whatever the reply holds. *)
Theorem voice_off_never_speaks (w : Window) (r : Reply) (st : State) :
  isMadScientistVoiceOn st = false →
  Forall (λ e, isSpeech e = false) (exec_log (handleSendMessage w r) st).
Proof.
  intros Hoff. destruct (decide (accepted st)) as [Hacc|Hrej].
  - pose proof Hacc as (_ & [c Hc] & _).
    destruct (handleSendMessage_accepted w r st c Hacc Hc) as (st' & Hrun & _).
    unfold exec_log. rewrite Hrun, Hoff. cbn [snd narration].
    destruct (fails r); by repeat constructor.
  - unfold exec_log, handleSendMessage, mbind, Act_bind.
    by rewrite (not_accepted_rejected _ Hrej).
Qed.

Lemma voice_off_never_speaks_witness :
  let w := {| aistudio := None; speechSynthesis := true |} in
  let st := {| keyStatus := ready; isInitializing := false; keyError := None;
               chat := Some (ChatHandle 0); messages := [];
               inputValue := lit "What is P(A|B)?"; isStreaming := false;
               isMadScientistVoiceOn := false; currentModelMessage := [] |} in
  let r := Streams [Some (lit "Bayes. VOICE_OVER: Eureka!")] StreamDone in
  Forall (λ e, isSpeech e = false) (exec_log (handleSendMessage w r) st).
Proof. intros w st r. exact (voice_off_never_speaks w r st eq_refl). Defined.

(** X14.  With voice mode on, a speech engine, and a reply whose chunks,
    with or without text, have accumulated to [X], a line feed,
    [VOICE_OVER: ] and [Y], where [X] holds no [VOICE_OVER:] and [Y] is
    not only white space, the handler calls the session once and then the
    engine: [cancel], and [speak] with [Y] trimmed, at pitch 1.4, rate 1.1
    and volume 1.  The transcript keeps what was accumulated, narration
    included.  What is accumulated is what is spoken: the letters of
    [undefined] that a chunk without text adds are part of [X] or of
    [Y]. *)
Theorem narration_spoken_once (w : Window) (st : State) (c : Chat)
    (chunks : list (option jsstring)) (X Y : jsstring) :
  accepted st → chat st = Some c →
  isMadScientistVoiceOn st = true → speechSynthesis w = true →
  includes X VOICE_OVER_label = false →
  truthy (trim Y) = true →
  accumulated chunks = X ++ [LF] ++ lit "VOICE_OVER: " ++ Y →
  exec_log (handleSendMessage w (Streams chunks StreamDone)) st
  = [SendMessageStream c (messageToSend st); SpeechCancel;
     SpeechSpeak {| text := trim Y; pitch := 1.4; rate := 1.1; volume := 1 |}]
  ∧ last (messages (exec_state (handleSendMessage w (Streams chunks StreamDone)) st))
    = Some {| role := model; content := X ++ [LF] ++ lit "VOICE_OVER: " ++ Y |}.
Proof.
  intros Hacc Hc Hon Hsp HX HY Hcat.
  destruct (handleSendMessage_accepted w (Streams chunks StreamDone) st c Hacc Hc)
    as (st' & Hrun & Hm & _).
  unfold exec_log, exec_state. rewrite Hrun. cbn [fst snd]. rewrite Hm.
  cbn [fails replyShown]. rewrite Hon, Hcat. split.
  - unfold narration.
    change (lit "VOICE_OVER: ") with (VOICE_OVER_label ++ [32%N]).
    replace (X ++ [LF] ++ (VOICE_OVER_label ++ [32%N]) ++ Y)
      with ((X ++ [LF]) ++ VOICE_OVER_label ++ 32%N :: Y) by (by rewrite <- !app_assoc).
    rewrite (textToSpeak_first (X ++ [LF]) (32%N :: Y))
      by (apply label_after_line; intros j; by apply includes_false_inv).
    change (32%N :: Y) with ([32%N] ++ Y). rewrite (trim_ws [32%N] Y eq_refl).
    rewrite HY, Hsp. cbn [andb app]. rewrite HY. reflexivity.
  - change (messages st ++ [?a; ?b]) with (messages st ++ [a] ++ [b]).
    by rewrite app_assoc, last_snoc.
Qed.

Lemma narration_spoken_once_witness :
  let w := {| aistudio := None; speechSynthesis := true |} in
  let st := {| keyStatus := ready; isInitializing := false; keyError := None;
               chat := Some (ChatHandle 0); messages := [];
               inputValue := lit "What is P(A|B)?"; isStreaming := false;
               isMadScientistVoiceOn := true; currentModelMessage := [] |} in
  let chunks := [Some (lit "Bayes."); Some ([LF] ++ lit "VOICE_");
                 Some (lit "OVER: Eureka! "); None; Some (lit " ")] in
  accepted st
  ∧ accumulated chunks
    = lit "Bayes." ++ [LF] ++ lit "VOICE_OVER: " ++ lit "Eureka! undefined "
  ∧ exec_log (handleSendMessage w (Streams chunks StreamDone)) st
    = [SendMessageStream (ChatHandle 0) (messageToSend st); SpeechCancel;
       SpeechSpeak {| text := lit "Eureka! undefined";
                      pitch := 1.4; rate := 1.1; volume := 1 |}].
Proof.
  intros w st chunks.
  assert (Hacc : accepted st) by (split; [reflexivity|split; [by eexists|reflexivity]]).
  split; [exact Hacc|]. split; [reflexivity|].
  exact (proj1 (narration_spoken_once w st (ChatHandle 0) chunks (lit "Bayes.")
                  (lit "Eureka! undefined ")
                  Hacc eq_refl eq_refl eq_refl eq_refl eq_refl eq_refl)).
Defined.

(** The system after the chunks of a reply have arrived. *)
Lemma run_chunks (w : Window) (chunks : list (option jsstring)) (rest : list Event)
    (sys : System)
    (base : list Message) (voiceOn : bool) :
  sending sys = Some voiceOn → streaming_into base (comp sys) →
  run w sys ((ChunkArrives <$> chunks) ++ rest)
  = run w {| comp := delivered base chunks (comp sys); log := log sys;
             keyCheckPending := keyCheckPending sys;
             selectKeyPending := selectKeyPending sys; sending := sending sys |} rest.
Proof.
  revert sys. induction chunks as [|chunkText chunks IH]; intros sys Hsend Hinto.
  - cbn [fmap list_fmap app]. f_equal. destruct sys as [st lg kc sk sd]. cbn in *.
    f_equal. unfold delivered, accumulated. cbn. rewrite app_nil_r, <- Hinto. by destruct st.
  - cbn [fmap list_fmap app run step]. rewrite Hsend. unfold perform.
    rewrite (onChunk_streaming base chunkText (comp sys) Hinto). cbn [snd].
    rewrite IH; [|done|reflexivity]. cbn [comp log keyCheckPending selectKeyPending sending].
    assert (Hd : delivered base chunks (delivered base [chunkText] (comp sys))
                 = delivered base (chunkText :: chunks) (comp sys)).
    { unfold delivered, accumulated. cbn. by rewrite !app_nil_r, <- !app_assoc. }
    by rewrite Hd, app_nil_r, Hsend.
Qed.

Lemma toggleVoiceMode_spec (w : Window) (st : State) :
  toggleVoiceMode w st
  = (tt,
     {| keyStatus := keyStatus st; isInitializing := isInitializing st;
        keyError := keyError st; chat := chat st; messages := messages st;
        inputValue := inputValue st; isStreaming := isStreaming st;
        isMadScientistVoiceOn := negb (isMadScientistVoiceOn st);
        currentModelMessage := currentModelMessage st |},
     if isMadScientistVoiceOn st && speechSynthesis w then [SpeechCancel] else []).
Proof.
  unfold toggleVoiceMode. act_unfold. cbn.
  by destruct (isMadScientistVoiceOn st && speechSynthesis w).
Qed.

Lemma perform_eq {A} (m : Act A) (sys : System) (a : A) (st : State) (es : list Effect) :
  m (comp sys) = (a, st, es) →
  perform m sys
  = (a, {| comp := st; log := log sys ++ es; keyCheckPending := keyCheckPending sys;
           selectKeyPending := selectKeyPending sys; sending := sending sys |}).
Proof. intros H. unfold perform. by rewrite H. Qed.

(** X15.  The voice flag the handler uses is the one of the submission.
    When a message is submitted with voice mode on and voice mode is
    toggled off while the reply streams, the toggle cancels the speech
    engine, and the reply is still spoken when the stream ends, with
    voice mode off. *)
Theorem speech_after_toggle_mid_stream (w : Window) (sys : System) (c : Chat)
    (chunks : list (option jsstring)) (t : jsstring) :
  accepted (comp sys) → chat (comp sys) = Some c →
  isMadScientistVoiceOn (comp sys) = true → speechSynthesis w = true →
  textToSpeak (accumulated chunks) = Some t →
  ∃ sys',
    run w sys (FormSubmitted :: (ChunkArrives <$> chunks) ++ [VoiceToggled; StreamEnded])
    = Some sys'
    ∧ isMadScientistVoiceOn (comp sys') = false
    ∧ isStreaming (comp sys') = false
    ∧ log sys' = log sys ++ [SendMessageStream c (messageToSend (comp sys));
                             SpeechCancel; SpeechCancel; SpeechSpeak (utterance t)].
Proof.
  intros Hacc Hc Hon Hsp Ht.
  cbn [run step]. unfold perform at 1. rewrite (sendStart_accepted _ c Hacc Hc).
  rewrite (run_chunks w chunks _ _
             (messages (comp sys) ++ [{| role := user; content := inputValue (comp sys) |}])
             (isMadScientistVoiceOn (comp sys))); [|reflexivity|apply started_streaming].
  cbn [run step comp log keyCheckPending selectKeyPending sending with_sending].
  rewrite (perform_eq (toggleVoiceMode w) _ _ _ _ (toggleVoiceMode_spec w _)).
  cbn [snd sending comp log keyCheckPending selectKeyPending].
  rewrite (perform_eq (onFinally w _) _ _ _ _ (onFinally_state w _ _)).
  cbn [snd with_sending comp log keyCheckPending selectKeyPending sending
       isMadScientistVoiceOn isStreaming currentModelMessage delivered started].
  eexists. split; [reflexivity|].
  cbn [comp log isMadScientistVoiceOn isStreaming app].
  rewrite Hon, Hsp. split; [done|]. split; [done|].
  unfold narration. rewrite Ht, Hsp, (textToSpeak_truthy _ _ Ht).
  cbn [andb]. by rewrite <- !app_assoc.
Qed.

Lemma speech_after_toggle_mid_stream_witness :
  let w := {| aistudio := None; speechSynthesis := true |} in
  let sys := {| comp := {| keyStatus := ready; isInitializing := false; keyError := None;
                           chat := Some (ChatHandle 0); messages := [];
                           inputValue := lit "hi"; isStreaming := false;
                           isMadScientistVoiceOn := true; currentModelMessage := [] |};
                log := []; keyCheckPending := false; selectKeyPending := 0;
                sending := None |} in
  accepted (comp sys)
  ∧ textToSpeak (accumulated [Some (lit "Yes. VOICE_"); Some (lit "OVER: Eureka!")])
    = Some (lit "Eureka!")
  ∧ ∃ sys',
      run w sys (FormSubmitted
                 :: (ChunkArrives <$> [Some (lit "Yes. VOICE_"); Some (lit "OVER: Eureka!")])
                 ++ [VoiceToggled; StreamEnded]) = Some sys'
      ∧ isMadScientistVoiceOn (comp sys') = false
      ∧ isStreaming (comp sys') = false
      ∧ log sys' = log sys ++ [SendMessageStream (ChatHandle 0) (messageToSend (comp sys));
                               SpeechCancel; SpeechCancel;
                               SpeechSpeak (utterance (lit "Eureka!"))].
Proof.
  intros w sys.
  assert (Hacc : accepted (comp sys)) by (split; [reflexivity|split; [by eexists|reflexivity]]).
  split; [exact Hacc|]. split; [reflexivity|].
  exact (speech_after_toggle_mid_stream w sys (ChatHandle 0)
           [Some (lit "Yes. VOICE_"); Some (lit "OVER: Eureka!")] (lit "Eureka!")
           Hacc eq_refl eq_refl eq_refl eq_refl).
Defined.

(** ** Rendering a reply *)

Lemma first_label_transfer (label pre rest : jsstring) :
  indexOf (pre ++ label) label = Z.of_nat (length pre) →
  ∀ j, (j < length pre)%nat → startsWith label (drop j (pre ++ label ++ rest)) = false.
Proof.
  intros [_ H]%indexOf_first_inv j Hj. specialize (H j Hj).
  rewrite app_assoc, drop_app_le by (rewrite length_app; lia).
  rewrite startsWith_app_l; [done|]. rewrite length_drop, length_app. lia.
Qed.

Lemma first_label_absent (label pre : jsstring) :
  label ≠ [] → indexOf (pre ++ label) label = Z.of_nat (length pre) → absent label pre.
Proof.
  intros Hne [_ H]%indexOf_first_inv j.
  destruct (startsWith label (drop j pre)) eqn:E; [exfalso|done].
  destruct (decide (j < length pre)%nat) as [Hj|Hj].
  - specialize (H j Hj). rewrite drop_app_le in H by lia.
    apply startsWith_inv in E as [t Ht]. by rewrite Ht, <- app_assoc, startsWith_app in H.
  - rewrite drop_ge in E by lia. by destruct label.
Qed.

(** X16.  What follows the first [VOICE_OVER:] of a reply is not
    rendered: the reply renders as the text in front of the label does,
    whatever the narration says. *)
Theorem narration_not_rendered (pre rest : jsstring) :
  indexOf (pre ++ VOICE_OVER_label) VOICE_OVER_label = Z.of_nat (length pre) →
  ModelMessageContent (pre ++ VOICE_OVER_label ++ rest) = ModelMessageContent pre.
Proof.
  intros H. unfold ModelMessageContent, displayContent.
  rewrite (str_replace_first pre rest) by (by apply first_label_transfer).
  by rewrite str_replace_absent by (by apply first_label_absent).
Qed.

Lemma narration_not_rendered_witness :
  let pre := lit "Bayes. LaTeX Formula: $$P(A|B)$$ " in
  indexOf (pre ++ VOICE_OVER_label) VOICE_OVER_label = Z.of_nat (length pre)
  ∧ ModelMessageContent (pre ++ VOICE_OVER_label ++ lit " Eureka! Plain Description: no")
    = ModelMessageContent pre
  ∧ description (ModelMessageContent pre) = None.
Proof.
  intros pre. split; [reflexivity|]. split; [|reflexivity].
  exact (narration_not_rendered pre (lit " Eureka! Plain Description: no") eq_refl).
Defined.

(** X17.  The description is all that follows the first
    [Plain Description:] of the display text, without the white space in
    front of it; when nothing but white space follows the label the
    description is still rendered, with an empty text. *)
Theorem description_runs_to_end (pre rest : jsstring) :
  indexOf (pre ++ Plain_label) Plain_label = Z.of_nat (length pre) →
  description (renderSections (pre ++ Plain_label ++ rest)) = Some (trimStart rest)
  ∧ (forallb isWhiteSpace rest = true →
     description (renderSections (pre ++ Plain_label ++ rest)) = Some []).
Proof.
  intros H.
  assert (Hd : description (renderSections (pre ++ Plain_label ++ rest))
               = Some (trimStart rest)).
  { cbn [renderSections description]. change Plain_re with (labelled_rest Plain_label).
    rewrite str_match_labelled_rest_first by (by apply first_label_transfer).
    cbn [fmap option_fmap option_map]. by rewrite group1_single. }
  split; [done|]. intros Hws. rewrite Hd. f_equal.
  rewrite <- (app_nil_r rest). by rewrite trimStart_ws.
Qed.

Lemma description_runs_to_end_witness :
  let pre := lit "Explanation. " in
  indexOf (pre ++ Plain_label) Plain_label = Z.of_nat (length pre)
  ∧ description (renderSections (pre ++ Plain_label ++ lit "  the rest, LaTeX Formula: $$x$$"))
    = Some (lit "the rest, LaTeX Formula: $$x$$").
Proof.
  intros pre. split; [reflexivity|].
  exact (proj1 (description_runs_to_end pre (lit "  the rest, LaTeX Formula: $$x$$") eq_refl)).
Defined.

(** X18.  A reply in the format the system instruction asks for is split
    into its four parts.  For a display text made of an explanation [E],
    then [LaTeX Formula:] and a block from [$$] to the next [$$], then
    [MathML Formula:] and a block from [<math] to the next [</math>],
    then [Plain Description:] and a rest, each label being the first of
    its kind: the explanation is [E] trimmed, the LaTeX and the MathML are
    the two blocks with their delimiters, and the description is the rest
    without the white space in front of it. *)
Theorem full_format_reply_parsed (E ws1 B1 m1 ws2 B2 m2 rest : jsstring) :
  let pre2 := E ++ LaTeX_label ++ ws1 ++ lit "$$" ++ B1 ++ lit "$$" ++ m1 in
  let pre3 := pre2 ++ MathML_label ++ ws2 ++ lit "<math" ++ B2 ++ lit "</math>" ++ m2 in
  let d := pre3 ++ Plain_label ++ rest in
  indexOf d LaTeX_label = Z.of_nat (length E) →
  indexOf d MathML_label = Z.of_nat (length pre2) →
  indexOf d Plain_label = Z.of_nat (length pre3) →
  forallb isWhiteSpace ws1 = true → forallb isWhiteSpace ws2 = true →
  indexOf (B1 ++ lit "$$") (lit "$$") = Z.of_nat (length B1) →
  indexOf (B2 ++ lit "</math>") (lit "</math>") = Z.of_nat (length B2) →
  renderSections d
  = {| explanationText := trim E;
       latex := Some (lit "$$" ++ B1 ++ lit "$$");
       mathml := Some (lit "<math" ++ B2 ++ lit "</math>");
       description := Some (trimStart rest) |}.
Proof.
  intros pre2 pre3 d HL HM HP Hws1 Hws2 HB1 HB2.
  assert (Hl : str_match d LaTeX_re
               = Some {| index := length E;
                         matched := LaTeX_label ++ ws1 ++ lit "$$" ++ B1 ++ lit "$$";
                         groups := [lit "$$" ++ B1 ++ lit "$$"] |}).
  { assert (Hd : d = E ++ LaTeX_label ++ ws1 ++ lit "$$" ++ B1 ++ lit "$$"
                     ++ (m1 ++ MathML_label ++ ws2 ++ lit "<math" ++ B2 ++ lit "</math>"
                         ++ m2 ++ Plain_label ++ rest))
      by (unfold d, pre3, pre2; by rewrite <- !app_assoc).
    rewrite Hd in HL |- *.
    apply (str_match_labelled_block_first LaTeX_label (lit "$$") (lit "$$"));
      [done|done| |done].
    intros x t [= <- _]. reflexivity. }
  assert (Hm : str_match d MathML_re
               = Some {| index := length pre2;
                         matched := MathML_label ++ ws2 ++ lit "<math" ++ B2 ++ lit "</math>";
                         groups := [lit "<math" ++ B2 ++ lit "</math>"] |}).
  { assert (Hd : d = pre2 ++ MathML_label ++ ws2 ++ lit "<math" ++ B2 ++ lit "</math>"
                     ++ (m2 ++ Plain_label ++ rest))
      by (unfold d, pre3; by rewrite <- !app_assoc).
    rewrite Hd in HM |- *.
    apply (str_match_labelled_block_first MathML_label (lit "<math") (lit "</math>"));
      [done|done| |done].
    intros x t [= <- _]. reflexivity. }
  assert (Hp : str_match d Plain_re
               = Some {| index := length pre3; matched := Plain_label ++ rest;
                         groups := [trimStart rest] |}).
  { change Plain_re with (labelled_rest Plain_label). unfold d in HP |- *.
    apply str_match_labelled_rest_first. by apply indexOf_first_inv. }
  rewrite (Rendered_eta (renderSections d)), explanationText_spec.
  unfold sectionStart. cbn [latex mathml description renderSections].
  rewrite Hl, Hm, Hp. cbn [fmap option_fmap option_map earlier index].
  rewrite !group1_single.
  assert (Hlen2 : (length E ≤ length pre2)%nat) by (unfold pre2; rewrite length_app; lia).
  assert (Hlen3 : (length pre2 ≤ length pre3)%nat) by (unfold pre3; rewrite length_app; lia).
  rewrite !Nat.min_l by lia.
  do 2 f_equal. unfold d, pre3, pre2. rewrite <- !app_assoc. by rewrite take_app_length.
Qed.

Lemma full_format_reply_parsed_witness :
  let E := lit "Bayes' rule relates the two. " in
  let B1 := lit "P(A|B)=P(B|A)P(A)/P(B)" in
  let B2 := lit " xmlns='w3'><mi>P</mi>" in
  let d := E ++ LaTeX_label ++ lit " " ++ lit "$$" ++ B1 ++ lit "$$" ++ lit " "
           ++ MathML_label ++ lit " " ++ lit "<math" ++ B2 ++ lit "</math>" ++ lit " "
           ++ Plain_label ++ lit " It updates a belief." in
  indexOf d LaTeX_label = Z.of_nat (length E)
  ∧ renderSections d
    = {| explanationText := lit "Bayes' rule relates the two.";
         latex := Some (lit "$$" ++ B1 ++ lit "$$");
         mathml := Some (lit "<math" ++ B2 ++ lit "</math>");
         description := Some (lit "It updates a belief.") |}.
Proof.
  intros E B1 B2 d. split; [reflexivity|].
  pose proof (full_format_reply_parsed E (lit " ") B1 (lit " ") (lit " ") B2 (lit " ")
                (lit " It updates a belief.")
                eq_refl eq_refl eq_refl eq_refl eq_refl eq_refl eq_refl) as H.
  exact H.
Defined.

Lemma dollars_app (a b : jsstring) : dollars (a ++ b) = (dollars a + dollars b)%nat.
Proof. unfold dollars. by rewrite filter_app, length_app. Qed.

(** X19.  A display text with fewer than four dollar signs has no LaTeX
    block, as when the closing [$$] has not been streamed yet; if it has
    no [MathML Formula:] and no [Plain Description:] either, all of it is
    shown as the explanation, the label and the unfinished formula
    included. *)
Theorem unclosed_latex_shown_as_explanation (d : jsstring) :
  (dollars d < 4)%nat →
  latex (renderSections d) = None
  ∧ (includes d MathML_label = false → includes d Plain_label = false →
     renderSections d
     = {| explanationText := d; latex := None; mathml := None; description := None |}).
Proof.
  intros Hd.
  assert (Hl : str_match d LaTeX_re = None).
  { destruct (str_match d LaTeX_re) as [m|] eqn:E; [exfalso|done].
    apply exec_from_Some in E as (pre & post & Hs & _ & _ & Hm & _).
    apply (rmatch_labelled_block_sound LaTeX_label (lit "$$") (lit "$$"))
      in Hm as (ws & body & Hm & _ & _).
    rewrite Hs, Hm, !dollars_app in Hd.
    change (dollars (lit "$$")) with 2%nat in Hd. lia. }
  split; [cbn; by rewrite Hl|].
  intros Hm Hp.
  assert (Hm' : str_match d MathML_re = None)
    by (apply str_match_label_absent; intros j; by apply includes_false_inv).
  assert (Hp' : str_match d Plain_re = None)
    by (apply str_match_label_absent; intros j; by apply includes_false_inv).
  rewrite (Rendered_eta (renderSections d)), explanationText_spec.
  unfold sectionStart. cbn [latex mathml description renderSections].
  by rewrite Hl, Hm', Hp'.
Qed.

Lemma unclosed_latex_shown_as_explanation_witness :
  let d := lit "The rule is LaTeX Formula: $$P(A|B)=" in
  (dollars d < 4)%nat
  ∧ renderSections d
    = {| explanationText := d; latex := None; mathml := None; description := None |}.
Proof.
  intros d. assert (Hd : (dollars d < 4)%nat) by (vm_compute; lia).
  split; [exact Hd|].
  exact (proj2 (unclosed_latex_shown_as_explanation d Hd) eq_refl eq_refl).
Defined.

(** ** The simpler variant *)

Lemma deref_all_from (pre heap : list Message) :
  omap (λ r, (pre ++ heap) !! r) (seq (length pre) (length heap)) = heap.
Proof.
  revert pre. induction heap as [|x h IH]; intros pre; [done|].
  cbn [length seq omap list_omap]. rewrite list_lookup_middle by done.
  f_equal. specialize (IH (pre ++ [x])). rewrite <- app_assoc, length_app in IH.
  cbn [length app] in IH.
  by replace (length pre + 1)%nat with (S (length pre)) in IH by lia.
Qed.

(** The array that holds every object of the store shows the store. *)
Lemma deref_all (heap : list Message) :
  omap (λ r, heap !! r) (seq 0 (length heap)) = heap.
Proof. exact (deref_all_from [] heap). Qed.

Lemma update_last_snoc (f : jsstring → jsstring) (base : list Message) (m : Message) :
  Simple.update_last_content f (seq 0 (length (base ++ [m]))) (base ++ [m])
  = Some (seq 0 (length (base ++ [m])),
          base ++ [{| role := role m; content := f (content m) |}]).
Proof.
  unfold Simple.update_last_content. rewrite length_app. cbn [length].
  replace (length base + 1)%nat with (S (length base)) by lia.
  rewrite seq_S, last_snoc. cbn [Nat.add]. rewrite list_lookup_middle by done.
  rewrite insert_app_r_alt by done. by rewrite Nat.sub_diag.
Qed.

(** Every call of the updater assigns to the same object. *)
Lemma invoke_update_last (again : nat) (f : jsstring → jsstring) (base : list Message)
    (m : Message) :
  Simple.invoke again (Simple.update_last_content f) (seq 0 (length (base ++ [m])))
    (base ++ [m])
  = Some (seq 0 (length (base ++ [m])),
          base ++ [{| role := role m; content := Nat.iter (S again) f (content m) |}]).
Proof.
  revert m. induction again as [|k IH]; intros m; cbn [Simple.invoke].
  - by rewrite update_last_snoc.
  - rewrite update_last_snoc.
    assert (Hlen : length (base ++ [m])
                   = length (base ++ [{| role := role m; content := f (content m) |}]))
      by (by rewrite !length_app).
    rewrite Hlen, IH. cbn [role content]. by rewrite <- Nat.iter_succ_r.
Qed.

Lemma simple_setMessages_last (again : nat) (f : jsstring → jsstring) (base : list Message)
    (m : Message) (st : Simple.State) :
  Simple.messages st = base ++ [m] →
  Simple.setMessages again (Simple.update_last_content f) st
  = Some {| Simple.chat := Simple.chat st;
            Simple.messages :=
              base ++ [{| role := role m; content := Nat.iter (S again) f (content m) |}];
            Simple.inputValue := Simple.inputValue st;
            Simple.isLoading := Simple.isLoading st |}.
Proof.
  intros Hm. unfold Simple.setMessages. rewrite Hm, invoke_update_last.
  assert (Hlen : length (base ++ [m])
                 = length (base ++ [{| role := role m;
                                       content := Nat.iter (S again) f (content m) |}]))
    by (by rewrite !length_app).
  by rewrite Hlen, deref_all.
Qed.

Lemma iter_append (n : nat) (t x : jsstring) :
  Nat.iter n (λ c, c ++ t) x = x ++ concat (replicate n t).
Proof.
  revert x. induction n as [|n IH]; intros x; [by rewrite app_nil_r|].
  rewrite Nat.iter_succ_r, IH. cbn. by rewrite <- app_assoc.
Qed.

Lemma accumulated_reinvoked_cons (again : nat → nat) (k : nat)
    (chunkText : option jsstring) (rest : list (option jsstring)) :
  accumulated (reinvoked again k (chunkText :: rest))
  = concat (replicate (S (again k)) (ToString chunkText))
    ++ accumulated (reinvoked again (S k) rest).
Proof.
  unfold accumulated. cbn [reinvoked].
  by rewrite fmap_app, concat_app, fmap_replicate.
Qed.

Lemma reinvoked_once (again : nat → nat) (k : nat) (chunks : list (option jsstring)) :
  (∀ i, again i = 0%nat) → reinvoked again k chunks = chunks.
Proof.
  intros Hagain. revert k. induction chunks as [|c rest IH]; intros k; [done|].
  cbn. by rewrite Hagain, IH.
Qed.

Lemma replyReinvoked_once (again : nat → nat) (r : Reply) :
  (∀ i, again i = 0%nat) → replyReinvoked again r = r.
Proof. intros H. destruct r as [e|chunks fin]; [done|]. cbn. by rewrite reinvoked_once. Qed.

Lemma simple_forEachChunk_snoc (again : nat → nat) (k : nat)
    (chunks : list (option jsstring)) (base : list Message) (m : Message)
    (st : Simple.State) :
  Simple.messages st = base ++ [m] →
  Simple.forEachChunk again k chunks st
  = Some {| Simple.chat := Simple.chat st;
            Simple.messages :=
              base ++ [{| role := role m;
                          content := content m
                                     ++ accumulated (reinvoked again k chunks) |}];
            Simple.inputValue := Simple.inputValue st;
            Simple.isLoading := Simple.isLoading st |}.
Proof.
  revert k st m. induction chunks as [|chunkText rest IH]; intros k st m Hm.
  - destruct m as [rl ct], st as [c ms v l]. cbn in *. by rewrite app_nil_r, Hm.
  - cbn [Simple.forEachChunk]. unfold Simple.onChunk.
    rewrite (simple_setMessages_last (again k) _ base m st Hm), iter_append.
    rewrite (IH _ _ {| role := role m;
                       content := content m
                                  ++ concat (replicate (S (again k)) (ToString chunkText)) |})
      by reflexivity.
    cbn [Simple.chat Simple.messages Simple.inputValue Simple.isLoading role content].
    by rewrite accumulated_reinvoked_cons, <- app_assoc.
Qed.

(** The simpler [handleSendMessage] on a submission that passes its
    guard. *)
Lemma simple_handleSendMessage_accepted (again : nat → nat) (r : Reply)
    (sst : Simple.State) (c : Chat) :
  Simple.chat sst = Some c → truthy (trim (Simple.inputValue sst)) = true →
  Simple.isLoading sst = false →
  Simple.handleSendMessage again r sst
  = Some ({| Simple.chat := Some c;
             Simple.messages :=
               Simple.messages sst
               ++ [{| role := user; content := Simple.inputValue sst |};
                   {| role := model; content := replyShown (replyReinvoked again r) |}];
             Simple.inputValue := [];
             Simple.isLoading := false |},
          Some (c, Simple.inputValue sst)).
Proof.
  intros Hc Hin Hl. unfold Simple.handleSendMessage, Simple.sendStart.
  rewrite Hc, Hin, Hl. cbn [negb orb].
  set (base := Simple.messages sst ++ [{| role := user; content := Simple.inputValue sst |}]).
  set (st1 := {| Simple.chat := Some c;
                 Simple.messages := Simple.messages sst ++ [_; _] |}).
  assert (Hm1 : Simple.messages st1 = base ++ [{| role := model; content := [] |}])
    by (unfold st1, base; cbn; by rewrite <- app_assoc).
  destruct r as [e|chunks [|e]]; cbn [Simple.receive replyShown replyReinvoked].
  - unfold Simple.onCatch. rewrite (simple_setMessages_last _ _ _ _ st1 Hm1).
    unfold Simple.onFinally, base. cbn. by rewrite <- app_assoc.
  - rewrite (simple_forEachChunk_snoc again 0 chunks base _ st1 Hm1).
    unfold Simple.onFinally, base. cbn. by rewrite <- app_assoc.
  - rewrite (simple_forEachChunk_snoc again 0 chunks base _ st1 Hm1).
    unfold Simple.onCatch. erewrite simple_setMessages_last by reflexivity.
    unfold Simple.onFinally, base. cbn. by rewrite <- app_assoc.
Qed.

(** X20.  In the simpler variant a session exists after the first effect
    only if the key is configured and the creation succeeds.  Otherwise
    the transcript is a single model turn that says so, the input is
    disabled, and every later submission, whatever is typed, changes
    nothing and sends nothing. *)
Theorem simple_no_session_nothing_sent (apiKey : option jsstring) (created : Settled Chat)
    (st : Simple.State) :
  Simple.chat st = None →
  from_option truthy false apiKey = false ∨ (∃ e, created = Rejected e) →
  let st1 := Simple.initEffect apiKey created st in
  Simple.chat st1 = None ∧ Simple.isLoading st1 = false
  ∧ (∃ m, Simple.messages st1 = [m] ∧ role m = model)
  ∧ ∀ v r again,
      let typed := {| Simple.chat := Simple.chat st1; Simple.messages := Simple.messages st1;
                      Simple.inputValue := v; Simple.isLoading := Simple.isLoading st1 |} in
      Simple.inputDisabled typed = true
      ∧ Simple.handleSendMessage again r typed = Some (typed, None).
Proof.
  intros Hc Hwhy. cbn zeta.
  assert (Hnone : Simple.chat (Simple.initEffect apiKey created st) = None).
  { unfold Simple.initEffect. destruct Hwhy as [->|[e ->]]; [done|].
    by destruct (negb (from_option truthy false apiKey)). }
  split; [done|]. split; [|split].
  - unfold Simple.initEffect.
    by destruct (negb (from_option truthy false apiKey)), created.
  - unfold Simple.initEffect.
    destruct (negb (from_option truthy false apiKey)), created; by eexists.
  - intros v r again. split.
    + unfold Simple.inputDisabled. cbn [Simple.chat]. rewrite Hnone.
      by rewrite (bool_decide_eq_false_2 (is_Some None)) by (by intros [x Hx]).
    + unfold Simple.handleSendMessage, Simple.sendStart. cbn [Simple.chat].
      by rewrite Hnone.
Qed.

Lemma simple_no_session_nothing_sent_witness :
  let st1 := Simple.initEffect None (Fulfilled (ChatHandle 0)) Simple.initialState in
  Simple.chat st1 = None
  ∧ Simple.messages st1 = [{| role := model; content := Simple.msg_unavailable |}].
Proof.
  intros st1. split; [|reflexivity].
  exact (proj1 (simple_no_session_nothing_sent None (Fulfilled (ChatHandle 0))
                  Simple.initialState eq_refl (or_introl eq_refl))).
Defined.

(** X21.  In the simpler variant a submission that passes the guard runs
    to its end whatever the provider answers and however often React
    calls the updaters (no updater throws): the raw input is what is
    sent, the input is cleared, [isLoading] is false again, and the
    transcript gains the user turn with the raw input and a model turn.
    The updater of the loop assigns to the message object that the
    previous array holds too, so the model turn has each chunk once for
    every call React makes of its updater: it is the accumulated reply
    when every updater is called once, and has each chunk twice when
    every updater is called twice.  It is the apology if the stream
    failed. *)
Theorem simple_run_transcript (again : nat → nat) (r : Reply) (sst : Simple.State)
    (c : Chat) :
  Simple.chat sst = Some c → truthy (trim (Simple.inputValue sst)) = true →
  Simple.isLoading sst = false →
  ∃ sst', Simple.handleSendMessage again r sst
          = Some (sst', Some (c, Simple.inputValue sst))
    ∧ Simple.messages sst'
      = Simple.messages sst
        ++ [{| role := user; content := Simple.inputValue sst |};
            {| role := model;
               content := match r with
                          | Streams chunks StreamDone =>
                              accumulated (reinvoked again 0 chunks)
                          | _ => errorMessage
                          end |}]
    ∧ ((∀ i, again i = 0%nat) →
       Simple.messages sst'
       = Simple.messages sst ++ [{| role := user; content := Simple.inputValue sst |};
                                 {| role := model; content := replyShown r |}])
    ∧ Simple.inputValue sst' = [] ∧ Simple.isLoading sst' = false
    ∧ Simple.chat sst' = Some c.
Proof.
  intros Hc Hin Hl. eexists. split; [by apply simple_handleSendMessage_accepted|].
  cbn [Simple.messages Simple.inputValue Simple.isLoading Simple.chat].
  split; [by destruct r as [|? []]|]. split; [|done].
  intros Hagain. by rewrite replyReinvoked_once.
Qed.

Lemma simple_run_transcript_witness :
  let sst := {| Simple.chat := Some (ChatHandle 0);
                Simple.messages := [{| role := model; content := Simple.msg_hi |}];
                Simple.inputValue := lit "What is a fair coin?";
                Simple.isLoading := false |} in
  let r := Streams [Some (lit "Heads "); Some (lit "or tails.")] StreamDone in
  ∃ sst', Simple.handleSendMessage (λ _, 1%nat) r sst
          = Some (sst', Some (ChatHandle 0, lit "What is a fair coin?"))
    ∧ Simple.messages sst'
      = [{| role := model; content := Simple.msg_hi |};
         {| role := user; content := lit "What is a fair coin?" |};
         {| role := model; content := lit "Heads Heads or tails.or tails." |}].
Proof.
  intros sst r.
  destruct (simple_run_transcript (λ _, 1%nat) r sst (ChatHandle 0) eq_refl eq_refl eq_refl)
    as (sst' & Hrun & Hm & _).
  exists sst'. split; [exact Hrun|]. exact Hm.
Defined.

(** X22.  The two variants compared.  From states with the same
    transcript and the same input, each with a session and idle, and for
    the same answer of the provider, the simpler variant records what the
    fuller variant records for the answer in which every chunk comes once
    for each call React makes of its updater in the simpler variant: the
    updaters of the fuller variant build new objects, those of the
    simpler variant assign to the object of the array before.  The two
    transcripts are the same when every updater is called once.  What
    the two send differs by the voice directive and the empty line that
    only the fuller variant puts in front of the input. *)
Theorem variants_transcripts_related (w : Window) (again : nat → nat) (r : Reply)
    (st : State) (sst : Simple.State) (c c' : Chat) :
  accepted st → chat st = Some c →
  Simple.chat sst = Some c' → Simple.isLoading sst = false →
  Simple.inputValue sst = inputValue st → Simple.messages sst = messages st →
  ∃ sst' sent,
    Simple.handleSendMessage again r sst = Some (sst', Some (c', sent))
    ∧ Simple.messages sst'
      = messages (exec_state (handleSendMessage w (replyReinvoked again r)) st)
    ∧ ((∀ i, again i = 0%nat) →
       Simple.messages sst' = messages (exec_state (handleSendMessage w r) st))
    ∧ Simple.isLoading sst' = isStreaming (exec_state (handleSendMessage w r) st)
    ∧ exec_log sendStart st
      = [SendMessageStream c
           ((if isMadScientistVoiceOn st then voice_ON else voice_OFF) ++ [LF; LF] ++ sent)].
Proof.
  intros Hacc Hc Hc' Hl Hin Hm. pose proof Hacc as (Htr & _ & _).
  eexists _, _. split.
  { apply simple_handleSendMessage_accepted; [done| |done]. by rewrite Hin. }
  destruct (handleSendMessage_accepted w (replyReinvoked again r) st c Hacc Hc)
    as (st' & Hrun & Hm' & _).
  destruct (handleSendMessage_accepted w r st c Hacc Hc) as (st'' & Hrun' & Hm'' & Hs'' & _).
  unfold exec_state, exec_log. rewrite Hrun, Hrun', (sendStart_accepted st c Hacc Hc).
  cbn [fst snd Simple.messages Simple.isLoading]. rewrite Hm', Hm'', Hs'', Hin, Hm.
  split; [done|]. split; [|done]. intros Hagain. by rewrite replyReinvoked_once.
Qed.

Lemma variants_transcripts_related_witness :
  let w := {| aistudio := None; speechSynthesis := true |} in
  let st := {| keyStatus := ready; isInitializing := false; keyError := None;
               chat := Some (ChatHandle 0); messages := [];
               inputValue := lit "hi"; isStreaming := false;
               isMadScientistVoiceOn := true; currentModelMessage := [] |} in
  let sst := {| Simple.chat := Some (ChatHandle 1); Simple.messages := [];
                Simple.inputValue := lit "hi"; Simple.isLoading := false |} in
  let r := Streams [Some (lit "a"); None; Some (lit "b")] StreamDone in
  accepted st
  ∧ ∃ sst' sent,
      Simple.handleSendMessage (λ _, 0%nat) r sst = Some (sst', Some (ChatHandle 1, sent))
      ∧ Simple.messages sst' = messages (exec_state (handleSendMessage w r) st)
      ∧ Simple.messages sst' = [{| role := user; content := lit "hi" |};
                                {| role := model; content := lit "aundefinedb" |}].
Proof.
  intros w st sst r.
  assert (Hacc : accepted st) by (split; [reflexivity|split; [by eexists|reflexivity]]).
  split; [exact Hacc|].
  destruct (variants_transcripts_related w (λ _, 0%nat) r st sst (ChatHandle 0) (ChatHandle 1)
              Hacc eq_refl eq_refl eq_refl eq_refl eq_refl)
    as (sst' & sent & Hrun & _ & Hsame & _).
  exists sst', sent. split; [exact Hrun|]. split; [exact (Hsame (λ _, eq_refl))|].
  rewrite (Hsame (λ _, eq_refl)). reflexivity.
Defined.
